(** * as-msgpack: the decoder of [src/assembly/decoder.ts]

    A shallow embedding of the MessagePack decoder ([SafeDecoder], the
    unwrapping facade [Decoder]) together with the byte cursor and the tag
    table it consumes, and the properties of the decoder stated in the
    specification. *)

From Stdlib Require Import ZArith List Lia Bool.
From Stdlib.Strings Require Import Byte String.
Import ListNotations.
Local Open Scope Z_scope.

(** ** Bytes and fixed-width integers *)

(** A [u8] read from the buffer, as an integer in [0, 255]. *)
Definition Z_of_byte (b : byte) : Z := Z.of_N (Byte.to_N b).

Definition byte_of_Z (z : Z) : byte :=
  match Byte.of_N (Z.to_N (z mod 256)) with
  | Some b => b
  | None => x00
  end.

(** Test buffers are written as lists of integers. *)
Definition bytes (l : list Z) : list byte := map byte_of_Z l.

(** AssemblyScript casts: [<uN>z] keeps the low [bits] bits, [<iN>z]
    reinterprets them in two's complement. *)
Definition as_unsigned (bits : Z) (z : Z) : Z := z mod 2 ^ bits.

Definition as_signed (bits : Z) (z : Z) : Z :=
  let u := z mod 2 ^ bits in
  if u <? 2 ^ (bits - 1) then u else u - 2 ^ bits.

Definition as_u8 := as_unsigned 8.
Definition as_u16 := as_unsigned 16.
Definition as_u32 := as_unsigned 32.
Definition as_u64 := as_unsigned 64.
Definition as_i8 := as_signed 8.
Definition as_i16 := as_signed 16.
Definition as_i32 := as_signed 32.
Definition as_i64 := as_signed 64.

Definition i8_MIN_VALUE : Z := -128.
Definition i8_MAX_VALUE : Z := 127.
Definition i16_MIN_VALUE : Z := -32768.
Definition i16_MAX_VALUE : Z := 32767.
Definition i32_MIN_VALUE : Z := -2147483648.
Definition i32_MAX_VALUE : Z := 2147483647.
Definition i64_MIN_VALUE : Z := -9223372036854775808.
Definition i64_MAX_VALUE : Z := 9223372036854775807.
Definition u8_MAX_VALUE : Z := 255.
Definition u16_MAX_VALUE : Z := 65535.
Definition u32_MAX_VALUE : Z := 4294967295.
Definition u64_MAX_VALUE : Z := 18446744073709551615.

(** Big-endian value of a byte string, and the [w]-byte big-endian
    representation of an integer (modulo [2^(8w)]). *)
Definition be_uint (bs : list byte) : Z :=
  fold_left (fun acc b => acc * 256 + Z_of_byte b) bs 0.

Fixpoint be_bytes (w : nat) (z : Z) : list byte :=
  match w with
  | O => []
  | S w' => byte_of_Z (z / 2 ^ (8 * Z.of_nat w')) :: be_bytes w' z
  end.

(** ** The tag table *)

Module Format.

(** Modelled from the spec: the [Format] enumeration that the decoder
    imports from [./format]; the values are the tag table of the
    external-interfaces section and the bit patterns of the tag
    classifier table. *)
Definition FIXMAP : Z := 0x80.
Definition FIXARRAY : Z := 0x90.
Definition FIXSTR : Z := 0xa0.
Definition NIL : Z := 0xc0.
Definition FALSE : Z := 0xc2.
Definition TRUE : Z := 0xc3.
Definition BIN8 : Z := 0xc4.
Definition BIN16 : Z := 0xc5.
Definition BIN32 : Z := 0xc6.
Definition FLOAT32 : Z := 0xca.
Definition FLOAT64 : Z := 0xcb.
Definition UINT8 : Z := 0xcc.
Definition UINT16 : Z := 0xcd.
Definition UINT32 : Z := 0xce.
Definition UINT64 : Z := 0xcf.
Definition INT8 : Z := 0xd0.
Definition INT16 : Z := 0xd1.
Definition INT32 : Z := 0xd2.
Definition INT64 : Z := 0xd3.
Definition FIXEXT1 : Z := 0xd4.
Definition FIXEXT2 : Z := 0xd5.
Definition FIXEXT4 : Z := 0xd6.
Definition FIXEXT8 : Z := 0xd7.
Definition FIXEXT16 : Z := 0xd8.
Definition STR8 : Z := 0xd9.
Definition STR16 : Z := 0xda.
Definition STR32 : Z := 0xdb.
Definition ARRAY16 : Z := 0xdc.
Definition ARRAY32 : Z := 0xdd.
Definition MAP16 : Z := 0xde.
Definition MAP32 : Z := 0xdf.
Definition NEGATIVE_FIXINT : Z := 0xe0.
Definition FOUR_LEAST_SIG_BITS_IN_BYTE : Z := 0x0f.
End Format.

(** ** Results and outcomes of a call *)

(** The error kinds of the decoder. *)
Inductive ErrorKind : Type :=
| BadTag | IntegerOverflow | IntegerUnderflow | FloatOverflow | InvalidLength.

(** One constructor per error message built in [decoder.ts]; the fields
    are the values the message is formatted from. *)
Inductive Error : Type :=
| BadBoolValue (value : Z)
| BadIntPrefix (prefix : Z)
| BadUnsignedIntPrefix (prefix : Z)
| BadFloatPrefix (prefix : Z)
| IntOverflow (value : Z) (bits : Z)
| UnsignedIntOverflow (value : Z) (bits : Z)
| IntUnderflow (value : Z)
| FloatTooLarge (value : Z)
| BadLengthPrefix (prefix : Z).

Definition kind (e : Error) : ErrorKind :=
  match e with
  | BadBoolValue _ | BadIntPrefix _ | BadUnsignedIntPrefix _
  | BadFloatPrefix _ => BadTag
  | IntOverflow _ _ | UnsignedIntOverflow _ _ => IntegerOverflow
  | IntUnderflow _ => IntegerUnderflow
  | FloatTooLarge _ => FloatOverflow
  | BadLengthPrefix _ => InvalidLength
  end.

Inductive Result (T : Type) : Type :=
| Ok (value : T)
| Err (e : Error).
Arguments Ok {T} value.
Arguments Err {T} e.

Definition isErr {T} (x : Result T) : bool :=
  match x with Ok _ => false | Err _ => true end.

(** What a call can throw.  In AssemblyScript a [throw] is an abort: it is
    not a [Result], and nothing catches it.  The cursor throws when it is
    asked for more bytes than remain, [getSize] on a lead byte it does not
    know, and [Result.unwrap] on a failure. *)
Inductive exn : Type :=
| BufferUnderrun (method : string) (length : Z)
| InvalidPrefix (leadByte : Z)
| UnwrapFailed (e : Error).

(** The byte cursor over a read-only buffer. *)
Record DataReader : Type := mkReader {
  buffer : list byte;
  byteOffset : nat
}.

Inductive outcome (A : Type) : Type :=
| Done (a : A) (r : DataReader)
| Thrown (e : exn) (r : DataReader).
Arguments Done {A} a r.
Arguments Thrown {A} e r.

(** A method of the decoder: it runs on the cursor and either returns a
    value and the cursor it leaves, or throws. *)
Definition M (A : Type) : Type := DataReader -> outcome A.

Definition ret {A} (a : A) : M A := fun r => Done a r.

Definition bind {A B} (c : M A) (k : A -> M B) : M B :=
  fun r =>
    match c r with
    | Done a r' => k a r'
    | Thrown e r' => Thrown e r'
    end.

Definition throw {A} (e : exn) : M A := fun r => Thrown e r.

Declare Scope decoder_scope.
Delimit Scope decoder_scope with decoder.
Notation "x <- c ;; k" := (bind c (fun x => k))
  (at level 61, c at next level, right associativity) : decoder_scope.
Notation "c ;;; k" := (bind c (fun _ => k))
  (at level 61, right associativity) : decoder_scope.
Local Open Scope decoder_scope.

(** ** The byte cursor *)

(** The methods of the cursor, under the name of the decoder's field
    [reader]. *)
Module Reader.

(** Modelled from the spec: the [DataReader] class that the decoder
    imports from [./datareader], after the byte-cursor contract: a
    non-consuming peek, big-endian fixed-width reads, a read of [n] raw
    bytes and a discard of [n] bytes, each failing (throwing) without
    moving the cursor when fewer bytes remain. *)
Definition create (ua : list byte) : DataReader := mkReader ua 0.

Definition remaining (r : DataReader) : list byte :=
  skipn (byteOffset r) (buffer r).

Definition advance (r : DataReader) (n : nat) : DataReader :=
  mkReader (buffer r) (byteOffset r + n).

Definition take (method : string) (n : nat) : M (list byte) :=
  fun r =>
    if (n <=? List.length (remaining r))%nat
    then Done (firstn n (remaining r)) (advance r n)
    else Thrown (BufferUnderrun method (Z.of_nat n)) r.

Definition peekUint8 : M Z :=
  fun r =>
    match remaining r with
    | b :: _ => Done (Z_of_byte b) r
    | [] => Thrown (BufferUnderrun "peekUint8" 1) r
    end.

Definition getUint8 : M Z :=
  bs <- take "getUint8" 1 ;; ret (be_uint bs).
Definition getUint16 : M Z :=
  bs <- take "getUint16" 2 ;; ret (be_uint bs).
Definition getUint32 : M Z :=
  bs <- take "getUint32" 4 ;; ret (be_uint bs).
Definition getUint64 : M Z :=
  bs <- take "getUint64" 8 ;; ret (be_uint bs).
Definition getInt8 : M Z :=
  bs <- take "getInt8" 1 ;; ret (as_i8 (be_uint bs)).
Definition getInt16 : M Z :=
  bs <- take "getInt16" 2 ;; ret (as_i16 (be_uint bs)).
Definition getInt32 : M Z :=
  bs <- take "getInt32" 4 ;; ret (as_i32 (be_uint bs)).
Definition getInt64 : M Z :=
  bs <- take "getInt64" 8 ;; ret (as_i64 (be_uint bs)).

(** [getBytes(length)]: the length is a [u32] at every call site. *)
Definition getBytes (length : Z) : M (list byte) :=
  take "getBytes" (Z.to_nat length).

(** Modelled from the spec: [discard(length: i32)] fails when [length]
    exceeds the remaining bytes.  The contract gives it no lower bound: a
    negative count, which only the [i32] casts of [getSize] can produce on
    a length of 2^31 or more, passes the check and moves the cursor back,
    not below the start of the buffer. *)
Definition discard (length : Z) : M unit :=
  fun r =>
    if Z.of_nat (List.length (remaining r)) <? length
    then Thrown (BufferUnderrun "discard" length) r
    else Done tt (mkReader (buffer r)
                           (Z.to_nat (Z.of_nat (byteOffset r) + length))).

End Reader.

(** [Result.unwrap]: the value, or an abort. *)
Definition unwrap {T} (x : Result T) : M T :=
  match x with
  | Ok v => ret v
  | Err e => throw (UnwrapFailed e)
  end.

(** Floating-point values are carried as their IEEE-754 bit patterns; the
    arithmetic on them is an interface of the platform. *)
Class FloatOps : Type := {
  f64_of_f32 : Z -> Z;
  f32_of_f64 : Z -> Z;
  f64_sub : Z -> Z -> Z;
  f64_abs : Z -> Z;
  f64_le : Z -> Z -> bool;
  f64_lt : Z -> Z -> bool
}.

(** Strings are values of the platform, and [String.UTF8.decode] is its
    decoder of UTF-8 bytes: what a string is, and what the decoder makes
    of bytes that are not valid UTF-8, is the platform's. *)
Class StringOps : Type := {
  text : Type;
  String_UTF8_decode : list byte -> text
}.

Definition f32_MAX_VALUE : Z := 0x7f7fffff.
Definition f32_EPSILON : Z := 0x34000000.
Definition f64_zero : Z := 0.

(** ** The fallible decoder *)

Module SafeDecoder.

Definition create (ua : list byte) : DataReader := Reader.create ua.

(** *** Tag classifier *)

Definition isFloat32 (u : Z) : bool := u =? Format.FLOAT32.
Definition isFloat64 (u : Z) : bool := u =? Format.FLOAT64.
Definition isFixedInt (u : Z) : bool := Z.shiftr u 7 =? 0.
Definition isNegativeFixedInt (u : Z) : bool :=
  Z.land u 0xe0 =? Format.NEGATIVE_FIXINT.
Definition isFixedMap (u : Z) : bool := Z.land u 0xf0 =? Format.FIXMAP.
Definition isFixedArray (u : Z) : bool := Z.land u 0xf0 =? Format.FIXARRAY.
Definition isFixedString (u : Z) : bool := Z.land u 0xe0 =? Format.FIXSTR.
Definition isNil (u : Z) : bool := u =? Format.NIL.

(** *** Scalars *)

Definition isNextNil : M bool :=
  next <- Reader.peekUint8 ;;
  if next =? Format.NIL
  then Reader.discard 1 ;;; ret true
  else ret false.

Definition readBool : M (Result bool) :=
  value <- Reader.getUint8 ;;
  if value =? Format.TRUE then ret (Ok true)
  else if value =? Format.FALSE then ret (Ok false)
  else ret (Err (BadBoolValue value)).

Definition readInt64 : M (Result Z) :=
  prefix <- Reader.getUint8 ;;
  if isFixedInt prefix then ret (Ok (as_i64 prefix))
  else if isNegativeFixedInt prefix then ret (Ok (as_i64 (as_i8 prefix)))
  else if prefix =? Format.INT8 then
    v <- Reader.getInt8 ;; ret (Ok (as_i64 v))
  else if prefix =? Format.INT16 then
    v <- Reader.getInt16 ;; ret (Ok (as_i64 v))
  else if prefix =? Format.INT32 then
    v <- Reader.getInt32 ;; ret (Ok (as_i64 v))
  else if prefix =? Format.INT64 then
    v <- Reader.getInt64 ;; ret (Ok v)
  else if prefix =? Format.UINT8 then
    v <- Reader.getUint8 ;; ret (Ok (as_i64 v))
  else if prefix =? Format.UINT16 then
    v <- Reader.getUint16 ;; ret (Ok (as_i64 v))
  else if prefix =? Format.UINT32 then
    v <- Reader.getUint32 ;; ret (Ok (as_i64 v))
  else if prefix =? Format.UINT64 then
    value <- Reader.getUint64 ;;
    if value <=? as_u64 i64_MAX_VALUE then ret (Ok (as_i64 value))
    else ret (Err (IntOverflow value 64))
  else ret (Err (BadIntPrefix prefix)).

Definition readInt8 : M (Result Z) :=
  result <- readInt64 ;;
  match result with
  | Err e => ret (Err e)
  | Ok value =>
      if (value <=? as_i64 i8_MAX_VALUE) && (value >=? as_i64 i8_MIN_VALUE)
      then ret (Ok (as_i8 value))
      else ret (Err (IntOverflow value 8))
  end.

Definition readInt16 : M (Result Z) :=
  result <- readInt64 ;;
  match result with
  | Err e => ret (Err e)
  | Ok value =>
      if (value <=? as_i64 i16_MAX_VALUE) && (value >=? as_i64 i16_MIN_VALUE)
      then ret (Ok (as_i16 value))
      else ret (Err (IntOverflow value 16))
  end.

Definition readInt32 : M (Result Z) :=
  result <- readInt64 ;;
  match result with
  | Err e => ret (Err e)
  | Ok value =>
      if (value <=? as_i64 i32_MAX_VALUE) && (value >=? as_i64 i32_MIN_VALUE)
      then ret (Ok (as_i32 value))
      else ret (Err (IntOverflow value 32))
  end.

Definition readUInt64 : M (Result Z) :=
  prefix <- Reader.getUint8 ;;
  if isFixedInt prefix then ret (Ok (as_u64 prefix))
  else if isNegativeFixedInt prefix then
    ret (Err (BadUnsignedIntPrefix prefix))
  else if prefix =? Format.UINT8 then
    v <- Reader.getUint8 ;; ret (Ok (as_u64 v))
  else if prefix =? Format.UINT16 then
    v <- Reader.getUint16 ;; ret (Ok (as_u64 v))
  else if prefix =? Format.UINT32 then
    v <- Reader.getUint32 ;; ret (Ok (as_u64 v))
  else if prefix =? Format.UINT64 then
    v <- Reader.getUint64 ;; ret (Ok v)
  else if prefix =? Format.INT8 then
    value <- Reader.getInt8 ;;
    if value >=? 0 then ret (Ok (as_u64 value))
    else ret (Err (IntUnderflow value))
  else if prefix =? Format.INT16 then
    value <- Reader.getInt16 ;;
    if value >=? 0 then ret (Ok (as_u64 value))
    else ret (Err (IntUnderflow value))
  else if prefix =? Format.INT32 then
    value <- Reader.getInt32 ;;
    if value >=? 0 then ret (Ok (as_u64 value))
    else ret (Err (IntUnderflow value))
  else if prefix =? Format.INT64 then
    value <- Reader.getInt64 ;;
    if value >=? 0 then ret (Ok (as_u64 value))
    else ret (Err (IntUnderflow value))
  else ret (Err (BadUnsignedIntPrefix prefix)).

Definition readUInt8 : M (Result Z) :=
  result <- readUInt64 ;;
  match result with
  | Err e => ret (Err e)
  | Ok value =>
      if value <=? as_u64 u8_MAX_VALUE then ret (Ok (as_u8 value))
      else ret (Err (UnsignedIntOverflow value 8))
  end.

Definition readUInt16 : M (Result Z) :=
  result <- readUInt64 ;;
  match result with
  | Err e => ret (Err e)
  | Ok value =>
      if value <=? as_u64 u16_MAX_VALUE then ret (Ok (as_u16 value))
      else ret (Err (UnsignedIntOverflow value 16))
  end.

Definition readUInt32 : M (Result Z) :=
  result <- readUInt64 ;;
  match result with
  | Err e => ret (Err e)
  | Ok value =>
      if value <=? as_u64 u32_MAX_VALUE then ret (Ok (as_u32 value))
      else ret (Err (UnsignedIntOverflow value 32))
  end.

Section Floats.
Context {F : FloatOps}.

Definition getFloat32 : M Z :=
  bs <- Reader.take "getFloat32" 4 ;; ret (be_uint bs).
Definition getFloat64 : M Z :=
  bs <- Reader.take "getFloat64" 8 ;; ret (be_uint bs).

Definition readFloat32 : M (Result Z) :=
  prefix <- Reader.getUint8 ;;
  if isFloat32 prefix then
    v <- getFloat32 ;; ret (Ok v)
  else if isFloat64 prefix then
    value <- getFloat64 ;;
    let diff := f64_sub (f64_of_f32 f32_MAX_VALUE) value in
    if f64_le (f64_abs diff) (f64_of_f32 f32_EPSILON)
    then ret (Ok f32_MAX_VALUE)
    else if f64_lt diff f64_zero then ret (Err (FloatTooLarge value))
    else ret (Ok (f32_of_f64 value))
  else ret (Err (BadFloatPrefix prefix)).

Definition readFloat64 : M (Result Z) :=
  prefix <- Reader.getUint8 ;;
  if isFloat64 prefix then
    v <- getFloat64 ;; ret (Ok v)
  else if isFloat32 prefix then
    v <- getFloat32 ;; ret (Ok (f64_of_f32 v))
  else ret (Err (BadFloatPrefix prefix)).
End Floats.

(** *** Strings, binary data and container headers *)

Definition readStringLength : M (Result Z) :=
  leadByte <- Reader.getUint8 ;;
  if isFixedString leadByte then ret (Ok (Z.land leadByte 0x1f))
  else if isFixedArray leadByte then
    ret (Ok (as_u32 (Z.land leadByte Format.FOUR_LEAST_SIG_BITS_IN_BYTE)))
  else if leadByte =? Format.STR8 then
    n <- Reader.getUint8 ;; ret (Ok (as_u32 n))
  else if leadByte =? Format.STR16 then
    n <- Reader.getUint16 ;; ret (Ok (as_u32 n))
  else if leadByte =? Format.STR32 then
    n <- Reader.getUint32 ;; ret (Ok n)
  else ret (Err (BadLengthPrefix leadByte)).

Section Strings.
Context {S : StringOps}.

Definition readString : M (Result text) :=
  result <- readStringLength ;;
  match result with
  | Err e => ret (Err e)
  | Ok strLen =>
      stringBytes <- Reader.getBytes strLen ;;
      ret (Ok (String_UTF8_decode stringBytes))
  end.

End Strings.

Definition readBinLength : M (Result Z) :=
  nil <- isNextNil ;;
  if nil then ret (Ok 0)
  else
    leadByte <- Reader.getUint8 ;;
    if isFixedArray leadByte then
      ret (Ok (as_u32 (Z.land leadByte Format.FOUR_LEAST_SIG_BITS_IN_BYTE)))
    else if leadByte =? Format.BIN8 then
      n <- Reader.getUint8 ;; ret (Ok (as_u32 n))
    else if leadByte =? Format.BIN16 then
      n <- Reader.getUint16 ;; ret (Ok (as_u32 n))
    else if leadByte =? Format.BIN32 then
      n <- Reader.getUint32 ;; ret (Ok n)
    else ret (Err (BadLengthPrefix leadByte)).

Definition readByteArray : M (Result (list byte)) :=
  result <- readBinLength ;;
  match result with
  | Err e => ret (Err e)
  | Ok arrLength =>
      arrBytes <- Reader.getBytes arrLength ;; ret (Ok arrBytes)
  end.

Definition readArraySize : M (Result Z) :=
  leadByte <- Reader.getUint8 ;;
  if isFixedArray leadByte then
    ret (Ok (as_u32 (Z.land leadByte Format.FOUR_LEAST_SIG_BITS_IN_BYTE)))
  else if leadByte =? Format.ARRAY16 then
    n <- Reader.getUint16 ;; ret (Ok (as_u32 n))
  else if leadByte =? Format.ARRAY32 then
    n <- Reader.getUint32 ;; ret (Ok n)
  else if leadByte =? Format.NIL then ret (Ok 0)
  else ret (Err (BadLengthPrefix leadByte)).

Definition readMapSize : M (Result Z) :=
  leadByte <- Reader.getUint8 ;;
  if isFixedMap leadByte then
    ret (Ok (as_u32 (Z.land leadByte Format.FOUR_LEAST_SIG_BITS_IN_BYTE)))
  else if leadByte =? Format.MAP16 then
    n <- Reader.getUint16 ;; ret (Ok (as_u32 n))
  else if leadByte =? Format.MAP32 then
    n <- Reader.getUint32 ;; ret (Ok n)
  else ret (Err (BadLengthPrefix leadByte)).

(** *** Structural skip *)

(** [i32] multiplication wraps. *)
Definition i32_mul (a b : Z) : Z := as_i32 (a * b).

Definition getSize : M Z :=
  leadByte <- Reader.getUint8 ;;
  if isNegativeFixedInt leadByte then ret 0
  else if isFixedInt leadByte then ret 0
  else if isFixedString leadByte then
    let strLength := Z.land leadByte 0x1f in
    Reader.discard strLength ;;; ret 0
  else if isFixedArray leadByte then
    ret (as_i32 (Z.land leadByte Format.FOUR_LEAST_SIG_BITS_IN_BYTE))
  else if isFixedMap leadByte then
    ret (i32_mul 2 (as_i32 (Z.land leadByte Format.FOUR_LEAST_SIG_BITS_IN_BYTE)))
  else if leadByte =? Format.NIL then ret 0
  else if leadByte =? Format.TRUE then ret 0
  else if leadByte =? Format.FALSE then ret 0
  else if leadByte =? Format.BIN8 then
    n <- Reader.getUint8 ;; Reader.discard (as_i32 n) ;;; ret 0
  else if leadByte =? Format.BIN16 then
    n <- Reader.getUint16 ;; Reader.discard (as_i32 n) ;;; ret 0
  else if leadByte =? Format.BIN32 then
    n <- Reader.getUint32 ;; Reader.discard (as_i32 n) ;;; ret 0
  else if leadByte =? Format.FLOAT32 then Reader.discard 4 ;;; ret 0
  else if leadByte =? Format.FLOAT64 then Reader.discard 8 ;;; ret 0
  else if leadByte =? Format.UINT8 then Reader.discard 1 ;;; ret 0
  else if leadByte =? Format.UINT16 then Reader.discard 2 ;;; ret 0
  else if leadByte =? Format.UINT32 then Reader.discard 4 ;;; ret 0
  else if leadByte =? Format.UINT64 then Reader.discard 8 ;;; ret 0
  else if leadByte =? Format.INT8 then Reader.discard 1 ;;; ret 0
  else if leadByte =? Format.INT16 then Reader.discard 2 ;;; ret 0
  else if leadByte =? Format.INT32 then Reader.discard 4 ;;; ret 0
  else if leadByte =? Format.INT64 then Reader.discard 8 ;;; ret 0
  else if leadByte =? Format.FIXEXT1 then Reader.discard 2 ;;; ret 0
  else if leadByte =? Format.FIXEXT2 then Reader.discard 3 ;;; ret 0
  else if leadByte =? Format.FIXEXT4 then Reader.discard 5 ;;; ret 0
  else if leadByte =? Format.FIXEXT8 then Reader.discard 9 ;;; ret 0
  else if leadByte =? Format.FIXEXT16 then Reader.discard 17 ;;; ret 0
  else if leadByte =? Format.STR8 then
    n <- Reader.getUint8 ;; Reader.discard (as_i32 n) ;;; ret 0
  else if leadByte =? Format.STR16 then
    n <- Reader.getUint16 ;; Reader.discard (as_i32 n) ;;; ret 0
  else if leadByte =? Format.STR32 then
    n <- Reader.getUint32 ;; Reader.discard (as_i32 n) ;;; ret 0
  else if leadByte =? Format.ARRAY16 then
    n <- Reader.getUint16 ;; ret (as_i32 n)
  else if leadByte =? Format.ARRAY32 then
    n <- Reader.getUint32 ;; ret (as_i32 n)
  else if leadByte =? Format.MAP16 then
    n <- Reader.getUint16 ;; ret (i32_mul 2 (as_i32 n))
  else if leadByte =? Format.MAP32 then
    n <- Reader.getUint32 ;; ret (i32_mul 2 (as_i32 n))
  else throw (InvalidPrefix leadByte).

(** [skip] calls itself once per child.  The recursion is on a fuel
    argument: [None] means the fuel ran out, [Some o] is the outcome of
    the call.  [skip_loop] is the [while] loop of [skip], with the number
    of objects still to discard. *)
Fixpoint skip (fuel : nat) (r : DataReader) : option (outcome unit) :=
  match fuel with
  | O => None
  | S fuel' =>
      match getSize r with
      | Thrown e r' => Some (Thrown e r')
      | Done numberOfObjectsToDiscard r' =>
          skip_loop fuel' numberOfObjectsToDiscard r'
      end
  end
with skip_loop (fuel : nat) (numberOfObjectsToDiscard : Z) (r : DataReader)
  : option (outcome unit) :=
  if numberOfObjectsToDiscard >? 0 then
    match fuel with
    | O => None
    | S fuel' =>
        match skip fuel' r with
        | Some (Done _ r') => skip_loop fuel' (numberOfObjectsToDiscard - 1) r'
        | other => other
        end
    end
  else Some (Done tt r).

(** *** Generic containers *)

(** An element decoder [fn(decoder, i?)]: it runs on the decoder's cursor;
    the index is an optional argument. *)
Definition ElementFn (T : Type) : Type := option Z -> M (Result T).

(** The [for] loop of [readArray]: [todo] iterations remain, [i] is the
    loop index and [a] the array built so far. *)
Fixpoint readArray_loop {T} (fn : ElementFn T) (todo : nat) (i : Z)
  (a : list T) : M (Result (list T)) :=
  match todo with
  | O => ret (Ok a)
  | S todo' =>
      itemResult <- fn (Some i) ;;
      match itemResult with
      | Err e => ret (Err e)
      | Ok item => readArray_loop fn todo' (i + 1) (a ++ [item])
      end
  end.

Definition readArray {T} (fn : ElementFn T) : M (Result (list T)) :=
  result <- readArraySize ;;
  match result with
  | Err e => ret (Err e)
  | Ok size => readArray_loop fn (Z.to_nat size) 0 []
  end.

Definition readNullableArray {T} (fn : ElementFn T)
  : M (Result (option (list T))) :=
  nil <- isNextNil ;;
  if nil then ret (Ok None)
  else
    result <- readArray fn ;;
    match result with
    | Ok a => ret (Ok (Some a))
    | Err e => ret (Err e)
    end.

(** A [Map<K, V>] keeps its entries in insertion order; [set] on a key
    that is present replaces the value in place. *)
Fixpoint map_set {K V} (eqb : K -> K -> bool) (m : list (K * V)) (k : K)
  (v : V) : list (K * V) :=
  match m with
  | [] => [(k, v)]
  | (k', v') :: m' =>
      if eqb k' k then (k', v) :: m' else (k', v') :: map_set eqb m' k v
  end.

Fixpoint readMap_loop {K V} (eqb : K -> K -> bool) (keyFn : ElementFn K)
  (valueFn : ElementFn V) (todo : nat) (i : Z) (m : list (K * V))
  : M (Result (list (K * V))) :=
  match todo with
  | O => ret (Ok m)
  | S todo' =>
      keyResult <- keyFn (Some i) ;;
      match keyResult with
      | Err e => ret (Err e)
      | Ok key =>
          valueResult <- valueFn (Some i) ;;
          match valueResult with
          | Err e => ret (Err e)
          | Ok value =>
              readMap_loop eqb keyFn valueFn todo' (i + 1)
                (map_set eqb m key value)
          end
      end
  end.

Definition readMap {K V} (eqb : K -> K -> bool) (keyFn : ElementFn K)
  (valueFn : ElementFn V) : M (Result (list (K * V))) :=
  result <- readMapSize ;;
  match result with
  | Err e => ret (Err e)
  | Ok size => readMap_loop eqb keyFn valueFn (Z.to_nat size) 0 []
  end.

Definition readNullableMap {K V} (eqb : K -> K -> bool) (keyFn : ElementFn K)
  (valueFn : ElementFn V) : M (Result (option (list (K * V)))) :=
  nil <- isNextNil ;;
  if nil then ret (Ok None)
  else
    result <- readMap eqb keyFn valueFn ;;
    match result with
    | Ok m => ret (Ok (Some m))
    | Err e => ret (Err e)
    end.

End SafeDecoder.

(** ** The unwrapping facade *)

Module Decoder.

Definition isNextNil : M bool := SafeDecoder.isNextNil.

Definition readInt64 : M Z :=
  result <- SafeDecoder.readInt64 ;; unwrap result.

Definition readArraySize : M Z :=
  result <- SafeDecoder.readArraySize ;; unwrap result.

Definition readMapSize : M Z :=
  result <- SafeDecoder.readMapSize ;; unwrap result.

(** An element decoder of the facade returns the value itself. *)
Definition ElementFn (T : Type) : Type := option Z -> M T.

(** The loop of [readArray] calls [fn(this)]: the index is not passed. *)
Fixpoint readArray_loop {T} (fn : ElementFn T) (todo : nat) (i : Z)
  (a : list T) : M (list T) :=
  match todo with
  | O => ret a
  | S todo' =>
      item <- fn None ;;
      readArray_loop fn todo' (i + 1) (a ++ [item])
  end.

Definition readArray {T} (fn : ElementFn T) : M (list T) :=
  size <- readArraySize ;;
  readArray_loop fn (Z.to_nat size) 0 [].

Fixpoint readMap_loop {K V} (eqb : K -> K -> bool) (keyFn : ElementFn K)
  (valueFn : ElementFn V) (todo : nat) (i : Z) (m : list (K * V))
  : M (list (K * V)) :=
  match todo with
  | O => ret m
  | S todo' =>
      key <- keyFn (Some i) ;;
      value <- valueFn (Some i) ;;
      readMap_loop eqb keyFn valueFn todo' (i + 1)
        (SafeDecoder.map_set eqb m key value)
  end.

Definition readMap {K V} (eqb : K -> K -> bool) (keyFn : ElementFn K)
  (valueFn : ElementFn V) : M (list (K * V)) :=
  size <- readMapSize ;;
  readMap_loop eqb keyFn valueFn (Z.to_nat size) 0 [].

(** The other readers of the facade: the fallible read, unwrapped. *)
Definition readBool : M bool :=
  result <- SafeDecoder.readBool ;; unwrap result.

Definition readInt8 : M Z :=
  result <- SafeDecoder.readInt8 ;; unwrap result.

Definition readInt16 : M Z :=
  result <- SafeDecoder.readInt16 ;; unwrap result.

Definition readInt32 : M Z :=
  result <- SafeDecoder.readInt32 ;; unwrap result.

Definition readUInt8 : M Z :=
  result <- SafeDecoder.readUInt8 ;; unwrap result.

Definition readUInt16 : M Z :=
  result <- SafeDecoder.readUInt16 ;; unwrap result.

Definition readUInt32 : M Z :=
  result <- SafeDecoder.readUInt32 ;; unwrap result.

Definition readUInt64 : M Z :=
  result <- SafeDecoder.readUInt64 ;; unwrap result.

Section Floats.
Context {F : FloatOps}.

Definition readFloat32 : M Z :=
  result <- SafeDecoder.readFloat32 ;; unwrap result.

Definition readFloat64 : M Z :=
  result <- SafeDecoder.readFloat64 ;; unwrap result.

End Floats.

Section Strings.
Context {S : StringOps}.

Definition readString : M text :=
  result <- SafeDecoder.readString ;; unwrap result.

End Strings.

Definition readStringLength : M Z :=
  result <- SafeDecoder.readStringLength ;; unwrap result.

Definition readBinLength : M Z :=
  result <- SafeDecoder.readBinLength ;; unwrap result.

Definition readByteArray : M (list byte) :=
  result <- SafeDecoder.readByteArray ;; unwrap result.

Definition readNullableArray {T} (fn : ElementFn T) : M (option (list T)) :=
  nil <- isNextNil ;;
  if nil then ret None
  else a <- readArray fn ;; ret (Some a).

Definition readNullableMap {K V} (eqb : K -> K -> bool) (keyFn : ElementFn K)
  (valueFn : ElementFn V) : M (option (list (K * V))) :=
  nil <- isNextNil ;;
  if nil then ret None
  else m <- readMap eqb keyFn valueFn ;; ret (Some m).

(** [getSize(): u32] returns the [i32] of the decoder. *)
Definition getSize : M Z :=
  n <- SafeDecoder.getSize ;; ret (as_u32 n).

Definition skip (fuel : nat) (r : DataReader) : option (outcome unit) :=
  SafeDecoder.skip fuel r.

End Decoder.

(** ** The wire format *)

(** Modelled from the spec: the encoder (the symmetric writer) is an
    external collaborator of the decoder.  An encoded value
    is described by its syntax on the wire: the tag table of the
    external-interfaces section, the fixed-range families of the tag
    classifier and the fixed-extension payload widths of the structural
    skip.  A leaf is a lead byte, the length prefix its tag calls for, and
    a payload of raw bytes; a container is a header followed by the
    encodings of its children. *)
Inductive leaf : Type :=
| LNil | LTrue | LFalse
| LFixInt (n : Z)
| LNegFixInt (n : Z)
| LFloat32 | LFloat64
| LUint8 | LUint16 | LUint32 | LUint64
| LInt8 | LInt16 | LInt32 | LInt64
| LFixExt1 | LFixExt2 | LFixExt4 | LFixExt8 | LFixExt16
| LFixStr | LStr8 | LStr16 | LStr32
| LBin8 | LBin16 | LBin32.

Inductive arr_form : Type := FixArr | Arr16 | Arr32.
Inductive map_form : Type := FixMap | Map16 | Map32.

#[warnings="-register-all"]
Inductive msg : Type :=
| Leaf (t : leaf) (payload : list byte)
| Arr (f : arr_form) (elems : list msg)
| Map (f : map_form) (pairs : list (msg * msg)).

Definition len (bs : list byte) : Z := Z.of_nat (List.length bs).

(** Lead byte and length prefix of a leaf with the given payload. *)
Definition leaf_header (t : leaf) (payload : list byte) : list byte :=
  match t with
  | LNil => [byte_of_Z Format.NIL]
  | LTrue => [byte_of_Z Format.TRUE]
  | LFalse => [byte_of_Z Format.FALSE]
  | LFixInt n => [byte_of_Z n]
  | LNegFixInt n => [byte_of_Z (256 + n)]
  | LFloat32 => [byte_of_Z Format.FLOAT32]
  | LFloat64 => [byte_of_Z Format.FLOAT64]
  | LUint8 => [byte_of_Z Format.UINT8]
  | LUint16 => [byte_of_Z Format.UINT16]
  | LUint32 => [byte_of_Z Format.UINT32]
  | LUint64 => [byte_of_Z Format.UINT64]
  | LInt8 => [byte_of_Z Format.INT8]
  | LInt16 => [byte_of_Z Format.INT16]
  | LInt32 => [byte_of_Z Format.INT32]
  | LInt64 => [byte_of_Z Format.INT64]
  | LFixExt1 => [byte_of_Z Format.FIXEXT1]
  | LFixExt2 => [byte_of_Z Format.FIXEXT2]
  | LFixExt4 => [byte_of_Z Format.FIXEXT4]
  | LFixExt8 => [byte_of_Z Format.FIXEXT8]
  | LFixExt16 => [byte_of_Z Format.FIXEXT16]
  | LFixStr => [byte_of_Z (Format.FIXSTR + len payload)]
  | LStr8 => byte_of_Z Format.STR8 :: be_bytes 1 (len payload)
  | LStr16 => byte_of_Z Format.STR16 :: be_bytes 2 (len payload)
  | LStr32 => byte_of_Z Format.STR32 :: be_bytes 4 (len payload)
  | LBin8 => byte_of_Z Format.BIN8 :: be_bytes 1 (len payload)
  | LBin16 => byte_of_Z Format.BIN16 :: be_bytes 2 (len payload)
  | LBin32 => byte_of_Z Format.BIN32 :: be_bytes 4 (len payload)
  end.

(** The payload a leaf tag admits: none for the single-byte values, a
    fixed width for the sized scalars and the fixed extensions (type byte
    included), a length that fits the prefix for strings and binary
    data. *)
Definition leaf_wf (t : leaf) (payload : list byte) : bool :=
  match t with
  | LNil | LTrue | LFalse => len payload =? 0
  | LFixInt n => (0 <=? n) && (n <? 128) && (len payload =? 0)
  | LNegFixInt n => (-32 <=? n) && (n <? 0) && (len payload =? 0)
  | LUint8 | LInt8 => len payload =? 1
  | LUint16 | LInt16 => len payload =? 2
  | LFloat32 | LUint32 | LInt32 => len payload =? 4
  | LFloat64 | LUint64 | LInt64 => len payload =? 8
  | LFixExt1 => len payload =? 2
  | LFixExt2 => len payload =? 3
  | LFixExt4 => len payload =? 5
  | LFixExt8 => len payload =? 9
  | LFixExt16 => len payload =? 17
  | LFixStr => len payload <? 32
  | LStr8 | LBin8 => len payload <? 2 ^ 8
  | LStr16 | LBin16 => len payload <? 2 ^ 16
  | LStr32 | LBin32 => len payload <? 2 ^ 32
  end.

Definition arr_header (f : arr_form) (n : Z) : list byte :=
  match f with
  | FixArr => [byte_of_Z (Format.FIXARRAY + n)]
  | Arr16 => byte_of_Z Format.ARRAY16 :: be_bytes 2 n
  | Arr32 => byte_of_Z Format.ARRAY32 :: be_bytes 4 n
  end.

Definition arr_wf (f : arr_form) (n : Z) : bool :=
  match f with
  | FixArr => n <? 16
  | Arr16 => n <? 2 ^ 16
  | Arr32 => n <? 2 ^ 32
  end.

Definition map_header (f : map_form) (n : Z) : list byte :=
  match f with
  | FixMap => [byte_of_Z (Format.FIXMAP + n)]
  | Map16 => byte_of_Z Format.MAP16 :: be_bytes 2 n
  | Map32 => byte_of_Z Format.MAP32 :: be_bytes 4 n
  end.

Definition map_wf (f : map_form) (n : Z) : bool :=
  match f with
  | FixMap => n <? 16
  | Map16 => n <? 2 ^ 16
  | Map32 => n <? 2 ^ 32
  end.

Fixpoint encode (v : msg) : list byte :=
  match v with
  | Leaf t payload => leaf_header t payload ++ payload
  | Arr f elems =>
      arr_header f (Z.of_nat (List.length elems)) ++ flat_map encode elems
  | Map f pairs =>
      map_header f (Z.of_nat (List.length pairs))
        ++ flat_map (fun '(k, x) => encode k ++ encode x) pairs
  end.

Fixpoint wf (v : msg) : bool :=
  match v with
  | Leaf t payload => leaf_wf t payload
  | Arr f elems =>
      arr_wf f (Z.of_nat (List.length elems)) && forallb wf elems
  | Map f pairs =>
      map_wf f (Z.of_nat (List.length pairs))
        && forallb (fun '(k, x) => wf k && wf x) pairs
  end.

(** The child objects of a value: none for a leaf, the elements of an
    array, the keys and values of a map in the order they are encoded. *)
Definition children (v : msg) : list msg :=
  match v with
  | Leaf _ _ => []
  | Arr _ elems => elems
  | Map _ pairs => flat_map (fun '(k, x) => [k; x]) pairs
  end.

Definition children_count (v : msg) : Z :=
  match v with
  | Leaf _ _ => 0
  | Arr _ elems => Z.of_nat (List.length elems)
  | Map _ pairs => 2 * Z.of_nat (List.length pairs)
  end.

(** The bytes of a value that belong to its own tag: lead byte, length
    prefix and, for a leaf, the payload. *)
Definition own_bytes (v : msg) : list byte :=
  match v with
  | Leaf t payload => leaf_header t payload ++ payload
  | Arr f elems => arr_header f (Z.of_nat (List.length elems))
  | Map f pairs => map_header f (Z.of_nat (List.length pairs))
  end.

(** [n] arrays of one element around a value. *)
Definition nest (n : nat) (v : msg) : msg :=
  Nat.iter n (fun x => Arr FixArr [x]) v.

(** What [skip] does on one encoded value, as a property of the value. *)
Definition skips (v : msg) : Prop :=
  forall (fuel : nat) (r : DataReader) (suf : list byte),
    wf v = true ->
    Reader.remaining r = encode v ++ suf ->
    Z.of_nat (List.length (buffer r)) < 2 ^ 31 ->
    (2 * List.length (encode v) <= fuel)%nat ->
    SafeDecoder.skip fuel r
    = Some (Done tt (Reader.advance r (List.length (encode v)))).

(** A map16 of two pairs whose values are empty arrays, inside ten
    one-element arrays; a fixed extension and a str8 inside a fixmap. *)
Definition sample_map : msg :=
  Map Map16 [(Leaf (LFixInt 1) [], Arr FixArr []);
             (Leaf (LNegFixInt (-2)) [], Arr FixArr [])].

Definition sample_nested : msg := nest 10 sample_map.

Definition sample_ext : msg :=
  Map FixMap [(Leaf LFixExt1 (bytes [5; 7]), Leaf LStr8 (bytes [104; 105]))].


(** A fallible read that fails on the lead byte (a bad tag or an invalid
    length) leaves the cursor one byte further. *)
Definition consumes_rejected_tag {T} (op : M (Result T)) : Prop :=
  forall (r r' : DataReader) (e : Error),
    op r = Done (Err e) r' ->
    kind e = BadTag \/ kind e = InvalidLength ->
    r' = Reader.advance r 1.

(** A generic container read whose size does not resolve fails with the
    error of the size read, the cursor one byte further. *)
Definition fails_with_size {T} (size : M (Result Z)) (op : M (Result T))
  : Prop :=
  forall (r r' : DataReader) (e : Error),
    size r = Done (Err e) r' ->
    op r = Done (Err e) r' /\ r' = Reader.advance r 1.

(** The typed reader of the decoder that matches the tag of an encoded
    value, run at the value: it succeeds and leaves the cursor after the
    value's own bytes (for a container its header: the children are decoded
    next, one by one).  The fixed extensions have no reader in the
    decoder. *)
Definition reader_consumes (v : msg) (r : DataReader) : Prop :=
  let r' := Reader.advance r (List.length (own_bytes v)) in
  match v with
  | Leaf t p =>
      match t with
      | LNil => SafeDecoder.isNextNil r = Done true r'
      | LTrue => SafeDecoder.readBool r = Done (Ok true) r'
      | LFalse => SafeDecoder.readBool r = Done (Ok false) r'
      | LFixInt n | LNegFixInt n => SafeDecoder.readInt64 r = Done (Ok n) r'
      | LInt8 | LInt16 | LInt32 | LInt64
      | LUint8 | LUint16 | LUint32 | LUint64 =>
          exists res, SafeDecoder.readInt64 r = Done res r'
      | LFloat32 =>
          forall F : FloatOps,
            SafeDecoder.readFloat32 r = Done (Ok (be_uint p)) r'
      | LFloat64 =>
          forall F : FloatOps,
            SafeDecoder.readFloat64 r = Done (Ok (be_uint p)) r'
      | LFixStr | LStr8 | LStr16 | LStr32 =>
          forall S : StringOps,
            SafeDecoder.readString r = Done (Ok (String_UTF8_decode p)) r'
      | LBin8 | LBin16 | LBin32 =>
          SafeDecoder.readByteArray r = Done (Ok p) r'
      | LFixExt1 | LFixExt2 | LFixExt4 | LFixExt8 | LFixExt16 => True
      end
  | Arr _ elems =>
      SafeDecoder.readArraySize r
      = Done (Ok (Z.of_nat (List.length elems))) r'
  | Map _ pairs =>
      SafeDecoder.readMapSize r
      = Done (Ok (Z.of_nat (List.length pairs))) r'
  end.

(** A fallible read that fails, whatever the error, leaves the cursor
    further than it was: the bytes it has consumed stay consumed. *)
Definition cursor_not_restored {T} (op : M (Result T)) : Prop :=
  forall (r r' : DataReader) (e : Error),
    op r = Done (Err e) r' ->
    buffer r' = buffer r /\ (byteOffset r < byteOffset r')%nat.

(** The integer an integer leaf stands for: the byte itself for the fixed
    forms, the big-endian payload for the sized ones, in two's complement
    for the signed tags. *)
Definition leaf_int (t : leaf) (p : list byte) : option Z :=
  match t with
  | LFixInt n | LNegFixInt n => Some n
  | LUint8 | LUint16 | LUint32 | LUint64 => Some (be_uint p)
  | LInt8 => Some (as_i8 (be_uint p))
  | LInt16 => Some (as_i16 (be_uint p))
  | LInt32 => Some (as_i32 (be_uint p))
  | LInt64 => Some (as_i64 (be_uint p))
  | _ => None
  end.

(** The pairs [kvs] are decoded one after the other, key then value, by
    [keyFn] and [valueFn] called with the indices [i], [i + 1], ..., from
    the cursor [r] to the cursor [r']. *)
Inductive pairs_from {K V} (keyFn : SafeDecoder.ElementFn K)
  (valueFn : SafeDecoder.ElementFn V)
  : Z -> DataReader -> list (K * V) -> DataReader -> Prop :=
| pairs_nil (i : Z) (r : DataReader) : pairs_from keyFn valueFn i r [] r
| pairs_cons (i : Z) (r r1 r2 r3 : DataReader) (k : K) (x : V)
    (kvs : list (K * V)) :
    keyFn (Some i) r = Done (Ok k) r1 ->
    valueFn (Some i) r1 = Done (Ok x) r2 ->
    pairs_from keyFn valueFn (i + 1) r2 kvs r3 ->
    pairs_from keyFn valueFn i r ((k, x) :: kvs) r3.

(** The map built by [set] on the pairs, in order, from the map [m]. *)
Definition map_of_pairs {K V} (eqb : K -> K -> bool) (m : list (K * V))
  (kvs : list (K * V)) : list (K * V) :=
  fold_left (fun acc kv => SafeDecoder.map_set eqb acc (fst kv) (snd kv))
    kvs m.

(** [Map.get]: the value stored under a key. *)
Fixpoint map_get {K V} (eqb : K -> K -> bool) (m : list (K * V)) (k : K)
  : option V :=
  match m with
  | [] => None
  | (k', v) :: m' => if eqb k' k then Some v else map_get eqb m' k
  end.

(** The last value paired with [k] in a list of pairs. *)
Fixpoint last_value {K V} (eqb : K -> K -> bool) (kvs : list (K * V))
  (k : K) : option V :=
  match kvs with
  | [] => None
  | (k', v) :: kvs' =>
      match last_value eqb kvs' k with
      | Some v' => Some v'
      | None => if eqb k' k then Some v else None
      end
  end.

(** A fallible element decoder used through the facade: its failure is
    unwrapped into an abort. *)
Definition unwrapped {T} (fn : SafeDecoder.ElementFn T)
  : Decoder.ElementFn T :=
  fun i => result <- fn i ;; unwrap result.

(** The cursor went from [r] to [r'] over the bytes [h]: they are the
    bytes that remained at [r], up to those that remain at [r']. *)
Definition consumed (r r' : DataReader) (h : list byte) : Prop :=
  Reader.remaining r = h ++ Reader.remaining r'
  /\ r' = Reader.advance r (List.length h).

(** A read that only ever consumes bytes that remain: whether it returns or
    throws, it leaves the cursor on the same buffer, not before where it
    was and not past the last byte it could read. *)
Definition prefix_reader {A} (c : M A) : Prop :=
  forall r : DataReader,
    exists h : list byte,
      match c r with
      | Done _ r' => consumed r r' h
      | Thrown _ r' => consumed r r' h
      end.

(** A read that consumes the byte at the cursor whatever it does next: on
    a buffer that holds a byte [b] at the cursor, whether the read returns
    a value, returns an error or throws, the cursor has moved over [b] and
    a prefix of the bytes after it. *)
Definition consumes_lead_byte {A} (op : M A) : Prop :=
  forall (r : DataReader) (b : byte) (rest : list byte),
    Reader.remaining r = b :: rest ->
    exists h : list byte,
      match op r with
      | Done _ r' => consumed r r' (b :: h)
      | Thrown _ r' => consumed r r' (b :: h)
      end.

(** The lead bytes that pass the tag test of a read: of [readBool], of the
    signed and of the unsigned integer reads, of the float reads, of the
    string, binary, array and map reads. *)
Definition bool_tags (p : Z) : bool := (p =? 0xc2) || (p =? 0xc3).
Definition int_tags (p : Z) : bool :=
  (p <? 0x80) || (0xe0 <=? p) || (0xcc <=? p) && (p <=? 0xd3).
Definition uint_tags (p : Z) : bool :=
  (p <? 0x80) || (0xcc <=? p) && (p <=? 0xd3).
Definition float_tags (p : Z) : bool := (p =? 0xca) || (p =? 0xcb).
Definition string_tags (p : Z) : bool :=
  (0x90 <=? p) && (p <=? 0xbf) || (0xd9 <=? p) && (p <=? 0xdb).
Definition bin_tags (p : Z) : bool :=
  (0x90 <=? p) && (p <=? 0x9f) || (0xc4 <=? p) && (p <=? 0xc6)
  || (p =? 0xc0).
Definition array_tags (p : Z) : bool :=
  (0x90 <=? p) && (p <=? 0x9f) || (p =? 0xdc) || (p =? 0xdd)
  || (p =? 0xc0).
Definition map_tags (p : Z) : bool :=
  (0x80 <=? p) && (p <=? 0x8f) || (p =? 0xde) || (p =? 0xdf).

(** A fallible read that rejects every lead byte outside [accepted]: on
    such a byte, whatever follows it, the read returns the error [err] of
    the byte and leaves the cursor one byte further. *)
Definition rejects_lead_byte {T} (op : M (Result T)) (accepted : Z -> bool)
  (err : Z -> Error) : Prop :=
  forall (r : DataReader) (b : byte) (rest : list byte),
    Reader.remaining r = b :: rest ->
    accepted (Z_of_byte b) = false ->
    op r = Done (Err (err (Z_of_byte b))) (Reader.advance r 1).

(** The payload a sized integer tag is followed by: its width in bytes and
    the cursor read that fetches it. *)
Definition int_payload (tag : Z) : option (nat * string) :=
  if tag =? Format.INT8 then Some (1%nat, "getInt8"%string)
  else if tag =? Format.INT16 then Some (2%nat, "getInt16"%string)
  else if tag =? Format.INT32 then Some (4%nat, "getInt32"%string)
  else if tag =? Format.INT64 then Some (8%nat, "getInt64"%string)
  else if tag =? Format.UINT8 then Some (1%nat, "getUint8"%string)
  else if tag =? Format.UINT16 then Some (2%nat, "getUint16"%string)
  else if tag =? Format.UINT32 then Some (4%nat, "getUint32"%string)
  else if tag =? Format.UINT64 then Some (8%nat, "getUint64"%string)
  else None.

(** The lead bytes [getSize] has no case for. *)
Definition unknown_prefix (p : Z) : bool :=
  (p =? 0xc1) || (p =? 0xc7) || (p =? 0xc8) || (p =? 0xc9).


(** * Properties *)

(** ** Bytes, big-endian integers and casts *)

Lemma Z_of_byte_range (b : byte) : 0 <= Z_of_byte b < 256.
Proof.
  unfold Z_of_byte. pose proof (Byte.to_N_bounded b) as H.
  split; [apply N2Z.is_nonneg|].
  apply N2Z.inj_le in H. change (Z.of_N 255) with 255 in H. lia.
Qed.

Lemma byte_of_Z_of_byte (b : byte) : byte_of_Z (Z_of_byte b) = b.
Proof.
  unfold byte_of_Z, Z_of_byte.
  rewrite Z.mod_small by apply (Z_of_byte_range b).
  rewrite N2Z.id, Byte.of_to_N. reflexivity.
Qed.

Lemma Z_of_byte_of_Z_mod (z : Z) : Z_of_byte (byte_of_Z z) = z mod 256.
Proof.
  unfold byte_of_Z, Z_of_byte.
  assert (Hr : 0 <= z mod 256 < 256) by (apply Z.mod_pos_bound; lia).
  destruct (Byte.of_N (Z.to_N (z mod 256))) as [b|] eqn:E.
  - apply Byte.to_of_N in E. rewrite E. apply Z2N.id. lia.
  - apply Byte.of_N_None_iff in E. lia.
Qed.

Lemma Z_of_byte_of_Z (z : Z) : 0 <= z < 256 -> Z_of_byte (byte_of_Z z) = z.
Proof. intros H. rewrite Z_of_byte_of_Z_mod. apply Z.mod_small, H. Qed.

Lemma be_uint_acc (bs : list byte) (acc : Z) :
  fold_left (fun a b => a * 256 + Z_of_byte b) bs acc
  = acc * 256 ^ len bs + be_uint bs.
Proof.
  unfold be_uint, len. revert acc.
  induction bs as [|b bs IH]; intros acc.
  - simpl. lia.
  - cbn [fold_left List.length]. rewrite IH, (IH (0 * 256 + Z_of_byte b)).
    rewrite Nat2Z.inj_succ, Z.pow_succ_r by lia. ring.
Qed.

Lemma be_uint_cons (b : byte) (bs : list byte) :
  be_uint (b :: bs) = Z_of_byte b * 256 ^ len bs + be_uint bs.
Proof.
  unfold be_uint at 1. cbn [fold_left]. rewrite be_uint_acc. ring.
Qed.

Lemma be_uint_single (b : byte) : be_uint [b] = Z_of_byte b.
Proof. unfold be_uint. simpl. reflexivity. Qed.

Lemma be_uint_range (bs : list byte) : 0 <= be_uint bs < 256 ^ len bs.
Proof.
  induction bs as [|b bs IH].
  - unfold be_uint, len. simpl. lia.
  - rewrite be_uint_cons. unfold len in *. cbn [List.length].
    rewrite Nat2Z.inj_succ, Z.pow_succ_r by lia.
    pose proof (Z_of_byte_range b). nia.
Qed.

Lemma be_bytes_length (w : nat) (z : Z) : List.length (be_bytes w z) = w.
Proof. induction w; simpl; congruence. Qed.

Lemma be_uint_be_bytes (w : nat) (z : Z) :
  be_uint (be_bytes w z) = z mod 2 ^ (8 * Z.of_nat w).
Proof.
  induction w as [|w IH].
  - simpl. unfold be_uint. simpl. rewrite Z.mod_1_r. reflexivity.
  - cbn [be_bytes]. rewrite be_uint_cons, IH, Z_of_byte_of_Z_mod.
    unfold len. rewrite be_bytes_length.
    replace (8 * Z.of_nat (S w)) with (8 * Z.of_nat w + 8) by lia.
    rewrite Z.pow_add_r by lia.
    replace (256 ^ Z.of_nat w) with (2 ^ (8 * Z.of_nat w))
      by (rewrite Z.pow_mul_r by lia; reflexivity).
    change (2 ^ 8) with 256.
    rewrite (Z.rem_mul_r z (2 ^ (8 * Z.of_nat w)) 256) by lia.
    ring.
Qed.

Lemma be_uint_be_bytes_small (w : nat) (z : Z) :
  0 <= z < 2 ^ (8 * Z.of_nat w) -> be_uint (be_bytes w z) = z.
Proof. intros H. rewrite be_uint_be_bytes. apply Z.mod_small, H. Qed.

Lemma as_unsigned_small (bits z : Z) :
  0 <= z < 2 ^ bits -> as_unsigned bits z = z.
Proof. intros H. apply Z.mod_small, H. Qed.

Lemma as_signed_nonneg (bits z : Z) :
  0 <= z < 2 ^ (bits - 1) -> 0 < bits -> as_signed bits z = z.
Proof.
  intros H Hb. unfold as_signed.
  assert (2 ^ bits = 2 * 2 ^ (bits - 1))
    by (rewrite <- Z.pow_succ_r by lia; f_equal; lia).
  rewrite Z.mod_small by lia.
  destruct (Z.ltb_spec z (2 ^ (bits - 1))); lia.
Qed.

Lemma as_signed_small (bits z : Z) :
  - 2 ^ (bits - 1) <= z < 2 ^ (bits - 1) -> 0 < bits -> as_signed bits z = z.
Proof.
  intros H Hb.
  destruct (Z.le_gt_cases 0 z) as [Hz|Hz]; [apply as_signed_nonneg; lia|].
  unfold as_signed.
  assert (Hp : 2 ^ bits = 2 * 2 ^ (bits - 1))
    by (rewrite <- Z.pow_succ_r by lia; f_equal; lia).
  assert (Hm : z mod 2 ^ bits = z + 2 ^ bits).
  { symmetry. apply (Z.mod_unique _ _ (-1)); lia. }
  rewrite Hm. destruct (Z.ltb_spec (z + 2 ^ bits) (2 ^ (bits - 1))); lia.
Qed.

Lemma as_signed_wrap (bits z : Z) :
  2 ^ (bits - 1) <= z < 2 ^ bits -> 0 < bits ->
  as_signed bits z = z - 2 ^ bits.
Proof.
  intros H Hb. unfold as_signed. rewrite Z.mod_small by lia.
  destruct (Z.ltb_spec z (2 ^ (bits - 1))); lia.
Qed.

(** ** The monad *)

Lemma bind_Done {A B} (c : M A) (k : A -> M B) r a r' :
  c r = Done a r' -> bind c k r = k a r'.
Proof. intros H. unfold bind. rewrite H. reflexivity. Qed.

Lemma bind_Thrown {A B} (c : M A) (k : A -> M B) r e r' :
  c r = Thrown e r' -> bind c k r = Thrown e r'.
Proof. intros H. unfold bind. rewrite H. reflexivity. Qed.

Lemma bind_inv {A B} (c : M A) (k : A -> M B) r b r2 :
  bind c k r = Done b r2 -> exists a r1, c r = Done a r1 /\ k a r1 = Done b r2.
Proof.
  unfold bind. destruct (c r) as [a r1|e r1]; intros H.
  - exists a, r1. split; [reflexivity|exact H].
  - discriminate H.
Qed.

(** ** The byte cursor *)

Lemma remaining_advance (r : DataReader) (n : nat) :
  Reader.remaining (Reader.advance r n) = skipn n (Reader.remaining r).
Proof.
  unfold Reader.remaining, Reader.advance. cbn [buffer byteOffset].
  rewrite skipn_skipn. f_equal. lia.
Qed.

Lemma remaining_advance_app (r : DataReader) (bs suf : list byte) :
  Reader.remaining r = bs ++ suf ->
  Reader.remaining (Reader.advance r (List.length bs)) = suf.
Proof.
  intros H. rewrite remaining_advance, H, skipn_app, skipn_all, Nat.sub_diag.
  reflexivity.
Qed.

Lemma advance_advance (r : DataReader) (n m : nat) :
  Reader.advance (Reader.advance r n) m = Reader.advance r (n + m).
Proof.
  unfold Reader.advance. cbn [buffer byteOffset]. f_equal. lia.
Qed.

Lemma advance_0 (r : DataReader) : Reader.advance r 0 = r.
Proof.
  destruct r as [b o]. unfold Reader.advance. cbn [buffer byteOffset].
  f_equal. lia.
Qed.

Lemma remaining_length_le (r : DataReader) :
  (List.length (Reader.remaining r) <= List.length (buffer r))%nat.
Proof. unfold Reader.remaining. rewrite length_skipn. lia. Qed.

Lemma take_at (method : string) (r : DataReader) (bs suf : list byte) :
  Reader.remaining r = bs ++ suf ->
  Reader.take method (List.length bs) r
  = Done bs (Reader.advance r (List.length bs)).
Proof.
  intros H. unfold Reader.take. rewrite H, length_app.
  destruct (Nat.leb_spec (List.length bs) (List.length bs + List.length suf));
    [|lia].
  rewrite firstn_app, Nat.sub_diag, firstn_all. cbn [firstn].
  rewrite app_nil_r. reflexivity.
Qed.

Lemma take_short (method : string) (r : DataReader) (n : nat) :
  (List.length (Reader.remaining r) < n)%nat ->
  Reader.take method n r = Thrown (BufferUnderrun method (Z.of_nat n)) r.
Proof.
  intros H. unfold Reader.take.
  destruct (Nat.leb_spec n (List.length (Reader.remaining r))); [lia|].
  reflexivity.
Qed.

Lemma peekUint8_at (r : DataReader) (b : byte) (suf : list byte) :
  Reader.remaining r = b :: suf ->
  Reader.peekUint8 r = Done (Z_of_byte b) r.
Proof. intros H. unfold Reader.peekUint8. rewrite H. reflexivity. Qed.

Lemma getUint8_at (r : DataReader) (b : byte) (suf : list byte) :
  Reader.remaining r = b :: suf ->
  Reader.getUint8 r = Done (Z_of_byte b) (Reader.advance r 1).
Proof.
  intros H. unfold Reader.getUint8.
  rewrite (bind_Done _ _ _ _ _ (take_at _ r [b] suf H)).
  unfold ret. rewrite be_uint_single. reflexivity.
Qed.

Lemma remaining_advance_1 (r : DataReader) (b : byte) (suf : list byte) :
  Reader.remaining r = b :: suf ->
  Reader.remaining (Reader.advance r 1) = suf.
Proof. intros H. apply (remaining_advance_app r [b] suf H). Qed.

Lemma getUint8_bytes_at (r : DataReader) (bs suf : list byte) :
  Reader.remaining r = bs ++ suf -> List.length bs = 1%nat ->
  Reader.getUint8 r = Done (be_uint bs) (Reader.advance r 1).
Proof.
  intros H L. unfold Reader.getUint8. rewrite <- L.
  rewrite (bind_Done _ _ _ _ _ (take_at _ r bs suf H)). reflexivity.
Qed.

Lemma getUint16_at (r : DataReader) (bs suf : list byte) :
  Reader.remaining r = bs ++ suf -> List.length bs = 2%nat ->
  Reader.getUint16 r = Done (be_uint bs) (Reader.advance r 2).
Proof.
  intros H L. unfold Reader.getUint16. rewrite <- L.
  rewrite (bind_Done _ _ _ _ _ (take_at _ r bs suf H)). reflexivity.
Qed.

Lemma getUint32_at (r : DataReader) (bs suf : list byte) :
  Reader.remaining r = bs ++ suf -> List.length bs = 4%nat ->
  Reader.getUint32 r = Done (be_uint bs) (Reader.advance r 4).
Proof.
  intros H L. unfold Reader.getUint32. rewrite <- L.
  rewrite (bind_Done _ _ _ _ _ (take_at _ r bs suf H)). reflexivity.
Qed.

Lemma getUint64_at (r : DataReader) (bs suf : list byte) :
  Reader.remaining r = bs ++ suf -> List.length bs = 8%nat ->
  Reader.getUint64 r = Done (be_uint bs) (Reader.advance r 8).
Proof.
  intros H L. unfold Reader.getUint64. rewrite <- L.
  rewrite (bind_Done _ _ _ _ _ (take_at _ r bs suf H)). reflexivity.
Qed.

Lemma getInt8_at (r : DataReader) (bs suf : list byte) :
  Reader.remaining r = bs ++ suf -> List.length bs = 1%nat ->
  Reader.getInt8 r = Done (as_i8 (be_uint bs)) (Reader.advance r 1).
Proof.
  intros H L. unfold Reader.getInt8. rewrite <- L.
  rewrite (bind_Done _ _ _ _ _ (take_at _ r bs suf H)). reflexivity.
Qed.

Lemma getInt16_at (r : DataReader) (bs suf : list byte) :
  Reader.remaining r = bs ++ suf -> List.length bs = 2%nat ->
  Reader.getInt16 r = Done (as_i16 (be_uint bs)) (Reader.advance r 2).
Proof.
  intros H L. unfold Reader.getInt16. rewrite <- L.
  rewrite (bind_Done _ _ _ _ _ (take_at _ r bs suf H)). reflexivity.
Qed.

Lemma getInt32_at (r : DataReader) (bs suf : list byte) :
  Reader.remaining r = bs ++ suf -> List.length bs = 4%nat ->
  Reader.getInt32 r = Done (as_i32 (be_uint bs)) (Reader.advance r 4).
Proof.
  intros H L. unfold Reader.getInt32. rewrite <- L.
  rewrite (bind_Done _ _ _ _ _ (take_at _ r bs suf H)). reflexivity.
Qed.

Lemma getInt64_at (r : DataReader) (bs suf : list byte) :
  Reader.remaining r = bs ++ suf -> List.length bs = 8%nat ->
  Reader.getInt64 r = Done (as_i64 (be_uint bs)) (Reader.advance r 8).
Proof.
  intros H L. unfold Reader.getInt64. rewrite <- L.
  rewrite (bind_Done _ _ _ _ _ (take_at _ r bs suf H)). reflexivity.
Qed.

Lemma getBytes_at (r : DataReader) (bs suf : list byte) :
  Reader.remaining r = bs ++ suf ->
  Reader.getBytes (len bs) r = Done bs (Reader.advance r (List.length bs)).
Proof.
  intros H. unfold Reader.getBytes, len. rewrite Nat2Z.id.
  apply (take_at _ r bs suf H).
Qed.

Lemma discard_at (r : DataReader) (bs suf : list byte) :
  Reader.remaining r = bs ++ suf ->
  Reader.discard (len bs) r = Done tt (Reader.advance r (List.length bs)).
Proof.
  intros H. unfold Reader.discard, len. rewrite H, length_app.
  destruct (Z.ltb_spec (Z.of_nat (List.length bs + List.length suf))
              (Z.of_nat (List.length bs))); [lia|].
  unfold Reader.advance. do 2 f_equal. lia.
Qed.

(** The cursor never moves when a read throws, and a read that returns
    leaves the buffer as it was. *)
Lemma take_offset (method : string) (n : nat) (r : DataReader) :
  match Reader.take method n r with
  | Done _ r' => r' = Reader.advance r n
  | Thrown _ r' => r' = r
  end.
Proof.
  unfold Reader.take.
  destruct (n <=? List.length (Reader.remaining r))%nat; reflexivity.
Qed.

(** ** The tag classifier *)

(** The five fixed-range families as intervals of the lead byte. *)
Lemma isFixedInt_byte (b : byte) :
  SafeDecoder.isFixedInt (Z_of_byte b) = (Z_of_byte b <? 0x80).
Proof. destruct b; reflexivity. Qed.

Lemma isNegativeFixedInt_byte (b : byte) :
  SafeDecoder.isNegativeFixedInt (Z_of_byte b) = (0xe0 <=? Z_of_byte b).
Proof. destruct b; reflexivity. Qed.

Lemma isFixedMap_byte (b : byte) :
  SafeDecoder.isFixedMap (Z_of_byte b)
  = (0x80 <=? Z_of_byte b) && (Z_of_byte b <? 0x90).
Proof. destruct b; reflexivity. Qed.

Lemma isFixedArray_byte (b : byte) :
  SafeDecoder.isFixedArray (Z_of_byte b)
  = (0x90 <=? Z_of_byte b) && (Z_of_byte b <? 0xa0).
Proof. destruct b; reflexivity. Qed.

Lemma isFixedString_byte (b : byte) :
  SafeDecoder.isFixedString (Z_of_byte b)
  = (0xa0 <=? Z_of_byte b) && (Z_of_byte b <? 0xc0).
Proof. destruct b; reflexivity. Qed.

Lemma land_0x0f_byte (b : byte) :
  Z.land (Z_of_byte b) 0x0f = Z_of_byte b mod 16.
Proof. destruct b; reflexivity. Qed.

Lemma land_0x1f_byte (b : byte) :
  Z.land (Z_of_byte b) 0x1f = Z_of_byte b mod 32.
Proof. destruct b; reflexivity. Qed.

(** C5. For every byte, each classifier of a fixed-range family answers
    true exactly on the family's bit pattern, which is exactly the family's
    interval of byte values, and the five families are pairwise disjoint:
    fixint is "top bit 0" (0x00-0x7f), negative fixint "top three bits 111"
    (0xe0-0xff), fixmap "top four bits 1000" (0x80-0x8f), fixarray "top
    four bits 1001" (0x90-0x9f), fixstr "top three bits 101"
    (0xa0-0xbf). *)
Theorem classifier_ranges (b : byte) :
  let u := Z_of_byte b in
  (SafeDecoder.isFixedInt u = negb (Z.testbit u 7)
   /\ SafeDecoder.isNegativeFixedInt u = (Z.shiftr u 5 =? 7)
   /\ SafeDecoder.isFixedMap u = (Z.shiftr u 4 =? 8)
   /\ SafeDecoder.isFixedArray u = (Z.shiftr u 4 =? 9)
   /\ SafeDecoder.isFixedString u = (Z.shiftr u 5 =? 5))
  /\ (SafeDecoder.isFixedInt u = (u <=? 0x7f)
      /\ SafeDecoder.isNegativeFixedInt u = (0xe0 <=? u)
      /\ SafeDecoder.isFixedMap u = (0x80 <=? u) && (u <=? 0x8f)
      /\ SafeDecoder.isFixedArray u = (0x90 <=? u) && (u <=? 0x9f)
      /\ SafeDecoder.isFixedString u = (0xa0 <=? u) && (u <=? 0xbf))
  /\ (SafeDecoder.isFixedInt u && SafeDecoder.isNegativeFixedInt u = false
      /\ SafeDecoder.isFixedInt u && SafeDecoder.isFixedMap u = false
      /\ SafeDecoder.isFixedInt u && SafeDecoder.isFixedArray u = false
      /\ SafeDecoder.isFixedInt u && SafeDecoder.isFixedString u = false
      /\ SafeDecoder.isNegativeFixedInt u && SafeDecoder.isFixedMap u = false
      /\ SafeDecoder.isNegativeFixedInt u && SafeDecoder.isFixedArray u = false
      /\ SafeDecoder.isNegativeFixedInt u && SafeDecoder.isFixedString u
         = false
      /\ SafeDecoder.isFixedMap u && SafeDecoder.isFixedArray u = false
      /\ SafeDecoder.isFixedMap u && SafeDecoder.isFixedString u = false
      /\ SafeDecoder.isFixedArray u && SafeDecoder.isFixedString u = false).
Proof.
  destruct b; vm_compute; repeat split.
Qed.

(** ** Proof automation for the readers *)

Ltac unfold_format :=
  cbv delta [Format.FIXMAP Format.FIXARRAY Format.FIXSTR Format.NIL
    Format.FALSE Format.TRUE Format.BIN8 Format.BIN16 Format.BIN32
    Format.FLOAT32 Format.FLOAT64 Format.UINT8 Format.UINT16 Format.UINT32
    Format.UINT64 Format.INT8 Format.INT16 Format.INT32 Format.INT64
    Format.FIXEXT1 Format.FIXEXT2 Format.FIXEXT4 Format.FIXEXT8
    Format.FIXEXT16 Format.STR8 Format.STR16 Format.STR32 Format.ARRAY16
    Format.ARRAY32 Format.MAP16 Format.MAP32 Format.NEGATIVE_FIXINT
    Format.FOUR_LEAST_SIG_BITS_IN_BYTE] in *.

(** Decide the tests of an [if] chain whose scrutinee is a closed term. *)
Ltac eval_tests :=
  repeat match goal with
  | |- context [if ?c then _ else _] =>
      let v := eval vm_compute in c in
      match v with
      | true => change c with true
      | false => change c with false
      end; cbv iota
  end.

(** Decide the tests of an [if] chain on a lead byte known by bounds. *)
Ltac split_tests :=
  rewrite ?isFixedInt_byte, ?isNegativeFixedInt_byte, ?isFixedMap_byte,
    ?isFixedArray_byte, ?isFixedString_byte;
  unfold SafeDecoder.isFloat32, SafeDecoder.isFloat64, SafeDecoder.isNil;
  unfold_format;
  repeat match goal with
  | |- context [if ?x <? ?y then _ else _] =>
      destruct (Z.ltb_spec x y); try lia
  | |- context [if ?x <=? ?y then _ else _] =>
      destruct (Z.leb_spec x y); try lia
  | |- context [if ?x =? ?y then _ else _] =>
      destruct (Z.eqb_spec x y); try lia
  | |- context [if (?x && ?y)%bool then _ else _] =>
      let E := fresh "E" in
      destruct (x && y)%bool eqn:E;
      [apply andb_prop in E; destruct E as [? ?]
      |apply andb_false_iff in E; destruct E as [?|?]]; try lia
  end.

(** Run the next cursor read of a [bind] with the lemma that gives its
    outcome. *)
Ltac run_read L := rewrite (bind_Done _ _ _ _ _ L).

Lemma as_signed_be_bytes (w : nat) (bits v : Z) :
  bits = 8 * Z.of_nat w -> (0 < w)%nat ->
  - 2 ^ (bits - 1) <= v < 2 ^ (bits - 1) ->
  as_signed bits (be_uint (be_bytes w v)) = v.
Proof.
  intros -> Hw Hv. rewrite be_uint_be_bytes. unfold as_signed.
  rewrite Z.mod_mod by (apply Z.pow_nonzero; lia).
  apply (as_signed_small (8 * Z.of_nat w) v Hv). lia.
Qed.

(** ** The canonical 64-bit readers *)

(** C2. [readInt64] on a buffer whose next byte is [b]: a fixint returns
    the byte, a negative fixint the byte read as a signed 8-bit value; an
    int8/16/32/64 or uint8/16/32 tag followed by the big-endian encoding
    of [v] returns [v]; a uint64 tag followed by the encoding of [v]
    returns [v] when [v] is at most the signed 64-bit maximum and an
    overflow error otherwise; every other lead byte gives a bad-tag
    error.  (For instance the byte 0x05 decodes to 5.) *)
Theorem readInt64_spec (r : DataReader) (b : byte) (rest : list byte) :
  Reader.remaining r = b :: rest ->
  let p := Z_of_byte b in
  (p <= 0x7f ->
   SafeDecoder.readInt64 r = Done (Ok p) (Reader.advance r 1))
  /\ (0xe0 <= p ->
      SafeDecoder.readInt64 r = Done (Ok (p - 256)) (Reader.advance r 1))
  /\ (forall v suf, p = Format.INT8 -> - 2 ^ 7 <= v < 2 ^ 7 ->
      rest = be_bytes 1 v ++ suf ->
      SafeDecoder.readInt64 r = Done (Ok v) (Reader.advance r 2))
  /\ (forall v suf, p = Format.INT16 -> - 2 ^ 15 <= v < 2 ^ 15 ->
      rest = be_bytes 2 v ++ suf ->
      SafeDecoder.readInt64 r = Done (Ok v) (Reader.advance r 3))
  /\ (forall v suf, p = Format.INT32 -> - 2 ^ 31 <= v < 2 ^ 31 ->
      rest = be_bytes 4 v ++ suf ->
      SafeDecoder.readInt64 r = Done (Ok v) (Reader.advance r 5))
  /\ (forall v suf, p = Format.INT64 -> - 2 ^ 63 <= v < 2 ^ 63 ->
      rest = be_bytes 8 v ++ suf ->
      SafeDecoder.readInt64 r = Done (Ok v) (Reader.advance r 9))
  /\ (forall v suf, p = Format.UINT8 -> 0 <= v < 2 ^ 8 ->
      rest = be_bytes 1 v ++ suf ->
      SafeDecoder.readInt64 r = Done (Ok v) (Reader.advance r 2))
  /\ (forall v suf, p = Format.UINT16 -> 0 <= v < 2 ^ 16 ->
      rest = be_bytes 2 v ++ suf ->
      SafeDecoder.readInt64 r = Done (Ok v) (Reader.advance r 3))
  /\ (forall v suf, p = Format.UINT32 -> 0 <= v < 2 ^ 32 ->
      rest = be_bytes 4 v ++ suf ->
      SafeDecoder.readInt64 r = Done (Ok v) (Reader.advance r 5))
  /\ (forall v suf, p = Format.UINT64 -> 0 <= v < 2 ^ 64 ->
      rest = be_bytes 8 v ++ suf ->
      (v <= i64_MAX_VALUE ->
       SafeDecoder.readInt64 r = Done (Ok v) (Reader.advance r 9))
      /\ (i64_MAX_VALUE < v ->
          SafeDecoder.readInt64 r
          = Done (Err (IntOverflow v 64)) (Reader.advance r 9)
          /\ kind (IntOverflow v 64) = IntegerOverflow))
  /\ (0x80 <= p < 0xe0 -> ~ (Format.UINT8 <= p <= Format.INT64) ->
      SafeDecoder.readInt64 r
      = Done (Err (BadIntPrefix p)) (Reader.advance r 1)
      /\ kind (BadIntPrefix p) = BadTag).
Proof.
  intros H p. subst p.
  pose proof (Z_of_byte_range b) as Hb.
  pose proof (remaining_advance_1 _ _ _ H) as H1.
  unfold SafeDecoder.readInt64. run_read (getUint8_at _ _ _ H).
  repeat match goal with |- _ /\ _ => split end.
  - intros Hp. split_tests. unfold ret, as_i64.
    rewrite as_signed_nonneg by lia. reflexivity.
  - intros Hp. split_tests. unfold ret, as_i64, as_i8.
    rewrite (as_signed_wrap 8) by lia.
    rewrite as_signed_small by lia. reflexivity.
  - intros v suf Hp Hv ->. rewrite Hp. eval_tests.
    run_read (getInt8_at _ _ _ H1 (be_bytes_length _ _)).
    unfold ret, as_i8, as_i64. rewrite advance_advance.
    rewrite (as_signed_be_bytes 1 8 v) by (reflexivity || lia).
    rewrite as_signed_small by lia. reflexivity.
  - intros v suf Hp Hv ->. rewrite Hp. eval_tests.
    run_read (getInt16_at _ _ _ H1 (be_bytes_length _ _)).
    unfold ret, as_i16, as_i64. rewrite advance_advance.
    rewrite (as_signed_be_bytes 2 16 v) by (reflexivity || lia).
    rewrite as_signed_small by lia. reflexivity.
  - intros v suf Hp Hv ->. rewrite Hp. eval_tests.
    run_read (getInt32_at _ _ _ H1 (be_bytes_length _ _)).
    unfold ret, as_i32, as_i64. rewrite advance_advance.
    rewrite (as_signed_be_bytes 4 32 v) by (reflexivity || lia).
    rewrite as_signed_small by lia. reflexivity.
  - intros v suf Hp Hv ->. rewrite Hp. eval_tests.
    run_read (getInt64_at _ _ _ H1 (be_bytes_length _ _)).
    unfold ret, as_i64. rewrite advance_advance.
    rewrite (as_signed_be_bytes 8 64 v) by (reflexivity || lia).
    reflexivity.
  - intros v suf Hp Hv ->. rewrite Hp. eval_tests.
    run_read (getUint8_bytes_at _ _ _ H1 (be_bytes_length _ _)).
    unfold ret, as_i64. rewrite advance_advance.
    rewrite (be_uint_be_bytes_small 1 v) by exact Hv.
    rewrite as_signed_nonneg by lia. reflexivity.
  - intros v suf Hp Hv ->. rewrite Hp. eval_tests.
    run_read (getUint16_at _ _ _ H1 (be_bytes_length _ _)).
    unfold ret, as_i64. rewrite advance_advance.
    rewrite (be_uint_be_bytes_small 2 v) by exact Hv.
    rewrite as_signed_nonneg by lia. reflexivity.
  - intros v suf Hp Hv ->. rewrite Hp. eval_tests.
    run_read (getUint32_at _ _ _ H1 (be_bytes_length _ _)).
    unfold ret, as_i64. rewrite advance_advance.
    rewrite (be_uint_be_bytes_small 4 v) by exact Hv.
    rewrite as_signed_nonneg by lia. reflexivity.
  - intros v suf Hp Hv ->. rewrite Hp. eval_tests.
    run_read (getUint64_at _ _ _ H1 (be_bytes_length _ _)).
    rewrite advance_advance.
    rewrite (be_uint_be_bytes_small 8 v) by exact Hv.
    change (as_u64 i64_MAX_VALUE) with i64_MAX_VALUE.
    unfold i64_MAX_VALUE, ret, as_i64. split; intros Hm.
    + destruct (Z.leb_spec v 9223372036854775807); [|lia].
      rewrite as_signed_nonneg by lia. reflexivity.
    + destruct (Z.leb_spec v 9223372036854775807); [lia|].
      split; reflexivity.
  - intros Hp Hn. split; [|reflexivity]. split_tests. reflexivity.
Qed.

(** The byte 0x05 decodes to 5, and a uint64 above the signed maximum
    is an overflow. *)
Lemma readInt64_spec_witness :
  Reader.remaining (Reader.create (bytes [0x05])) = byte_of_Z 0x05 :: []
  /\ SafeDecoder.readInt64 (Reader.create (bytes [0x05]))
     = Done (Ok 5) (Reader.advance (Reader.create (bytes [0x05])) 1).
Proof.
  split; [reflexivity|].
  apply (proj1 (readInt64_spec (Reader.create (bytes [0x05]))
                  (byte_of_Z 0x05) [] eq_refl)).
  vm_compute. discriminate.
Defined.

(** C3. [readUInt64] on a buffer whose next byte is [b]: a fixint returns
    the byte; a negative fixint is rejected with a bad-tag error; a
    uint8/16/32/64 tag followed by the encoding of [v] returns [v]; an
    int8/16/32/64 tag followed by the encoding of [v] returns [v] when
    [v >= 0] and an underflow error when [v < 0]; every other lead byte
    gives a bad-tag error. *)
Theorem readUInt64_spec (r : DataReader) (b : byte) (rest : list byte) :
  Reader.remaining r = b :: rest ->
  let p := Z_of_byte b in
  (p <= 0x7f ->
   SafeDecoder.readUInt64 r = Done (Ok p) (Reader.advance r 1))
  /\ (0xe0 <= p ->
      SafeDecoder.readUInt64 r
      = Done (Err (BadUnsignedIntPrefix p)) (Reader.advance r 1)
      /\ kind (BadUnsignedIntPrefix p) = BadTag)
  /\ (forall v suf, p = Format.UINT8 -> 0 <= v < 2 ^ 8 ->
      rest = be_bytes 1 v ++ suf ->
      SafeDecoder.readUInt64 r = Done (Ok v) (Reader.advance r 2))
  /\ (forall v suf, p = Format.UINT16 -> 0 <= v < 2 ^ 16 ->
      rest = be_bytes 2 v ++ suf ->
      SafeDecoder.readUInt64 r = Done (Ok v) (Reader.advance r 3))
  /\ (forall v suf, p = Format.UINT32 -> 0 <= v < 2 ^ 32 ->
      rest = be_bytes 4 v ++ suf ->
      SafeDecoder.readUInt64 r = Done (Ok v) (Reader.advance r 5))
  /\ (forall v suf, p = Format.UINT64 -> 0 <= v < 2 ^ 64 ->
      rest = be_bytes 8 v ++ suf ->
      SafeDecoder.readUInt64 r = Done (Ok v) (Reader.advance r 9))
  /\ (forall v suf, p = Format.INT8 -> - 2 ^ 7 <= v < 2 ^ 7 ->
      rest = be_bytes 1 v ++ suf ->
      SafeDecoder.readUInt64 r
      = Done (if 0 <=? v then Ok v else Err (IntUnderflow v))
          (Reader.advance r 2))
  /\ (forall v suf, p = Format.INT16 -> - 2 ^ 15 <= v < 2 ^ 15 ->
      rest = be_bytes 2 v ++ suf ->
      SafeDecoder.readUInt64 r
      = Done (if 0 <=? v then Ok v else Err (IntUnderflow v))
          (Reader.advance r 3))
  /\ (forall v suf, p = Format.INT32 -> - 2 ^ 31 <= v < 2 ^ 31 ->
      rest = be_bytes 4 v ++ suf ->
      SafeDecoder.readUInt64 r
      = Done (if 0 <=? v then Ok v else Err (IntUnderflow v))
          (Reader.advance r 5))
  /\ (forall v suf, p = Format.INT64 -> - 2 ^ 63 <= v < 2 ^ 63 ->
      rest = be_bytes 8 v ++ suf ->
      SafeDecoder.readUInt64 r
      = Done (if 0 <=? v then Ok v else Err (IntUnderflow v))
          (Reader.advance r 9))
  /\ (forall v, kind (IntUnderflow v) = IntegerUnderflow)
  /\ (0x80 <= p < 0xe0 -> ~ (Format.UINT8 <= p <= Format.INT64) ->
      SafeDecoder.readUInt64 r
      = Done (Err (BadUnsignedIntPrefix p)) (Reader.advance r 1)).
Proof.
  intros H p. subst p.
  pose proof (Z_of_byte_range b) as Hb.
  pose proof (remaining_advance_1 _ _ _ H) as H1.
  unfold SafeDecoder.readUInt64. run_read (getUint8_at _ _ _ H).
  repeat match goal with |- _ /\ _ => split end.
  - intros Hp. split_tests. unfold ret, as_u64.
    rewrite as_unsigned_small by lia. reflexivity.
  - intros Hp. split; [|reflexivity]. split_tests. reflexivity.
  - intros v suf Hp Hv ->. rewrite Hp. eval_tests.
    run_read (getUint8_bytes_at _ _ _ H1 (be_bytes_length _ _)).
    unfold ret, as_u64. rewrite advance_advance.
    rewrite (be_uint_be_bytes_small 1 v) by exact Hv.
    rewrite as_unsigned_small by lia. reflexivity.
  - intros v suf Hp Hv ->. rewrite Hp. eval_tests.
    run_read (getUint16_at _ _ _ H1 (be_bytes_length _ _)).
    unfold ret, as_u64. rewrite advance_advance.
    rewrite (be_uint_be_bytes_small 2 v) by exact Hv.
    rewrite as_unsigned_small by lia. reflexivity.
  - intros v suf Hp Hv ->. rewrite Hp. eval_tests.
    run_read (getUint32_at _ _ _ H1 (be_bytes_length _ _)).
    unfold ret, as_u64. rewrite advance_advance.
    rewrite (be_uint_be_bytes_small 4 v) by exact Hv.
    rewrite as_unsigned_small by lia. reflexivity.
  - intros v suf Hp Hv ->. rewrite Hp. eval_tests.
    run_read (getUint64_at _ _ _ H1 (be_bytes_length _ _)).
    unfold ret. rewrite advance_advance.
    rewrite (be_uint_be_bytes_small 8 v) by exact Hv. reflexivity.
  - intros v suf Hp Hv ->. rewrite Hp. eval_tests.
    run_read (getInt8_at _ _ _ H1 (be_bytes_length _ _)).
    unfold as_i8. rewrite advance_advance.
    rewrite (as_signed_be_bytes 1 8 v) by (reflexivity || lia).
    unfold ret, as_u64. rewrite Z.geb_leb.
    destruct (Z.leb_spec 0 v); [|reflexivity].
    rewrite as_unsigned_small by lia. reflexivity.
  - intros v suf Hp Hv ->. rewrite Hp. eval_tests.
    run_read (getInt16_at _ _ _ H1 (be_bytes_length _ _)).
    unfold as_i16. rewrite advance_advance.
    rewrite (as_signed_be_bytes 2 16 v) by (reflexivity || lia).
    unfold ret, as_u64. rewrite Z.geb_leb.
    destruct (Z.leb_spec 0 v); [|reflexivity].
    rewrite as_unsigned_small by lia. reflexivity.
  - intros v suf Hp Hv ->. rewrite Hp. eval_tests.
    run_read (getInt32_at _ _ _ H1 (be_bytes_length _ _)).
    unfold as_i32. rewrite advance_advance.
    rewrite (as_signed_be_bytes 4 32 v) by (reflexivity || lia).
    unfold ret, as_u64. rewrite Z.geb_leb.
    destruct (Z.leb_spec 0 v); [|reflexivity].
    rewrite as_unsigned_small by lia. reflexivity.
  - intros v suf Hp Hv ->. rewrite Hp. eval_tests.
    run_read (getInt64_at _ _ _ H1 (be_bytes_length _ _)).
    unfold as_i64. rewrite advance_advance.
    rewrite (as_signed_be_bytes 8 64 v) by (reflexivity || lia).
    unfold ret, as_u64. rewrite Z.geb_leb.
    destruct (Z.leb_spec 0 v); [|reflexivity].
    rewrite as_unsigned_small by lia. reflexivity.
  - intros v. reflexivity.
  - intros Hp Hn. split_tests. reflexivity.
Qed.

(** An int8 tag with the value -1 underflows; the negative fixint 0xff is
    a bad tag. *)
Lemma readUInt64_spec_witness :
  Reader.remaining (Reader.create (bytes [0xd0; 0xff]))
  = byte_of_Z 0xd0 :: be_bytes 1 (-1) ++ []
  /\ SafeDecoder.readUInt64 (Reader.create (bytes [0xd0; 0xff]))
     = Done (Err (IntUnderflow (-1)))
         (Reader.advance (Reader.create (bytes [0xd0; 0xff])) 2).
Proof.
  split; [reflexivity|].
  pose proof (readUInt64_spec (Reader.create (bytes [0xd0; 0xff]))
                (byte_of_Z 0xd0) (be_bytes 1 (-1) ++ []) eq_refl) as H.
  cbv zeta in H.
  destruct H as (_ & _ & _ & _ & _ & _ & H & _).
  apply (H (-1) [] eq_refl); [lia | reflexivity].
Defined.

(** ** The narrower integer readers *)

Lemma take_length (method : string) (n : nat) (r r' : DataReader)
  (bs : list byte) :
  Reader.take method n r = Done bs r' -> List.length bs = n.
Proof.
  unfold Reader.take.
  destruct (Nat.leb_spec n (List.length (Reader.remaining r))) as [L|L];
    intros H; [|discriminate H].
  injection H as <- _. apply firstn_length_le, L.
Qed.

Lemma getUint64_range (r r' : DataReader) (v : Z) :
  Reader.getUint64 r = Done v r' -> 0 <= v < 2 ^ 64.
Proof.
  unfold Reader.getUint64. intros H.
  apply bind_inv in H as (bs & r1 & Ht & H).
  apply take_length in Ht. injection H as <- _.
  pose proof (be_uint_range bs) as Hr. unfold len in Hr. rewrite Ht in Hr.
  exact Hr.
Qed.

Lemma as_u64_range (z : Z) : 0 <= as_u64 z < 2 ^ 64.
Proof. apply Z.mod_pos_bound. lia. Qed.

(** A value returned by [readUInt64] is a [u64]. *)
Lemma readUInt64_range (r r' : DataReader) (v : Z) :
  SafeDecoder.readUInt64 r = Done (Ok v) r' -> 0 <= v < 2 ^ 64.
Proof.
  unfold SafeDecoder.readUInt64. intros H.
  apply bind_inv in H as (p & r1 & _ & H).
  repeat match type of H with
  | context [if ?c then _ else _] => destruct c
  end;
  try (apply bind_inv in H as (x & r2 & Hx & H));
  repeat match type of H with
  | context [if ?c then _ else _] => destruct c
  end;
  try discriminate H;
  injection H as <- _;
  try apply as_u64_range.
  apply (getUint64_range _ _ _ Hx).
Qed.

(** C4. Each narrower integer reader is the canonical 64-bit reader
    followed by a range check against the target width: a value in range
    is returned unchanged, a value out of range is an overflow error that
    carries the value and the bit width, and an error of the 64-bit reader
    (a bad tag, or an underflow of [readUInt64]) is passed on; the cursor
    is where the 64-bit reader left it.  On [0xcc, 0xff], [readUInt8]
    returns 255 and [readInt8] overflows; on [0xd0, 0x80], [readInt8]
    returns -128 and [readUInt8] underflows. *)
Theorem narrow_readers_spec (r : DataReader) :
  let signed (bits lo hi : Z) (o : outcome (Result Z)) :=
    match o with
    | Done (Ok v) r' =>
        if (lo <=? v) && (v <=? hi) then Done (Ok v) r'
        else Done (Err (IntOverflow v bits)) r'
    | other => other
    end in
  let unsigned (bits hi : Z) (o : outcome (Result Z)) :=
    match o with
    | Done (Ok v) r' =>
        if v <=? hi then Done (Ok v) r'
        else Done (Err (UnsignedIntOverflow v bits)) r'
    | other => other
    end in
  (SafeDecoder.readInt8 r
   = signed 8 i8_MIN_VALUE i8_MAX_VALUE (SafeDecoder.readInt64 r)
   /\ SafeDecoder.readInt16 r
      = signed 16 i16_MIN_VALUE i16_MAX_VALUE (SafeDecoder.readInt64 r)
   /\ SafeDecoder.readInt32 r
      = signed 32 i32_MIN_VALUE i32_MAX_VALUE (SafeDecoder.readInt64 r)
   /\ SafeDecoder.readUInt8 r
      = unsigned 8 u8_MAX_VALUE (SafeDecoder.readUInt64 r)
   /\ SafeDecoder.readUInt16 r
      = unsigned 16 u16_MAX_VALUE (SafeDecoder.readUInt64 r)
   /\ SafeDecoder.readUInt32 r
      = unsigned 32 u32_MAX_VALUE (SafeDecoder.readUInt64 r))
  /\ (forall v bits,
        kind (IntOverflow v bits) = IntegerOverflow
        /\ kind (UnsignedIntOverflow v bits) = IntegerOverflow)
  /\ (let cc_ff := Reader.create (bytes [0xcc; 0xff]) in
      SafeDecoder.readUInt8 cc_ff = Done (Ok 255) (Reader.advance cc_ff 2)
      /\ SafeDecoder.readInt8 cc_ff
         = Done (Err (IntOverflow 255 8)) (Reader.advance cc_ff 2))
  /\ (let d0_80 := Reader.create (bytes [0xd0; 0x80]) in
      SafeDecoder.readInt8 d0_80 = Done (Ok (-128)) (Reader.advance d0_80 2)
      /\ SafeDecoder.readUInt8 d0_80
         = Done (Err (IntUnderflow (-128))) (Reader.advance d0_80 2)
      /\ kind (IntUnderflow (-128)) = IntegerUnderflow).
Proof.
  intros signed unsigned.
  assert (HS : forall bits lo hi,
    0 < bits -> lo = - 2 ^ (bits - 1) -> hi = 2 ^ (bits - 1) - 1 ->
    bind SafeDecoder.readInt64 (fun result =>
      match result with
      | Err e => ret (Err e)
      | Ok value =>
          if (value <=? hi) && (value >=? lo)
          then ret (Ok (as_signed bits value))
          else ret (Err (IntOverflow value bits))
      end) r
    = signed bits lo hi (SafeDecoder.readInt64 r)).
  { intros bits lo hi Hb -> ->. unfold bind, signed.
    destruct (SafeDecoder.readInt64 r) as [[v|e] r'|e r']; try reflexivity.
    rewrite Z.geb_leb, andb_comm.
    destruct (Z.leb_spec (- 2 ^ (bits - 1)) v);
      destruct (Z.leb_spec v (2 ^ (bits - 1) - 1)); try reflexivity.
    cbn [andb]. unfold ret. rewrite as_signed_small by lia. reflexivity. }
  assert (HU : forall bits hi,
    0 < bits <= 64 -> hi = 2 ^ bits - 1 ->
    bind SafeDecoder.readUInt64 (fun result =>
      match result with
      | Err e => ret (Err e)
      | Ok value =>
          if value <=? hi then ret (Ok (as_unsigned bits value))
          else ret (Err (UnsignedIntOverflow value bits))
      end) r
    = unsigned bits hi (SafeDecoder.readUInt64 r)).
  { intros bits hi Hb ->. unfold bind, unsigned.
    destruct (SafeDecoder.readUInt64 r) as [[v|e] r'|e r'] eqn:E;
      try reflexivity.
    apply readUInt64_range in E.
    destruct (Z.leb_spec v (2 ^ bits - 1)); [|reflexivity].
    unfold ret. rewrite as_unsigned_small by lia. reflexivity. }
  repeat match goal with |- _ /\ _ => split end.
  - exact (HS 8 i8_MIN_VALUE i8_MAX_VALUE eq_refl eq_refl eq_refl).
  - exact (HS 16 i16_MIN_VALUE i16_MAX_VALUE eq_refl eq_refl eq_refl).
  - exact (HS 32 i32_MIN_VALUE i32_MAX_VALUE eq_refl eq_refl eq_refl).
  - exact (HU 8 u8_MAX_VALUE ltac:(lia) eq_refl).
  - exact (HU 16 u16_MAX_VALUE ltac:(lia) eq_refl).
  - exact (HU 32 u32_MAX_VALUE ltac:(lia) eq_refl).
  - intros v bits. split; reflexivity.
  - intros cc_ff. split; reflexivity.
  - intros d0_80. repeat split.
Qed.

(** ** Nil compatibility *)

Lemma discard_n_at (r : DataReader) (bs suf : list byte) (n : Z) :
  Reader.remaining r = bs ++ suf -> n = len bs ->
  Reader.discard n r = Done tt (Reader.advance r (List.length bs)).
Proof. intros H ->. apply (discard_at r bs suf H). Qed.

Lemma isNextNil_nil (r : DataReader) (b : byte) (rest : list byte) :
  Reader.remaining r = b :: rest -> Z_of_byte b = Format.NIL ->
  SafeDecoder.isNextNil r = Done true (Reader.advance r 1).
Proof.
  intros H Hb. unfold SafeDecoder.isNextNil.
  run_read (peekUint8_at _ _ _ H). rewrite Hb, Z.eqb_refl.
  run_read (discard_n_at r [b] rest 1 H eq_refl). reflexivity.
Qed.

Lemma isNextNil_other (r : DataReader) (b : byte) (rest : list byte) :
  Reader.remaining r = b :: rest -> Z_of_byte b <> Format.NIL ->
  SafeDecoder.isNextNil r = Done false r.
Proof.
  intros H Hb. unfold SafeDecoder.isNextNil.
  run_read (peekUint8_at _ _ _ H).
  destruct (Z.eqb_spec (Z_of_byte b) Format.NIL); [contradiction|].
  reflexivity.
Qed.

(** C6. When the next byte is the nil tag 0xc0, [readArraySize] resolves
    to 0, [readMapSize] fails with an invalid-length error, and
    [isNextNil] returns true; each of them consumes exactly that one
    byte.  When the next byte is anything else, [isNextNil] returns false
    and leaves the cursor where it was. *)
Theorem nil_compatibility (r : DataReader) (b : byte) (rest : list byte) :
  Reader.remaining r = b :: rest ->
  (Z_of_byte b = Format.NIL ->
   SafeDecoder.readArraySize r = Done (Ok 0) (Reader.advance r 1)
   /\ SafeDecoder.readMapSize r
      = Done (Err (BadLengthPrefix Format.NIL)) (Reader.advance r 1)
   /\ kind (BadLengthPrefix Format.NIL) = InvalidLength
   /\ SafeDecoder.isNextNil r = Done true (Reader.advance r 1)
   /\ byteOffset (Reader.advance r 1) = (byteOffset r + 1)%nat)
  /\ (Z_of_byte b <> Format.NIL ->
      SafeDecoder.isNextNil r = Done false r).
Proof.
  intros H. split.
  - intros Hb. repeat split.
    + unfold SafeDecoder.readArraySize. run_read (getUint8_at _ _ _ H).
      rewrite Hb. eval_tests. reflexivity.
    + unfold SafeDecoder.readMapSize. run_read (getUint8_at _ _ _ H).
      rewrite Hb. eval_tests. reflexivity.
    + apply (isNextNil_nil r b rest H Hb).
  - apply (isNextNil_other r b rest H).
Qed.

Lemma nil_compatibility_witness :
  Reader.remaining (Reader.create (bytes [0xc0; 0x01]))
  = byte_of_Z 0xc0 :: bytes [0x01]
  /\ Z_of_byte (byte_of_Z 0xc0) = Format.NIL
  /\ SafeDecoder.isNextNil (Reader.create (bytes [0xc0; 0x01]))
     = Done true (mkReader (bytes [0xc0; 0x01]) 1)
  /\ Reader.remaining (mkReader (bytes [0xc0; 0x01]) 1)
     = byte_of_Z 0x01 :: []
  /\ Z_of_byte (byte_of_Z 0x01) <> Format.NIL
  /\ SafeDecoder.isNextNil (mkReader (bytes [0xc0; 0x01]) 1)
     = Done false (mkReader (bytes [0xc0; 0x01]) 1).
Proof.
  split; [reflexivity|]. split; [reflexivity|]. split.
  - apply (proj1 (nil_compatibility (Reader.create (bytes [0xc0; 0x01]))
                    (byte_of_Z 0xc0) (bytes [0x01]) eq_refl) eq_refl).
  - split; [reflexivity|]. split; [vm_compute; discriminate|].
    apply (proj2 (nil_compatibility (mkReader (bytes [0xc0; 0x01]) 1)
                    (byte_of_Z 0x01) [] eq_refl)).
    vm_compute. discriminate.
Defined.

(** ** String and binary lengths *)

Lemma fixarray_pattern_byte (b : byte) :
  (Z.shiftr (Z_of_byte b) 4 =? 9) = SafeDecoder.isFixedArray (Z_of_byte b).
Proof. destruct b; reflexivity. Qed.

Lemma fixstr_pattern_byte (b : byte) :
  (Z.shiftr (Z_of_byte b) 5 =? 5) = SafeDecoder.isFixedString (Z_of_byte b).
Proof. destruct b; reflexivity. Qed.

Lemma as_u32_land_0x0f (b : byte) :
  as_u32 (Z.land (Z_of_byte b) Format.FOUR_LEAST_SIG_BITS_IN_BYTE)
  = Z.land (Z_of_byte b) 0x0f.
Proof. destruct b; reflexivity. Qed.

(** C7. When the lead byte has the fixarray bit pattern (top four bits
    1001), [readStringLength] and [readBinLength] both succeed with the
    low four bits of that byte as the length, consuming the byte.  Besides
    that, [readStringLength] resolves fixstr (low five bits) and
    str8/16/32 (the length that follows), [readBinLength] resolves
    bin8/16/32, and [readBinLength] resolves the nil tag to length 0. *)
Theorem fixarray_pattern_as_length (r : DataReader) (b : byte)
  (rest : list byte) :
  Reader.remaining r = b :: rest ->
  let p := Z_of_byte b in
  (Z.shiftr p 4 = 9 ->
   SafeDecoder.readStringLength r
   = Done (Ok (Z.land p 0x0f)) (Reader.advance r 1)
   /\ SafeDecoder.readBinLength r
      = Done (Ok (Z.land p 0x0f)) (Reader.advance r 1))
  /\ (Z.shiftr p 5 = 5 ->
      SafeDecoder.readStringLength r
      = Done (Ok (Z.land p 0x1f)) (Reader.advance r 1))
  /\ (forall n suf, p = Format.STR8 -> 0 <= n < 2 ^ 8 ->
      rest = be_bytes 1 n ++ suf ->
      SafeDecoder.readStringLength r = Done (Ok n) (Reader.advance r 2))
  /\ (forall n suf, p = Format.STR16 -> 0 <= n < 2 ^ 16 ->
      rest = be_bytes 2 n ++ suf ->
      SafeDecoder.readStringLength r = Done (Ok n) (Reader.advance r 3))
  /\ (forall n suf, p = Format.STR32 -> 0 <= n < 2 ^ 32 ->
      rest = be_bytes 4 n ++ suf ->
      SafeDecoder.readStringLength r = Done (Ok n) (Reader.advance r 5))
  /\ (forall n suf, p = Format.BIN8 -> 0 <= n < 2 ^ 8 ->
      rest = be_bytes 1 n ++ suf ->
      SafeDecoder.readBinLength r = Done (Ok n) (Reader.advance r 2))
  /\ (forall n suf, p = Format.BIN16 -> 0 <= n < 2 ^ 16 ->
      rest = be_bytes 2 n ++ suf ->
      SafeDecoder.readBinLength r = Done (Ok n) (Reader.advance r 3))
  /\ (forall n suf, p = Format.BIN32 -> 0 <= n < 2 ^ 32 ->
      rest = be_bytes 4 n ++ suf ->
      SafeDecoder.readBinLength r = Done (Ok n) (Reader.advance r 5))
  /\ (p = Format.NIL ->
      SafeDecoder.readBinLength r = Done (Ok 0) (Reader.advance r 1)).
Proof.
  intros H p. subst p.
  pose proof (remaining_advance_1 _ _ _ H) as H1.
  assert (HB : Z_of_byte b <> Format.NIL ->
    SafeDecoder.readBinLength r
    = bind Reader.getUint8 (fun leadByte =>
        if SafeDecoder.isFixedArray leadByte then
          ret (Ok (as_u32
                     (Z.land leadByte Format.FOUR_LEAST_SIG_BITS_IN_BYTE)))
        else if leadByte =? Format.BIN8 then
          n <- Reader.getUint8 ;; ret (Ok (as_u32 n))
        else if leadByte =? Format.BIN16 then
          n <- Reader.getUint16 ;; ret (Ok (as_u32 n))
        else if leadByte =? Format.BIN32 then
          n <- Reader.getUint32 ;; ret (Ok n)
        else ret (Err (BadLengthPrefix leadByte))) r).
  { intros Hn. unfold SafeDecoder.readBinLength.
    run_read (isNextNil_other r b rest H Hn). reflexivity. }
  unfold SafeDecoder.readStringLength. run_read (getUint8_at _ _ _ H).
  repeat match goal with |- _ /\ _ => split end.
  - intros Hp. apply Z.eqb_eq in Hp.
    rewrite fixarray_pattern_byte in Hp.
    pose proof Hp as Hr. rewrite isFixedArray_byte in Hr.
    split.
    + rewrite isFixedString_byte, Hp.
      destruct (Z.leb_spec 0xa0 (Z_of_byte b)) as [L|L];
        [destruct (Z.leb_spec 0x90 (Z_of_byte b));
         destruct (Z.ltb_spec (Z_of_byte b) 0xa0);
         try discriminate Hr; lia|].
      cbn [andb]. unfold ret. rewrite as_u32_land_0x0f. reflexivity.
    + rewrite HB.
      * run_read (getUint8_at _ _ _ H). rewrite Hp. unfold ret.
        rewrite as_u32_land_0x0f. reflexivity.
      * unfold_format. intros E. rewrite E in Hr. discriminate Hr.
  - intros Hp. apply Z.eqb_eq in Hp. rewrite fixstr_pattern_byte in Hp.
    rewrite Hp. reflexivity.
  - intros n suf Hp Hn ->. rewrite Hp. eval_tests.
    run_read (getUint8_bytes_at _ _ _ H1 (be_bytes_length _ _)).
    unfold ret, as_u32. rewrite advance_advance.
    rewrite (be_uint_be_bytes_small 1 n) by exact Hn.
    rewrite as_unsigned_small by lia. reflexivity.
  - intros n suf Hp Hn ->. rewrite Hp. eval_tests.
    run_read (getUint16_at _ _ _ H1 (be_bytes_length _ _)).
    unfold ret, as_u32. rewrite advance_advance.
    rewrite (be_uint_be_bytes_small 2 n) by exact Hn.
    rewrite as_unsigned_small by lia. reflexivity.
  - intros n suf Hp Hn ->. rewrite Hp. eval_tests.
    run_read (getUint32_at _ _ _ H1 (be_bytes_length _ _)).
    unfold ret. rewrite advance_advance.
    rewrite (be_uint_be_bytes_small 4 n) by exact Hn. reflexivity.
  - intros n suf Hp Hn ->.
    rewrite HB by (rewrite Hp; discriminate).
    run_read (getUint8_at _ _ _ H). rewrite Hp. eval_tests.
    run_read (getUint8_bytes_at _ _ _ H1 (be_bytes_length _ _)).
    unfold ret, as_u32. rewrite advance_advance.
    rewrite (be_uint_be_bytes_small 1 n) by exact Hn.
    rewrite as_unsigned_small by lia. reflexivity.
  - intros n suf Hp Hn ->.
    rewrite HB by (rewrite Hp; discriminate).
    run_read (getUint8_at _ _ _ H). rewrite Hp. eval_tests.
    run_read (getUint16_at _ _ _ H1 (be_bytes_length _ _)).
    unfold ret, as_u32. rewrite advance_advance.
    rewrite (be_uint_be_bytes_small 2 n) by exact Hn.
    rewrite as_unsigned_small by lia. reflexivity.
  - intros n suf Hp Hn ->.
    rewrite HB by (rewrite Hp; discriminate).
    run_read (getUint8_at _ _ _ H). rewrite Hp. eval_tests.
    run_read (getUint32_at _ _ _ H1 (be_bytes_length _ _)).
    unfold ret. rewrite advance_advance.
    rewrite (be_uint_be_bytes_small 4 n) by exact Hn. reflexivity.
  - intros Hp. unfold SafeDecoder.readBinLength.
    run_read (isNextNil_nil r b rest H Hp). reflexivity.
Qed.

(** The fixarray tag 0x93 read as a string length and as a binary length
    gives 3. *)
Lemma fixarray_pattern_as_length_witness :
  Reader.remaining (Reader.create (bytes [0x93])) = byte_of_Z 0x93 :: []
  /\ Z.shiftr (Z_of_byte (byte_of_Z 0x93)) 4 = 9
  /\ SafeDecoder.readStringLength (Reader.create (bytes [0x93]))
     = Done (Ok 3) (mkReader (bytes [0x93]) 1)
  /\ SafeDecoder.readBinLength (Reader.create (bytes [0x93]))
     = Done (Ok 3) (mkReader (bytes [0x93]) 1).
Proof.
  split; [reflexivity|]. split; [reflexivity|].
  apply (proj1 (fixarray_pattern_as_length (Reader.create (bytes [0x93]))
                  (byte_of_Z 0x93) [] eq_refl) eq_refl).
Defined.

(** ** Structural skip *)

Lemma len_app (a b : list byte) : len (a ++ b) = len a + len b.
Proof. unfold len. rewrite length_app. lia. Qed.

Lemma len_nonneg (a : list byte) : 0 <= len a.
Proof. unfold len. lia. Qed.

Lemma mod_shift (k m x : Z) : 0 <= x < m -> (k * m + x) mod m = x.
Proof.
  intros H. symmetry. apply (Z.mod_unique _ _ k); [left; exact H | ring].
Qed.

Ltac wf_hyps :=
  repeat match goal with
  | H : (_ && _)%bool = true |- _ => apply andb_prop in H; destruct H
  | H : (_ <? _) = true |- _ => apply Z.ltb_lt in H
  | H : (_ <=? _) = true |- _ => apply Z.leb_le in H
  | H : (_ =? _) = true |- _ => apply Z.eqb_eq in H
  end.

Lemma be_uint_be_bytes_1 (z : Z) :
  0 <= z < 2 ^ 8 -> be_uint (be_bytes 1 z) = z.
Proof. apply (be_uint_be_bytes_small 1 z). Qed.

Lemma be_uint_be_bytes_2 (z : Z) :
  0 <= z < 2 ^ 16 -> be_uint (be_bytes 2 z) = z.
Proof. apply (be_uint_be_bytes_small 2 z). Qed.

Lemma be_uint_be_bytes_4 (z : Z) :
  0 <= z < 2 ^ 32 -> be_uint (be_bytes 4 z) = z.
Proof. apply (be_uint_be_bytes_small 4 z). Qed.

Lemma as_i32_small (z : Z) : 0 <= z < 2 ^ 31 -> as_i32 z = z.
Proof. intros H. apply as_signed_nonneg; [exact H | lia]. Qed.

(** Bring the cursor of both sides to the form [advance r n] and compare
    the offsets. *)
Ltac same_cursor :=
  unfold ret; rewrite ?advance_advance, ?length_app;
  cbn [List.length]; rewrite ?be_bytes_length;
  unfold len in *; do 2 f_equal; lia.

(** A length prefix of [w] bytes followed by the payload it announces. *)
Ltac skip_prefixed R1 getter_at small :=
  run_read (getter_at _ _ _ R1 (be_bytes_length _ _));
  rewrite small by lia;
  rewrite as_i32_small by lia;
  let R2 := fresh "R2" in
  pose proof (remaining_advance_app _ _ _ R1) as R2;
  rewrite be_bytes_length in R2;
  run_read (discard_n_at _ _ _ _ R2 eq_refl);
  same_cursor.

Lemma getSize_leaf (t : leaf) (p suf : list byte) (r : DataReader) :
  leaf_wf t p = true ->
  Reader.remaining r = (leaf_header t p ++ p) ++ suf ->
  len p < 2 ^ 31 ->
  SafeDecoder.getSize r
  = Done 0 (Reader.advance r (List.length (leaf_header t p ++ p))).
Proof.
  intros W H B. pose proof (len_nonneg p) as Hp.
  unfold SafeDecoder.getSize.
  destruct t; cbn [leaf_header leaf_wf] in *; wf_hyps;
    cbn [app] in H; rewrite <- ?app_assoc in H;
    run_read (getUint8_at _ _ _ H);
    pose proof (remaining_advance_1 _ _ _ H) as R1.
  4: { pose proof (Z_of_byte_of_Z n ltac:(lia)) as E.
       split_tests. same_cursor. }
  4: { pose proof (Z_of_byte_of_Z (256 + n) ltac:(lia)) as E.
       split_tests. same_cursor. }
  19: { set (b := byte_of_Z (Format.FIXSTR + len p)) in *.
        assert (E : Z_of_byte b = 160 + len p)
          by (subst b; unfold_format; apply Z_of_byte_of_Z; lia).
        assert (Hm : Z.land (Z_of_byte b) 31 = len p).
        { rewrite land_0x1f_byte, E. apply (mod_shift 5 32). lia. }
        rewrite Hm. split_tests.
        run_read (discard_n_at _ _ _ _ R1 eq_refl). same_cursor. }
  all: eval_tests.
  1-3: same_cursor.
  1-15: run_read (discard_n_at _ p suf _ R1 (eq_sym W)); same_cursor.
  - skip_prefixed R1 getUint8_bytes_at be_uint_be_bytes_1.
  - skip_prefixed R1 getUint16_at be_uint_be_bytes_2.
  - skip_prefixed R1 getUint32_at be_uint_be_bytes_4.
  - skip_prefixed R1 getUint8_bytes_at be_uint_be_bytes_1.
  - skip_prefixed R1 getUint16_at be_uint_be_bytes_2.
  - skip_prefixed R1 getUint32_at be_uint_be_bytes_4.
Qed.

Lemma getSize_arr (f : arr_form) (n : Z) (r : DataReader) (rest : list byte) :
  arr_wf f n = true -> 0 <= n < 2 ^ 31 ->
  Reader.remaining r = arr_header f n ++ rest ->
  SafeDecoder.getSize r
  = Done n (Reader.advance r (List.length (arr_header f n))).
Proof.
  intros W B H. unfold SafeDecoder.getSize.
  destruct f; cbn [arr_header arr_wf] in *; wf_hyps;
    cbn [app] in H;
    run_read (getUint8_at _ _ _ H);
    pose proof (remaining_advance_1 _ _ _ H) as R1.
  - set (b := byte_of_Z (Format.FIXARRAY + n)) in *.
    assert (E : Z_of_byte b = 144 + n)
      by (subst b; unfold_format; apply Z_of_byte_of_Z; lia).
    assert (Hm : Z.land (Z_of_byte b) Format.FOUR_LEAST_SIG_BITS_IN_BYTE = n).
    { unfold_format. rewrite land_0x0f_byte, E. apply (mod_shift 9 16). lia. }
    rewrite Hm. split_tests. rewrite as_i32_small by lia. same_cursor.
  - eval_tests.
    run_read (getUint16_at _ _ _ R1 (be_bytes_length _ _)).
    rewrite be_uint_be_bytes_2, as_i32_small by lia. same_cursor.
  - eval_tests.
    run_read (getUint32_at _ _ _ R1 (be_bytes_length _ _)).
    rewrite be_uint_be_bytes_4, as_i32_small by lia. same_cursor.
Qed.

Lemma getSize_map (f : map_form) (n : Z) (r : DataReader) (rest : list byte) :
  map_wf f n = true -> 0 <= n -> 2 * n < 2 ^ 31 ->
  Reader.remaining r = map_header f n ++ rest ->
  SafeDecoder.getSize r
  = Done (2 * n) (Reader.advance r (List.length (map_header f n))).
Proof.
  intros W B0 B H. unfold SafeDecoder.getSize, SafeDecoder.i32_mul.
  destruct f; cbn [map_header map_wf] in *; wf_hyps;
    cbn [app] in H;
    run_read (getUint8_at _ _ _ H);
    pose proof (remaining_advance_1 _ _ _ H) as R1.
  - set (b := byte_of_Z (Format.FIXMAP + n)) in *.
    assert (E : Z_of_byte b = 128 + n)
      by (subst b; unfold_format; apply Z_of_byte_of_Z; lia).
    assert (Hm : Z.land (Z_of_byte b) Format.FOUR_LEAST_SIG_BITS_IN_BYTE = n).
    { unfold_format. rewrite land_0x0f_byte, E. apply (mod_shift 8 16). lia. }
    rewrite Hm. split_tests.
    rewrite (as_i32_small n), as_i32_small by lia. same_cursor.
  - eval_tests.
    run_read (getUint16_at _ _ _ R1 (be_bytes_length _ _)).
    rewrite be_uint_be_bytes_2, (as_i32_small n), as_i32_small by lia.
    same_cursor.
  - eval_tests.
    run_read (getUint32_at _ _ _ R1 (be_bytes_length _ _)).
    rewrite be_uint_be_bytes_4, (as_i32_small n), as_i32_small by lia.
    same_cursor.
Qed.

(** Induction on a value with the hypothesis for all its children. *)
Lemma msg_children_ind (P : msg -> Prop) :
  (forall v, Forall P (children v) -> P v) -> forall v, P v.
Proof.
  intros step.
  refine (fix rec (v : msg) : P v := step v _).
  destruct v as [t p|f elems|f pairs]; cbn [children].
  - constructor.
  - induction elems as [|x elems IH]; constructor; [apply rec | exact IH].
  - induction pairs as [|[k x] pairs IH]; cbn [flat_map app].
    + constructor.
    + constructor; [apply rec|]. constructor; [apply rec | exact IH].
Qed.

Lemma encode_own_children (v : msg) :
  encode v = own_bytes v ++ flat_map encode (children v).
Proof.
  destruct v as [t p|f elems|f pairs]; cbn [encode own_bytes children].
  - cbn [flat_map]. rewrite app_nil_r. reflexivity.
  - reflexivity.
  - f_equal. induction pairs as [|[k x] pairs IH]; [reflexivity|].
    cbn [flat_map app]. rewrite IH, <- app_assoc. reflexivity.
Qed.

Lemma children_count_length (v : msg) :
  children_count v = Z.of_nat (List.length (children v)).
Proof.
  destruct v as [t p|f elems|f pairs]; cbn [children_count children];
    try reflexivity.
  induction pairs as [|[k x] pairs IH]; [reflexivity|].
  cbn [flat_map app List.length]. lia.
Qed.

Lemma wf_children (v : msg) :
  wf v = true -> forallb wf (children v) = true.
Proof.
  destruct v as [t p|f elems|f pairs]; cbn [wf children]; intros W.
  - reflexivity.
  - apply andb_prop in W. apply W.
  - apply andb_prop in W. destruct W as [_ W].
    induction pairs as [|[k x] pairs IH]; [reflexivity|].
    cbn [forallb flat_map app] in *.
    apply andb_prop in W. destruct W as [W1 W2].
    apply andb_prop in W1. destruct W1 as [Wk Wx].
    rewrite Wk, Wx, (IH W2). reflexivity.
Qed.

Lemma own_bytes_nonempty (v : msg) : (0 < List.length (own_bytes v))%nat.
Proof.
  destruct v as [t p|f elems|f pairs]; cbn [own_bytes].
  - rewrite length_app. destruct t; cbn [leaf_header List.length]; lia.
  - destruct f; cbn [arr_header List.length]; lia.
  - destruct f; cbn [map_header List.length]; lia.
Qed.

Lemma encode_nonempty (v : msg) : (0 < List.length (encode v))%nat.
Proof.
  rewrite encode_own_children, length_app.
  pose proof (own_bytes_nonempty v). lia.
Qed.

Lemma flat_encode_length (cs : list msg) :
  (List.length cs <= List.length (flat_map encode cs))%nat.
Proof.
  induction cs as [|c cs IH]; [reflexivity|].
  cbn [flat_map List.length]. rewrite length_app.
  pose proof (encode_nonempty c). lia.
Qed.

(** [getSize] on an encoded value: the number of children, with the
    cursor after the value's own bytes. *)
Lemma getSize_encoded (v : msg) (r : DataReader) (suf : list byte) :
  wf v = true ->
  Reader.remaining r = encode v ++ suf ->
  len (encode v) < 2 ^ 31 ->
  SafeDecoder.getSize r
  = Done (children_count v) (Reader.advance r (List.length (own_bytes v))).
Proof.
  intros W H B.
  pose proof (flat_encode_length (children v)) as L.
  pose proof (children_count_length v) as C.
  rewrite encode_own_children in H, B. rewrite len_app in B.
  unfold len in B.
  destruct v as [t p|f elems|f pairs];
    cbn [wf own_bytes children_count] in *.
  - cbn [children flat_map] in H. rewrite app_nil_r in H.
    apply (getSize_leaf t p suf r W H).
    rewrite length_app in B. unfold len. lia.
  - apply andb_prop in W. destruct W as [W _].
    rewrite <- app_assoc in H.
    eapply (getSize_arr f _ r); [exact W| |exact H].
    lia.
  - apply andb_prop in W. destruct W as [W _].
    rewrite <- app_assoc in H.
    eapply (getSize_map f _ r); [exact W|lia| |exact H]. lia.
Qed.

Lemma skip_S (fuel : nat) (r : DataReader) :
  SafeDecoder.skip (S fuel) r
  = match SafeDecoder.getSize r with
    | Thrown e r' => Some (Thrown e r')
    | Done n r' => SafeDecoder.skip_loop fuel n r'
    end.
Proof. reflexivity. Qed.

Lemma skip_loop_done (fuel : nat) (n : Z) (r : DataReader) :
  n <= 0 -> SafeDecoder.skip_loop fuel n r = Some (Done tt r).
Proof.
  intros H. destruct fuel; cbn [SafeDecoder.skip_loop];
    destruct (Z.gtb_spec n 0); (lia || reflexivity).
Qed.

Lemma skip_loop_S (fuel : nat) (n : Z) (r : DataReader) :
  0 < n ->
  SafeDecoder.skip_loop (S fuel) n r
  = match SafeDecoder.skip fuel r with
    | Some (Done _ r') => SafeDecoder.skip_loop fuel (n - 1) r'
    | other => other
    end.
Proof.
  intros H. cbn [SafeDecoder.skip_loop].
  destruct (Z.gtb_spec n 0); [reflexivity | lia].
Qed.

Lemma skip_loop_children (cs : list msg) :
  Forall skips cs ->
  forall (fuel : nat) (r : DataReader) (suf : list byte),
    forallb wf cs = true ->
    Reader.remaining r = flat_map encode cs ++ suf ->
    Z.of_nat (List.length (buffer r)) < 2 ^ 31 ->
    (2 * List.length (flat_map encode cs) + 1 <= fuel)%nat ->
    SafeDecoder.skip_loop fuel (Z.of_nat (List.length cs)) r
    = Some (Done tt (Reader.advance r (List.length (flat_map encode cs)))).
Proof.
  induction 1 as [|c cs Hc Hcs IH]; intros fuel r suf W H B F.
  - cbn [flat_map List.length]. rewrite advance_0.
    apply skip_loop_done. reflexivity.
  - cbn [flat_map forallb List.length] in *.
    apply andb_prop in W. destruct W as [Wc Wcs].
    rewrite <- app_assoc in H. rewrite length_app in F |- *.
    pose proof (encode_nonempty c) as Ne.
    destruct fuel as [|fuel]; [lia|].
    rewrite skip_loop_S by lia.
    rewrite (Hc fuel r _ Wc H B) by lia.
    replace (Z.of_nat (S (List.length cs)) - 1)
      with (Z.of_nat (List.length cs)) by lia.
    rewrite (IH fuel _ suf Wcs (remaining_advance_app _ _ _ H) B) by lia.
    rewrite advance_advance. reflexivity.
Qed.

Lemma skip_encoded (v : msg) : skips v.
Proof.
  induction v as [v IH] using msg_children_ind.
  intros fuel r suf W H B F.
  pose proof (own_bytes_nonempty v) as Ne.
  assert (BL : len (encode v) < 2 ^ 31).
  { pose proof (remaining_length_le r) as L. rewrite H, length_app in L.
    unfold len. lia. }
  pose proof (getSize_encoded v r suf W H BL) as G.
  rewrite encode_own_children in H, F |- *. rewrite length_app in F |- *.
  rewrite <- app_assoc in H.
  destruct fuel as [|fuel]; [lia|].
  rewrite skip_S, G, children_count_length.
  rewrite (skip_loop_children _ IH fuel _ suf (wf_children v W)
             (remaining_advance_app _ _ _ H) B) by lia.
  rewrite advance_advance. reflexivity.
Qed.

(** ** Child counts of array32 and map32 *)

Lemma as_signed_shift (bits z k : Z) :
  0 < bits ->
  - 2 ^ (bits - 1) <= z + k * 2 ^ bits < 2 ^ (bits - 1) ->
  as_signed bits z = z + k * 2 ^ bits.
Proof.
  intros Hb H. rewrite <- (as_signed_small bits (z + k * 2 ^ bits) H Hb).
  unfold as_signed. rewrite Z.mod_add by (apply Z.pow_nonzero; lia).
  reflexivity.
Qed.

Lemma getSize_array32 (r : DataReader) (n : Z) (rest : list byte) :
  0 <= n < 2 ^ 32 ->
  Reader.remaining r = byte_of_Z Format.ARRAY32 :: be_bytes 4 n ++ rest ->
  SafeDecoder.getSize r = Done (as_i32 n) (Reader.advance r 5).
Proof.
  intros B H. unfold SafeDecoder.getSize.
  run_read (getUint8_at _ _ _ H).
  pose proof (remaining_advance_1 _ _ _ H) as R1. eval_tests.
  run_read (getUint32_at _ _ _ R1 (be_bytes_length _ _)).
  rewrite be_uint_be_bytes_4 by lia. same_cursor.
Qed.

Lemma getSize_map32 (r : DataReader) (n : Z) (rest : list byte) :
  0 <= n < 2 ^ 32 ->
  Reader.remaining r = byte_of_Z Format.MAP32 :: be_bytes 4 n ++ rest ->
  SafeDecoder.getSize r
  = Done (SafeDecoder.i32_mul 2 (as_i32 n)) (Reader.advance r 5).
Proof.
  intros B H. unfold SafeDecoder.getSize.
  run_read (getUint8_at _ _ _ H).
  pose proof (remaining_advance_1 _ _ _ H) as R1. eval_tests.
  run_read (getUint32_at _ _ _ R1 (be_bytes_length _ _)).
  rewrite be_uint_be_bytes_4 by lia. same_cursor.
Qed.

(** A container whose child count is not positive has none of its
    children skipped. *)
Lemma skip_no_children (fuel : nat) (r r' : DataReader) (c : Z) :
  SafeDecoder.getSize r = Done c r' -> c <= 0 ->
  SafeDecoder.skip (S fuel) r = Some (Done tt r').
Proof.
  intros G Hc. rewrite skip_S, G. apply skip_loop_done, Hc.
Qed.

Lemma map32_count (n : Z) :
  0 <= n < 2 ^ 32 ->
  SafeDecoder.i32_mul 2 (as_i32 n)
  = if n <? 2 ^ 30 then 2 * n
    else if n <? 3 * 2 ^ 30 then 2 * n - 2 ^ 32
    else 2 * n - 2 ^ 33.
Proof.
  intros B. unfold SafeDecoder.i32_mul, as_i32.
  destruct (Z.ltb_spec n (2 ^ 30)); [|destruct (Z.ltb_spec n (3 * 2 ^ 30))].
  - rewrite (as_signed_small 32 n), as_signed_small by lia. reflexivity.
  - destruct (Z.lt_ge_cases n (2 ^ 31)).
    + rewrite (as_signed_small 32 n) by lia.
      rewrite (as_signed_shift 32 (2 * n) (-1)) by lia. lia.
    + rewrite (as_signed_shift 32 n (-1)) by lia.
      rewrite (as_signed_shift 32 _ 1) by lia. lia.
  - rewrite (as_signed_shift 32 n (-1)) by lia.
    rewrite (as_signed_small 32) by lia. lia.
Qed.

(** C9, as the code has it.  [getSize] returns the [u32] count of an
    array32 cast to [i32], and twice the cast count of a map32, wrapped to
    [i32].  For an array32 count of 2^31 or more the child count is
    negative; for a map32 pair count [n] it is negative when
    2^30 <= n < 2^31 or 3 * 2^30 <= n, and it is the non-negative
    2n - 2^32 when 2^31 <= n < 3 * 2^30.  Whenever the child count is
    negative, [skip] stops right after the five header bytes: none of the
    children is discarded.  The pair count of a map16 is doubled in [i32]
    as well, where twice a 16-bit count fits. *)
Theorem count32_wraps (r : DataReader) (n : Z) (rest : list byte) :
  0 <= n < 2 ^ 32 ->
  (Reader.remaining r = byte_of_Z Format.ARRAY32 :: be_bytes 4 n ++ rest ->
   SafeDecoder.getSize r = Done (as_i32 n) (Reader.advance r 5)
   /\ (2 ^ 31 <= n ->
       as_i32 n = n - 2 ^ 32 /\ as_i32 n < 0
       /\ forall fuel,
            SafeDecoder.skip (S fuel) r
            = Some (Done tt (Reader.advance r 5))))
  /\ (Reader.remaining r = byte_of_Z Format.MAP32 :: be_bytes 4 n ++ rest ->
      let c := SafeDecoder.i32_mul 2 (as_i32 n) in
      SafeDecoder.getSize r = Done c (Reader.advance r 5)
      /\ (2 ^ 30 <= n < 2 ^ 31 -> c = 2 * n - 2 ^ 32 /\ c < 0)
      /\ (2 ^ 31 <= n < 3 * 2 ^ 30 -> c = 2 * n - 2 ^ 32 /\ 0 <= c)
      /\ (3 * 2 ^ 30 <= n -> c = 2 * n - 2 ^ 33 /\ c < 0)
      /\ (c < 0 ->
          forall fuel,
            SafeDecoder.skip (S fuel) r
            = Some (Done tt (Reader.advance r 5))))
  /\ (forall m : Z,
        0 <= m < 2 ^ 16 ->
        Reader.remaining r = byte_of_Z Format.MAP16 :: be_bytes 2 m ++ rest ->
        SafeDecoder.getSize r
        = Done (SafeDecoder.i32_mul 2 (as_i32 m)) (Reader.advance r 3)
        /\ SafeDecoder.i32_mul 2 (as_i32 m) = 2 * m).
Proof.
  intros B. split; [|split]; [intros H | intros H | intros m Hm H].
  3: { assert (E : SafeDecoder.i32_mul 2 (as_i32 m) = 2 * m).
       { unfold SafeDecoder.i32_mul. rewrite (as_i32_small m) by lia.
         apply as_i32_small. lia. }
       split; [|exact E]. rewrite E.
       pose proof (getSize_map Map16 m r rest) as G.
       cbn [map_wf map_header List.length] in G.
       rewrite be_bytes_length in G.
       apply G; [apply Z.ltb_lt| | |exact H]; lia. }
  - pose proof (getSize_array32 r n rest B H) as G. split; [exact G|].
    intros L.
    assert (E : as_i32 n = n - 2 ^ 32)
      by (unfold as_i32; rewrite (as_signed_shift 32 n (-1)) by lia; lia).
    split; [exact E|]. split; [lia|]. intros fuel.
    apply (skip_no_children fuel r _ _ G). lia.
  - intros c. pose proof (getSize_map32 r n rest B H) as G.
    pose proof (map32_count n B) as C. fold c in G, C.
    split; [exact G|].
    assert (C' : (2 ^ 30 <= n < 3 * 2 ^ 30 -> c = 2 * n - 2 ^ 32)
                 /\ (3 * 2 ^ 30 <= n -> c = 2 * n - 2 ^ 33)).
    { clearbody c. revert C.
      destruct (Z.ltb_spec n (2 ^ 30)); [lia|].
      destruct (Z.ltb_spec n (3 * 2 ^ 30)); lia. }
    clearbody c. destruct C' as [C1 C2].
    repeat match goal with |- _ /\ _ => split end; try intros L; try lia.
    intros fuel. apply (skip_no_children fuel r _ _ G). lia.
Qed.

(** An array32 that announces 2^31 elements: the count is -2^31 and
    [skip] stops after the header, before the two bytes that follow. *)
Lemma count32_wraps_witness :
  0 <= 2 ^ 31 < 2 ^ 32
  /\ Reader.remaining (Reader.create (bytes [0xdd; 0x80; 0; 0; 0; 1; 2]))
     = byte_of_Z Format.ARRAY32 :: be_bytes 4 (2 ^ 31) ++ bytes [1; 2]
  /\ SafeDecoder.getSize (Reader.create (bytes [0xdd; 0x80; 0; 0; 0; 1; 2]))
     = Done (as_i32 (2 ^ 31))
         (Reader.advance (Reader.create (bytes [0xdd; 0x80; 0; 0; 0; 1; 2]))
            5).
Proof.
  split; [lia|]. split; [reflexivity|].
  apply (proj1 (count32_wraps
                  (Reader.create (bytes [0xdd; 0x80; 0; 0; 0; 1; 2]))
                  (2 ^ 31) (bytes [1; 2]) ltac:(lia))).
  reflexivity.
Defined.

(** C9 as stated fails: a map32 that announces 2^31 + 1 pairs has the
    child count 2, and [skip] discards the two objects that follow the
    header. *)
Lemma map32_count_counterexample :
  ~ (forall n : Z, 2 ^ 30 <= n < 2 ^ 32 ->
     forall rest : list byte,
     exists c r',
       SafeDecoder.getSize
         (Reader.create (byte_of_Z Format.MAP32 :: be_bytes 4 n ++ rest))
       = Done c r'
       /\ c < 0
       /\ SafeDecoder.skip 10
            (Reader.create (byte_of_Z Format.MAP32 :: be_bytes 4 n ++ rest))
          = Some (Done tt r')).
Proof.
  intros claim.
  destruct (claim (2 ^ 31 + 1) ltac:(lia) (bytes [1; 2]))
    as (c & r' & G & Hc & _).
  vm_compute in G. injection G as <- _. lia.
Qed.

Example skip_map32_wrapped :
  SafeDecoder.skip 10 (Reader.create (bytes [0xdf; 0x80; 0; 0; 1; 1; 2]))
  = Some (Done tt (mkReader (bytes [0xdf; 0x80; 0; 0; 1; 1; 2]) 7)).
Proof. reflexivity. Qed.

(** ** Generic array decoding *)



(** The facade's [readArray] never passes an index: it behaves as with
    the element decoder called without one. *)
Lemma Decoder_readArray_loop_no_index {T} (fn : Decoder.ElementFn T)
  (todo : nat) (i : Z) (a : list T) (r : DataReader) :
  Decoder.readArray_loop fn todo i a r
  = Decoder.readArray_loop (fun _ => fn None) todo i a r.
Proof.
  revert i a r. induction todo as [|todo IH]; intros i a r; [reflexivity|].
  cbn [Decoder.readArray_loop]. unfold bind.
  destruct (fn None r) as [x r1|e r1]; [apply IH | reflexivity].
Qed.

(** C8: what the code does on the bytes [0x92, 0x01, 0x02] (a fixarray of
    the integers 1 and 2) with an element decoder that records the index
    it is given.  [SafeDecoder.readArray] calls it with the indices 0 and
    1; the facade's [Decoder.readArray] calls it without an index for both
    elements, and does so for every element decoder. *)
Theorem Decoder_readArray_omits_index :
  let buf := Reader.create (bytes [0x92; 0x01; 0x02]) in
  SafeDecoder.readArray
    (fun i => x <- SafeDecoder.readInt64 ;;
              ret (match x with Ok v => Ok (i, v) | Err e => Err e end)) buf
  = Done (Ok [(Some 0, 1); (Some 1, 2)]) (Reader.advance buf 3)
  /\ Decoder.readArray (fun i => x <- Decoder.readInt64 ;; ret (i, x)) buf
     = Done [(None, 1); (None, 2)] (Reader.advance buf 3)
  /\ (forall (T : Type) (fn : Decoder.ElementFn T) (r : DataReader),
        Decoder.readArray fn r = Decoder.readArray (fun _ => fn None) r).
Proof.
  split; [reflexivity|]. split; [reflexivity|].
  intros T fn r. unfold Decoder.readArray, bind.
  destruct (Decoder.readArraySize r) as [size r1|e r1]; [|reflexivity].
  apply Decoder_readArray_loop_no_index.
Qed.

(** ** The cursor after a rejected tag *)

Lemma getUint8_inv (r r1 : DataReader) (p : Z) :
  Reader.getUint8 r = Done p r1 -> r1 = Reader.advance r 1.
Proof.
  unfold Reader.getUint8. intros H.
  apply bind_inv in H as (bs & r2 & Ht & H).
  pose proof (take_offset "getUint8" 1 r) as O. rewrite Ht in O.
  injection H as _ <-. exact O.
Qed.

Lemma isNextNil_false_inv (r r1 : DataReader) :
  SafeDecoder.isNextNil r = Done false r1 -> r1 = r.
Proof.
  unfold SafeDecoder.isNextNil, Reader.peekUint8, bind.
  destruct (Reader.remaining r) as [|b rest]; [discriminate|].
  destruct (Z_of_byte b =? Format.NIL).
  - destruct (Reader.discard 1 r); discriminate.
  - intros H. injection H as <-. reflexivity.
Qed.

(** A read that starts with the lead byte and dispatches on it. *)
Ltac rejected_tag :=
  let r := fresh "r" in let r' := fresh "r'" in let e := fresh "e" in
  let H := fresh "H" in let K := fresh "K" in
  let p := fresh "p" in let r1 := fresh "r1" in let Hg := fresh "Hg" in
  intros r r' e H K;
  apply bind_inv in H as (p & r1 & Hg & H);
  apply getUint8_inv in Hg; subst r1;
  repeat match type of H with
  | context [if ?c then _ else _] => destruct c
  end;
  try (let x := fresh "x" in let r2 := fresh "r2" in
       let Hx := fresh "Hx" in
       apply bind_inv in H as (x & r2 & Hx & H));
  repeat match type of H with
  | context [if ?c then _ else _] => destruct c
  end;
  try discriminate H;
  injection H as <- <-;
  first [reflexivity | destruct K as [K|K]; discriminate K].

(** A read that delegates to another one and checks its result. *)
Ltac rejected_tag_via L :=
  let r := fresh "r" in let r' := fresh "r'" in let e := fresh "e" in
  let H := fresh "H" in let K := fresh "K" in
  let x := fresh "x" in let r1 := fresh "r1" in let Hx := fresh "Hx" in
  intros r r' e H K;
  apply bind_inv in H as ([x|x] & r1 & Hx & H);
  [ try (let y := fresh "y" in let r2 := fresh "r2" in
         let Hy := fresh "Hy" in
         apply bind_inv in H as (y & r2 & Hy & H));
    repeat match type of H with
    | context [if ?c then _ else _] => destruct c
    end;
    try discriminate H;
    injection H as <- <-; destruct K as [K|K]; discriminate K
  | injection H as <- <-; eapply L; [exact Hx | exact K] ].

Lemma readBool_rejected : consumes_rejected_tag SafeDecoder.readBool.
Proof. unfold consumes_rejected_tag, SafeDecoder.readBool. rejected_tag. Qed.

Lemma readInt64_rejected : consumes_rejected_tag SafeDecoder.readInt64.
Proof. unfold consumes_rejected_tag, SafeDecoder.readInt64. rejected_tag. Qed.

Lemma readUInt64_rejected : consumes_rejected_tag SafeDecoder.readUInt64.
Proof.
  unfold consumes_rejected_tag, SafeDecoder.readUInt64. rejected_tag.
Qed.

Lemma readFloat32_rejected (F : FloatOps) :
  consumes_rejected_tag SafeDecoder.readFloat32.
Proof.
  unfold consumes_rejected_tag, SafeDecoder.readFloat32. rejected_tag.
Qed.

Lemma readFloat64_rejected (F : FloatOps) :
  consumes_rejected_tag SafeDecoder.readFloat64.
Proof.
  unfold consumes_rejected_tag, SafeDecoder.readFloat64. rejected_tag.
Qed.

Lemma readStringLength_rejected :
  consumes_rejected_tag SafeDecoder.readStringLength.
Proof.
  unfold consumes_rejected_tag, SafeDecoder.readStringLength. rejected_tag.
Qed.

Lemma readArraySize_rejected :
  consumes_rejected_tag SafeDecoder.readArraySize.
Proof.
  unfold consumes_rejected_tag, SafeDecoder.readArraySize. rejected_tag.
Qed.

Lemma readMapSize_rejected : consumes_rejected_tag SafeDecoder.readMapSize.
Proof.
  unfold consumes_rejected_tag, SafeDecoder.readMapSize. rejected_tag.
Qed.

Lemma readBinLength_rejected :
  consumes_rejected_tag SafeDecoder.readBinLength.
Proof.
  unfold consumes_rejected_tag, SafeDecoder.readBinLength.
  intros r r' e H K.
  apply bind_inv in H as ([|] & r0 & Hn & H); [discriminate H|].
  apply isNextNil_false_inv in Hn. subst r0.
  revert r r' e H K. rejected_tag.
Qed.

Lemma readInt8_rejected : consumes_rejected_tag SafeDecoder.readInt8.
Proof.
  unfold consumes_rejected_tag at 1, SafeDecoder.readInt8.
  rejected_tag_via readInt64_rejected.
Qed.

Lemma readInt16_rejected : consumes_rejected_tag SafeDecoder.readInt16.
Proof.
  unfold consumes_rejected_tag at 1, SafeDecoder.readInt16.
  rejected_tag_via readInt64_rejected.
Qed.

Lemma readInt32_rejected : consumes_rejected_tag SafeDecoder.readInt32.
Proof.
  unfold consumes_rejected_tag at 1, SafeDecoder.readInt32.
  rejected_tag_via readInt64_rejected.
Qed.

Lemma readUInt8_rejected : consumes_rejected_tag SafeDecoder.readUInt8.
Proof.
  unfold consumes_rejected_tag at 1, SafeDecoder.readUInt8.
  rejected_tag_via readUInt64_rejected.
Qed.

Lemma readUInt16_rejected : consumes_rejected_tag SafeDecoder.readUInt16.
Proof.
  unfold consumes_rejected_tag at 1, SafeDecoder.readUInt16.
  rejected_tag_via readUInt64_rejected.
Qed.

Lemma readUInt32_rejected : consumes_rejected_tag SafeDecoder.readUInt32.
Proof.
  unfold consumes_rejected_tag at 1, SafeDecoder.readUInt32.
  rejected_tag_via readUInt64_rejected.
Qed.

Lemma readString_rejected (S : StringOps) :
  consumes_rejected_tag SafeDecoder.readString.
Proof.
  unfold consumes_rejected_tag at 1, SafeDecoder.readString.
  rejected_tag_via readStringLength_rejected.
Qed.

Lemma readByteArray_rejected :
  consumes_rejected_tag SafeDecoder.readByteArray.
Proof.
  unfold consumes_rejected_tag at 1, SafeDecoder.readByteArray.
  rejected_tag_via readBinLength_rejected.
Qed.

Lemma size_error_kind (size : M (Result Z)) (r r' : DataReader) (e : Error) :
  size = SafeDecoder.readArraySize \/ size = SafeDecoder.readMapSize ->
  size r = Done (Err e) r' ->
  kind e = InvalidLength /\ r' = Reader.advance r 1.
Proof.
  intros S H.
  assert (K : kind e = InvalidLength).
  { destruct S; subst size;
      [unfold SafeDecoder.readArraySize in H
      |unfold SafeDecoder.readMapSize in H];
      apply bind_inv in H as (p & r1 & _ & H);
      repeat match type of H with
      | context [if ?c then _ else _] => destruct c
      end;
      try (apply bind_inv in H as (x & r2 & _ & H));
      try discriminate H; injection H as <- _; reflexivity. }
  split; [exact K|].
  destruct S; subst size.
  - apply (readArraySize_rejected r r' e H). right. exact K.
  - apply (readMapSize_rejected r r' e H). right. exact K.
Qed.

Lemma readArray_size_fails {T} (fn : SafeDecoder.ElementFn T) :
  fails_with_size SafeDecoder.readArraySize (SafeDecoder.readArray fn).
Proof.
  intros r r' e H. split.
  - unfold SafeDecoder.readArray. run_read H. reflexivity.
  - apply (size_error_kind _ r r' e (or_introl eq_refl) H).
Qed.

Lemma readMap_size_fails {K V} (eqb : K -> K -> bool)
  (keyFn : SafeDecoder.ElementFn K) (valueFn : SafeDecoder.ElementFn V) :
  fails_with_size SafeDecoder.readMapSize
    (SafeDecoder.readMap eqb keyFn valueFn).
Proof.
  intros r r' e H. split.
  - unfold SafeDecoder.readMap. run_read H. reflexivity.
  - apply (size_error_kind _ r r' e (or_intror eq_refl) H).
Qed.

(** A lead byte that [readArraySize] rejects is not nil. *)
Lemma readArraySize_rejects_not_nil (r r' : DataReader) (e : Error) :
  SafeDecoder.readArraySize r = Done (Err e) r' ->
  SafeDecoder.isNextNil r = Done false r.
Proof.
  intros H. unfold SafeDecoder.readArraySize in H.
  destruct (Reader.remaining r) as [|b rest] eqn:R.
  - unfold Reader.getUint8 in H.
    rewrite (bind_Thrown _ _ _ _ _
               (bind_Thrown _ _ _ _ _ (take_short "getUint8" r 1
                  ltac:(rewrite R; cbn; lia)))) in H.
    discriminate H.
  - apply (isNextNil_other r b rest R). intros E.
    rewrite (bind_Done _ _ _ _ _ (getUint8_at r b rest R)), E in H.
    revert H. eval_tests. discriminate.
Qed.

Lemma readNullableArray_size_fails {T} (fn : SafeDecoder.ElementFn T) :
  fails_with_size SafeDecoder.readArraySize
    (SafeDecoder.readNullableArray fn).
Proof.
  intros r r' e H. destruct (readArray_size_fails fn r r' e H) as [A O].
  split; [|exact O].
  unfold SafeDecoder.readNullableArray.
  run_read (readArraySize_rejects_not_nil r r' e H).
  run_read A. reflexivity.
Qed.

(** ** The cursor after any error *)

Lemma take_inv (method : string) (n : nat) (r r' : DataReader)
  (bs : list byte) :
  Reader.take method n r = Done bs r' -> r' = Reader.advance r n.
Proof.
  intros H. pose proof (take_offset method n r) as O. rewrite H in O.
  exact O.
Qed.

(** Where a cursor read that returned has left the cursor. *)
Ltac read_inv H :=
  first
    [ apply getUint8_inv in H
    | unfold Reader.getUint16, Reader.getUint32, Reader.getUint64,
        Reader.getInt8, Reader.getInt16, Reader.getInt32, Reader.getInt64,
        SafeDecoder.getFloat32, SafeDecoder.getFloat64 in H;
      let bs := fresh "bs" in let r3 := fresh "r3" in
      let Ht := fresh "Ht" in
      apply bind_inv in H as (bs & r3 & Ht & H);
      apply take_inv in Ht; injection H as _ H; subst r3; symmetry in H ].

Ltac not_restored :=
  let r := fresh "r" in let r' := fresh "r'" in let e := fresh "e" in
  let H := fresh "H" in
  let p := fresh "p" in let r1 := fresh "r1" in let Hg := fresh "Hg" in
  intros r r' e H;
  apply bind_inv in H as (p & r1 & Hg & H);
  apply getUint8_inv in Hg; subst r1;
  repeat match type of H with
  | context [if ?c then _ else _] => destruct c
  end;
  try (let x := fresh "x" in let r2 := fresh "r2" in
       let Hx := fresh "Hx" in
       apply bind_inv in H as (x & r2 & Hx & H);
       read_inv Hx; subst r2);
  repeat match type of H with
  | context [if ?c then _ else _] => destruct c
  end;
  try discriminate H;
  injection H as _ <-;
  (split; [reflexivity | cbn [Reader.advance byteOffset]; lia]).

Lemma readBool_not_restored : cursor_not_restored SafeDecoder.readBool.
Proof. unfold cursor_not_restored, SafeDecoder.readBool. not_restored. Qed.

Lemma readInt64_not_restored : cursor_not_restored SafeDecoder.readInt64.
Proof. unfold cursor_not_restored, SafeDecoder.readInt64. not_restored. Qed.

Lemma readUInt64_not_restored : cursor_not_restored SafeDecoder.readUInt64.
Proof. unfold cursor_not_restored, SafeDecoder.readUInt64. not_restored. Qed.

Lemma readFloat32_not_restored (F : FloatOps) :
  cursor_not_restored SafeDecoder.readFloat32.
Proof.
  unfold cursor_not_restored, SafeDecoder.readFloat32. not_restored.
Qed.

Lemma readFloat64_not_restored (F : FloatOps) :
  cursor_not_restored SafeDecoder.readFloat64.
Proof.
  unfold cursor_not_restored, SafeDecoder.readFloat64. not_restored.
Qed.

Lemma readStringLength_not_restored :
  cursor_not_restored SafeDecoder.readStringLength.
Proof.
  unfold cursor_not_restored, SafeDecoder.readStringLength. not_restored.
Qed.

Lemma readArraySize_not_restored :
  cursor_not_restored SafeDecoder.readArraySize.
Proof.
  unfold cursor_not_restored, SafeDecoder.readArraySize. not_restored.
Qed.

Lemma readMapSize_not_restored :
  cursor_not_restored SafeDecoder.readMapSize.
Proof.
  unfold cursor_not_restored, SafeDecoder.readMapSize. not_restored.
Qed.

Lemma readBinLength_not_restored :
  cursor_not_restored SafeDecoder.readBinLength.
Proof.
  unfold cursor_not_restored, SafeDecoder.readBinLength.
  intros r r' e H.
  apply bind_inv in H as ([|] & r0 & Hn & H); [discriminate H|].
  apply isNextNil_false_inv in Hn. subst r0.
  revert r r' e H. not_restored.
Qed.

(** A read that delegates to another one and checks its result. *)
Ltac not_restored_via L :=
  let r := fresh "r" in let r' := fresh "r'" in let e := fresh "e" in
  let H := fresh "H" in
  let x := fresh "x" in let r1 := fresh "r1" in let Hx := fresh "Hx" in
  intros r r' e H;
  apply bind_inv in H as ([x|x] & r1 & Hx & H);
  [ try (let y := fresh "y" in let r2 := fresh "r2" in
         let Hy := fresh "Hy" in
         apply bind_inv in H as (y & r2 & Hy & H));
    repeat match type of H with
    | context [if ?c then _ else _] => destruct c
    end;
    try discriminate H;
    injection H as _ <-
  | injection H as <- <-; eapply L; exact Hx ].

(** A value returned by one of the length or 64-bit readers leaves the
    cursor further than it was. *)
Lemma readInt64_advances (r r' : DataReader) (x : Result Z) :
  SafeDecoder.readInt64 r = Done x r' ->
  buffer r' = buffer r /\ (byteOffset r < byteOffset r')%nat.
Proof.
  unfold SafeDecoder.readInt64. intros H.
  apply bind_inv in H as (p & r1 & Hg & H).
  apply getUint8_inv in Hg; subst r1;
  repeat match type of H with
  | context [if ?c then _ else _] => destruct c
  end;
  try (apply bind_inv in H as (y & r2 & Hy & H); read_inv Hy; subst r2);
  repeat match type of H with
  | context [if ?c then _ else _] => destruct c
  end;
  injection H as _ <-;
  (split; [reflexivity | cbn [Reader.advance byteOffset]; lia]).
Qed.

Lemma readUInt64_advances (r r' : DataReader) (x : Result Z) :
  SafeDecoder.readUInt64 r = Done x r' ->
  buffer r' = buffer r /\ (byteOffset r < byteOffset r')%nat.
Proof.
  unfold SafeDecoder.readUInt64. intros H.
  apply bind_inv in H as (p & r1 & Hg & H).
  apply getUint8_inv in Hg; subst r1;
  repeat match type of H with
  | context [if ?c then _ else _] => destruct c
  end;
  try (apply bind_inv in H as (y & r2 & Hy & H); read_inv Hy; subst r2);
  repeat match type of H with
  | context [if ?c then _ else _] => destruct c
  end;
  injection H as _ <-;
  (split; [reflexivity | cbn [Reader.advance byteOffset]; lia]).
Qed.

Lemma readInt8_not_restored : cursor_not_restored SafeDecoder.readInt8.
Proof.
  unfold cursor_not_restored at 1, SafeDecoder.readInt8.
  not_restored_via readInt64_not_restored.
  apply (readInt64_advances _ _ _ Hx).
Qed.

Lemma readInt16_not_restored : cursor_not_restored SafeDecoder.readInt16.
Proof.
  unfold cursor_not_restored at 1, SafeDecoder.readInt16.
  not_restored_via readInt64_not_restored.
  apply (readInt64_advances _ _ _ Hx).
Qed.

Lemma readInt32_not_restored : cursor_not_restored SafeDecoder.readInt32.
Proof.
  unfold cursor_not_restored at 1, SafeDecoder.readInt32.
  not_restored_via readInt64_not_restored.
  apply (readInt64_advances _ _ _ Hx).
Qed.

Lemma readUInt8_not_restored : cursor_not_restored SafeDecoder.readUInt8.
Proof.
  unfold cursor_not_restored at 1, SafeDecoder.readUInt8.
  not_restored_via readUInt64_not_restored.
  apply (readUInt64_advances _ _ _ Hx).
Qed.

Lemma readUInt16_not_restored : cursor_not_restored SafeDecoder.readUInt16.
Proof.
  unfold cursor_not_restored at 1, SafeDecoder.readUInt16.
  not_restored_via readUInt64_not_restored.
  apply (readUInt64_advances _ _ _ Hx).
Qed.

Lemma readUInt32_not_restored : cursor_not_restored SafeDecoder.readUInt32.
Proof.
  unfold cursor_not_restored at 1, SafeDecoder.readUInt32.
  not_restored_via readUInt64_not_restored.
  apply (readUInt64_advances _ _ _ Hx).
Qed.

Lemma readString_not_restored (S : StringOps) :
  cursor_not_restored SafeDecoder.readString.
Proof.
  unfold cursor_not_restored at 1, SafeDecoder.readString.
  not_restored_via readStringLength_not_restored.
Qed.

Lemma readByteArray_not_restored :
  cursor_not_restored SafeDecoder.readByteArray.
Proof.
  unfold cursor_not_restored at 1, SafeDecoder.readByteArray.
  not_restored_via readBinLength_not_restored.
Qed.

(** ** The typed readers on encoded leaves *)

Lemma getFloat32_at (r : DataReader) (bs suf : list byte) :
  Reader.remaining r = bs ++ suf -> List.length bs = 4%nat ->
  SafeDecoder.getFloat32 r = Done (be_uint bs) (Reader.advance r 4).
Proof.
  intros H L. unfold SafeDecoder.getFloat32. rewrite <- L.
  rewrite (bind_Done _ _ _ _ _ (take_at _ r bs suf H)). reflexivity.
Qed.

Lemma getFloat64_at (r : DataReader) (bs suf : list byte) :
  Reader.remaining r = bs ++ suf -> List.length bs = 8%nat ->
  SafeDecoder.getFloat64 r = Done (be_uint bs) (Reader.advance r 8).
Proof.
  intros H L. unfold SafeDecoder.getFloat64. rewrite <- L.
  rewrite (bind_Done _ _ _ _ _ (take_at _ r bs suf H)). reflexivity.
Qed.

Lemma as_u32_small (z : Z) : 0 <= z < 2 ^ 32 -> as_u32 z = z.
Proof. apply as_unsigned_small. Qed.

Lemma fixstr_lead (n : Z) :
  0 <= n < 32 ->
  let b := byte_of_Z (Format.FIXSTR + n) in
  SafeDecoder.isFixedString (Z_of_byte b) = true
  /\ Z.land (Z_of_byte b) 0x1f = n.
Proof.
  intros Hn b.
  assert (E : Z_of_byte b = 160 + n)
    by (subst b; unfold_format; apply Z_of_byte_of_Z; lia).
  split.
  - rewrite isFixedString_byte, E.
    apply andb_true_intro. split; [apply Z.leb_le | apply Z.ltb_lt]; lia.
  - rewrite land_0x1f_byte, E. apply (mod_shift 5 32). lia.
Qed.

Lemma readStringLength_encoded (t : leaf) (p suf : list byte)
  (r : DataReader) :
  leaf_wf t p = true ->
  Reader.remaining r = leaf_header t p ++ p ++ suf ->
  match t with
  | LFixStr | LStr8 | LStr16 | LStr32 =>
      SafeDecoder.readStringLength r
      = Done (Ok (len p)) (Reader.advance r (List.length (leaf_header t p)))
  | _ => True
  end.
Proof.
  intros W H. pose proof (len_nonneg p) as Hp.
  destruct t; try exact I; cbn [leaf_header leaf_wf] in *; wf_hyps;
    cbn [app] in H; pose proof (remaining_advance_1 _ _ _ H) as R1;
    unfold SafeDecoder.readStringLength; run_read (getUint8_at _ _ _ H).
  - destruct (fixstr_lead (len p) ltac:(lia)) as [Hs Hm].
    rewrite Hs, Hm. same_cursor.
  - eval_tests.
    run_read (getUint8_bytes_at _ _ _ R1 (be_bytes_length _ _)).
    rewrite be_uint_be_bytes_1, as_u32_small by lia. same_cursor.
  - eval_tests.
    run_read (getUint16_at _ _ _ R1 (be_bytes_length _ _)).
    rewrite be_uint_be_bytes_2, as_u32_small by lia. same_cursor.
  - eval_tests.
    run_read (getUint32_at _ _ _ R1 (be_bytes_length _ _)).
    rewrite be_uint_be_bytes_4 by lia. same_cursor.
Qed.

Lemma readBinLength_encoded (t : leaf) (p suf : list byte)
  (r : DataReader) :
  leaf_wf t p = true ->
  Reader.remaining r = leaf_header t p ++ p ++ suf ->
  match t with
  | LBin8 | LBin16 | LBin32 =>
      SafeDecoder.readBinLength r
      = Done (Ok (len p)) (Reader.advance r (List.length (leaf_header t p)))
  | _ => True
  end.
Proof.
  intros W H. pose proof (len_nonneg p) as Hp.
  destruct t; try exact I; cbn [leaf_header leaf_wf] in *; wf_hyps;
    cbn [app] in H; pose proof (remaining_advance_1 _ _ _ H) as R1;
    unfold SafeDecoder.readBinLength;
    run_read (isNextNil_other _ _ _ H ltac:(vm_compute; discriminate));
    run_read (getUint8_at _ _ _ H); eval_tests.
  - run_read (getUint8_bytes_at _ _ _ R1 (be_bytes_length _ _)).
    rewrite be_uint_be_bytes_1, as_u32_small by lia. same_cursor.
  - run_read (getUint16_at _ _ _ R1 (be_bytes_length _ _)).
    rewrite be_uint_be_bytes_2, as_u32_small by lia. same_cursor.
  - run_read (getUint32_at _ _ _ R1 (be_bytes_length _ _)).
    rewrite be_uint_be_bytes_4 by lia. same_cursor.
Qed.

(** The typed readers consume exactly the own bytes of the value they
    decode. *)
Lemma leaf_reader_consumes (t : leaf) (p suf : list byte) (r : DataReader) :
  leaf_wf t p = true ->
  Reader.remaining r = encode (Leaf t p) ++ suf ->
  reader_consumes (Leaf t p) r.
Proof.
  intros W H. unfold reader_consumes. cbn [own_bytes].
  pose proof (len_nonneg p) as Hp.
  cbn [encode] in *. rewrite <- app_assoc in H.
  pose proof (readStringLength_encoded t p suf r W H) as HS.
  pose proof (readBinLength_encoded t p suf r W H) as HB.
  pose proof (remaining_advance_app _ _ _ H) as R.
  destruct t; try exact I;
    try (intros S; unfold SafeDecoder.readString; run_read HS;
         run_read (getBytes_at _ _ _ R); same_cursor);
    try (unfold SafeDecoder.readByteArray; run_read HB;
         run_read (getBytes_at _ _ _ R); same_cursor);
    clear HS HB R;
    cbn [leaf_header leaf_wf] in *; wf_hyps;
    cbn [app] in H; pose proof (remaining_advance_1 _ _ _ H) as R1.
  - rewrite (isNextNil_nil _ _ _ H eq_refl). same_cursor.
  - unfold SafeDecoder.readBool. run_read (getUint8_at _ _ _ H).
    eval_tests. same_cursor.
  - unfold SafeDecoder.readBool. run_read (getUint8_at _ _ _ H).
    eval_tests. same_cursor.
  - unfold SafeDecoder.readInt64. run_read (getUint8_at _ _ _ H).
    pose proof (Z_of_byte_of_Z n ltac:(lia)) as E.
    split_tests. rewrite E. unfold as_i64.
    rewrite as_signed_nonneg by lia. same_cursor.
  - unfold SafeDecoder.readInt64. run_read (getUint8_at _ _ _ H).
    pose proof (Z_of_byte_of_Z (256 + n) ltac:(lia)) as E.
    split_tests. rewrite E. unfold as_i64, as_i8.
    rewrite (as_signed_wrap 8) by lia.
    rewrite as_signed_small by lia.
    replace (256 + n - 2 ^ 8) with n by lia. same_cursor.
  - intros F. unfold SafeDecoder.readFloat32.
    run_read (getUint8_at _ _ _ H). eval_tests.
    run_read (getFloat32_at _ p suf R1 ltac:(unfold len in *; lia)).
    same_cursor.
  - intros F. unfold SafeDecoder.readFloat64.
    run_read (getUint8_at _ _ _ H). eval_tests.
    run_read (getFloat64_at _ p suf R1 ltac:(unfold len in *; lia)).
    same_cursor.
  - unfold SafeDecoder.readInt64. run_read (getUint8_at _ _ _ H).
    eval_tests.
    run_read (getUint8_bytes_at _ p suf R1 ltac:(unfold len in *; lia)).
    eexists. same_cursor.
  - unfold SafeDecoder.readInt64. run_read (getUint8_at _ _ _ H).
    eval_tests.
    run_read (getUint16_at _ p suf R1 ltac:(unfold len in *; lia)).
    eexists. same_cursor.
  - unfold SafeDecoder.readInt64. run_read (getUint8_at _ _ _ H).
    eval_tests.
    run_read (getUint32_at _ p suf R1 ltac:(unfold len in *; lia)).
    eexists. same_cursor.
  - unfold SafeDecoder.readInt64. run_read (getUint8_at _ _ _ H).
    eval_tests.
    run_read (getUint64_at _ p suf R1 ltac:(unfold len in *; lia)).
    destruct (be_uint p <=? as_u64 i64_MAX_VALUE); eexists; same_cursor.
  - unfold SafeDecoder.readInt64. run_read (getUint8_at _ _ _ H).
    eval_tests.
    run_read (getInt8_at _ p suf R1 ltac:(unfold len in *; lia)).
    eexists. same_cursor.
  - unfold SafeDecoder.readInt64. run_read (getUint8_at _ _ _ H).
    eval_tests.
    run_read (getInt16_at _ p suf R1 ltac:(unfold len in *; lia)).
    eexists. same_cursor.
  - unfold SafeDecoder.readInt64. run_read (getUint8_at _ _ _ H).
    eval_tests.
    run_read (getInt32_at _ p suf R1 ltac:(unfold len in *; lia)).
    eexists. same_cursor.
  - unfold SafeDecoder.readInt64. run_read (getUint8_at _ _ _ H).
    eval_tests.
    run_read (getInt64_at _ p suf R1 ltac:(unfold len in *; lia)).
    eexists. same_cursor.
Qed.

(** On a well-formed encoded value the matching reader consumes the
    value's own bytes, and what remains are the encodings of the
    children. *)
Lemma reader_consumes_encoded (v : msg) (suf : list byte) (r : DataReader) :
  wf v = true ->
  Reader.remaining r = encode v ++ suf ->
  reader_consumes v r
  /\ Reader.remaining (Reader.advance r (List.length (own_bytes v)))
     = flat_map encode (children v) ++ suf.
Proof.
  intros W H.
  split;
    [|rewrite encode_own_children, <- app_assoc in H;
      apply (remaining_advance_app _ _ _ H)].
  destruct v as [t p|f elems|f pairs];
    [apply (leaf_reader_consumes t p suf r W H)| |];
    rewrite encode_own_children, <- app_assoc in H;
    unfold reader_consumes;
    cbn [wf own_bytes] in *; apply andb_prop in W; destruct W as [W _];
    set (n := Z.of_nat (List.length _)) in *;
    assert (Hn : 0 <= n) by (subst n; lia); clearbody n.
  - unfold SafeDecoder.readArraySize.
    destruct f; cbn [arr_header arr_wf] in *; wf_hyps; cbn [app] in H;
      run_read (getUint8_at _ _ _ H);
      pose proof (remaining_advance_1 _ _ _ H) as R1.
    + set (b := byte_of_Z (Format.FIXARRAY + n)) in *.
      assert (E : Z_of_byte b = 144 + n)
        by (subst b; unfold_format; apply Z_of_byte_of_Z; lia).
      assert (Hm : Z.land (Z_of_byte b) 0x0f = n).
      { rewrite land_0x0f_byte, E. apply (mod_shift 9 16). lia. }
      rewrite as_u32_land_0x0f, Hm. split_tests. same_cursor.
    + eval_tests.
      run_read (getUint16_at _ _ _ R1 (be_bytes_length _ _)).
      rewrite be_uint_be_bytes_2, as_u32_small by lia. same_cursor.
    + eval_tests.
      run_read (getUint32_at _ _ _ R1 (be_bytes_length _ _)).
      rewrite be_uint_be_bytes_4 by lia. same_cursor.
  - unfold SafeDecoder.readMapSize.
    destruct f; cbn [map_header map_wf] in *; wf_hyps; cbn [app] in H;
      run_read (getUint8_at _ _ _ H);
      pose proof (remaining_advance_1 _ _ _ H) as R1.
    + set (b := byte_of_Z (Format.FIXMAP + n)) in *.
      assert (E : Z_of_byte b = 128 + n)
        by (subst b; unfold_format; apply Z_of_byte_of_Z; lia).
      assert (Hm : Z.land (Z_of_byte b) 0x0f = n).
      { rewrite land_0x0f_byte, E. apply (mod_shift 8 16). lia. }
      rewrite as_u32_land_0x0f, Hm. split_tests. same_cursor.
    + eval_tests.
      run_read (getUint16_at _ _ _ R1 (be_bytes_length _ _)).
      rewrite be_uint_be_bytes_2, as_u32_small by lia. same_cursor.
    + eval_tests.
      run_read (getUint32_at _ _ _ R1 (be_bytes_length _ _)).
      rewrite be_uint_be_bytes_4 by lia. same_cursor.
Qed.

(** C1. For a well-formed encoded value at the cursor, in a buffer whose
    length is an [i32], [skip] returns with the cursor advanced by exactly
    the length of the value's encoding, whatever the nesting depth, and
    [getSize] returns the number of child objects of the value (0 for a
    scalar, N for an array of N elements, 2N for a map of N pairs) with
    the cursor after the value's own bytes.  The encodings cover every tag
    of the tag table, the three width classes of bin, str, array and map,
    and the fixed extensions with their payloads of 2, 3, 5, 9 and 17
    bytes.  A decode consumes the same bytes: the typed reader of the
    value's tag consumes the value's own bytes, and the encoding is these
    bytes followed by the encodings of the children. *)
Theorem skip_advances_by_encoding (v : msg) (fuel : nat) (r : DataReader)
  (suf : list byte) :
  wf v = true ->
  Reader.remaining r = encode v ++ suf ->
  Z.of_nat (List.length (buffer r)) < 2 ^ 31 ->
  (2 * List.length (encode v) <= fuel)%nat ->
  SafeDecoder.skip fuel r
  = Some (Done tt (Reader.advance r (List.length (encode v))))
  /\ SafeDecoder.getSize r
     = Done (children_count v)
         (Reader.advance r (List.length (own_bytes v)))
  /\ children_count v
     = match v with
       | Leaf _ _ => 0
       | Arr _ elems => Z.of_nat (List.length elems)
       | Map _ pairs => 2 * Z.of_nat (List.length pairs)
       end
  /\ reader_consumes v r
  /\ encode v = own_bytes v ++ flat_map encode (children v).
Proof.
  intros W H B F. split; [|split; [|split; [|split]]].
  - apply (skip_encoded v fuel r suf W H B F).
  - apply (getSize_encoded v r suf W H).
    pose proof (remaining_length_le r) as L. rewrite H, length_app in L.
    unfold len. lia.
  - destruct v; reflexivity.
  - apply (reader_consumes_encoded v suf r W H).
  - apply encode_own_children.
Qed.

(** The map16 of the specification's scenario, ten arrays deep: [skip]
    leaves the cursor at the end of the buffer. *)
Lemma skip_advances_by_encoding_witness :
  wf sample_nested = true
  /\ Reader.remaining (Reader.create (encode sample_nested))
     = encode sample_nested ++ []
  /\ Z.of_nat (List.length (buffer (Reader.create (encode sample_nested))))
     < 2 ^ 31
  /\ (2 * List.length (encode sample_nested) <= 100)%nat
  /\ SafeDecoder.skip 100 (Reader.create (encode sample_nested))
     = Some (Done tt (Reader.advance (Reader.create (encode sample_nested))
                        (List.length (encode sample_nested)))).
Proof.
  split; [reflexivity|]. split; [reflexivity|]. split; [reflexivity|].
  split; [apply Nat.leb_le; reflexivity|].
  apply (skip_advances_by_encoding sample_nested 100
           (Reader.create (encode sample_nested)) []).
  - reflexivity.
  - reflexivity.
  - reflexivity.
  - apply Nat.leb_le. reflexivity.
Defined.

Example skip_sample_ext :
  encode sample_ext = bytes [0x81; 0xd4; 5; 7; 0xd9; 2; 104; 105]
  /\ SafeDecoder.skip 16 (Reader.create (encode sample_ext))
     = Some (Done tt (mkReader (encode sample_ext) 8)).
Proof. split; reflexivity. Qed.

(** ** The scenarios of the specification *)

Example scenario_readArray_fixarray :
  SafeDecoder.readArray (fun _ => SafeDecoder.readInt64)
    (Reader.create (bytes [0x91; 0x01]))
  = Done (Ok [1]) (mkReader (bytes [0x91; 0x01]) 2).
Proof. reflexivity. Qed.

Example scenario_isNextNil :
  SafeDecoder.isNextNil (Reader.create (bytes [0xc0]))
  = Done true (mkReader (bytes [0xc0]) 1).
Proof. reflexivity. Qed.

Example scenario_uint8_128_as_int8 :
  SafeDecoder.readInt8 (Reader.create (bytes [0xcc; 0x80]))
  = Done (Err (IntOverflow 128 8)) (mkReader (bytes [0xcc; 0x80]) 2).
Proof. reflexivity. Qed.

Example scenario_skip_map16 :
  encode sample_map = bytes [0xde; 0x00; 0x02; 0x01; 0x90; 0xfe; 0x90]
  /\ SafeDecoder.skip 14 (Reader.create (encode sample_map))
     = Some (Done tt (mkReader (encode sample_map) 7))
  /\ Reader.remaining (mkReader (encode sample_map) 7) = [].
Proof. repeat split. Qed.

(** * Further properties of the decoder *)

(** ** Exhausted and truncated input *)

Lemma getUint8_exhausted (r : DataReader) :
  Reader.remaining r = [] ->
  Reader.getUint8 r = Thrown (BufferUnderrun "getUint8" 1) r.
Proof.
  intros H. unfold Reader.getUint8.
  apply bind_Thrown. apply (take_short "getUint8" r 1).
  rewrite H. cbn [List.length]. lia.
Qed.

Lemma peekUint8_exhausted (r : DataReader) :
  Reader.remaining r = [] ->
  Reader.peekUint8 r = Thrown (BufferUnderrun "peekUint8" 1) r.
Proof. intros H. unfold Reader.peekUint8. rewrite H. reflexivity. Qed.

(** X1. On an exhausted buffer no reader returns a [Result]: every read of
    [SafeDecoder] throws the cursor's underrun, from its first cursor
    access, and leaves the cursor where it was; so do [getSize], [skip]
    and the generic container readers, whatever the element decoders. *)
Theorem exhausted_buffer_throws (r : DataReader) :
  Reader.remaining r = [] ->
  let get (A : Type) : outcome A :=
    Thrown (BufferUnderrun "getUint8" 1) r in
  let peek (A : Type) : outcome A :=
    Thrown (BufferUnderrun "peekUint8" 1) r in
  (SafeDecoder.isNextNil r = peek _
   /\ SafeDecoder.readBool r = get _
   /\ SafeDecoder.readInt8 r = get _
   /\ SafeDecoder.readInt16 r = get _
   /\ SafeDecoder.readInt32 r = get _
   /\ SafeDecoder.readInt64 r = get _
   /\ SafeDecoder.readUInt8 r = get _
   /\ SafeDecoder.readUInt16 r = get _
   /\ SafeDecoder.readUInt32 r = get _
   /\ SafeDecoder.readUInt64 r = get _
   /\ SafeDecoder.readStringLength r = get _
   /\ (forall S : StringOps, SafeDecoder.readString r = get _)
   /\ SafeDecoder.readBinLength r = peek _
   /\ SafeDecoder.readByteArray r = peek _
   /\ SafeDecoder.readArraySize r = get _
   /\ SafeDecoder.readMapSize r = get _
   /\ SafeDecoder.getSize r = get _)
  /\ (forall F : FloatOps,
        SafeDecoder.readFloat32 r = get _ /\ SafeDecoder.readFloat64 r = get _)
  /\ (forall fuel, SafeDecoder.skip (S fuel) r = Some (get _))
  /\ (forall (T : Type) (fn : SafeDecoder.ElementFn T),
        SafeDecoder.readArray fn r = get _
        /\ SafeDecoder.readNullableArray fn r = peek _)
  /\ (forall (K V : Type) (eqb : K -> K -> bool)
        (keyFn : SafeDecoder.ElementFn K) (valueFn : SafeDecoder.ElementFn V),
        SafeDecoder.readMap eqb keyFn valueFn r = get _
        /\ SafeDecoder.readNullableMap eqb keyFn valueFn r = peek _).
Proof.
  intros H get peek.
  pose proof (getUint8_exhausted r H) as G.
  pose proof (peekUint8_exhausted r H) as P.
  assert (N : SafeDecoder.isNextNil r = peek _)
    by (apply bind_Thrown; exact P).
  assert (I64 : SafeDecoder.readInt64 r = get _)
    by (apply bind_Thrown; exact G).
  assert (U64 : SafeDecoder.readUInt64 r = get _)
    by (apply bind_Thrown; exact G).
  assert (SL : SafeDecoder.readStringLength r = get _)
    by (apply bind_Thrown; exact G).
  assert (BL : SafeDecoder.readBinLength r = peek _)
    by (apply bind_Thrown; exact N).
  assert (AS : SafeDecoder.readArraySize r = get _)
    by (apply bind_Thrown; exact G).
  assert (MS : SafeDecoder.readMapSize r = get _)
    by (apply bind_Thrown; exact G).
  assert (GS : SafeDecoder.getSize r = get _)
    by (apply bind_Thrown; exact G).
  repeat match goal with |- _ /\ _ => split end;
    try assumption;
    try (apply bind_Thrown; assumption);
    try (intros S; apply bind_Thrown; assumption).
  - intros F. split; apply bind_Thrown; exact G.
  - intros fuel. rewrite skip_S, GS. reflexivity.
  - intros T fn. split; apply bind_Thrown; assumption.
  - intros K V eqb keyFn valueFn. split; apply bind_Thrown; assumption.
Qed.

Lemma exhausted_buffer_throws_witness :
  Reader.remaining (Reader.create []) = []
  /\ SafeDecoder.readInt64 (Reader.create [])
     = Thrown (BufferUnderrun "getUint8" 1) (Reader.create []).
Proof.
  split; [reflexivity|].
  apply (exhausted_buffer_throws (Reader.create []) eq_refl).
Defined.

Lemma bind_Thrown_inv {A B} (c : M A) (k : A -> M B) r e r2 :
  bind c k r = Thrown e r2 ->
  c r = Thrown e r2 \/ exists a r1, c r = Done a r1 /\ k a r1 = Thrown e r2.
Proof.
  unfold bind. destruct (c r) as [a r1|e1 r1]; intros H.
  - right. exists a, r1. split; [reflexivity | exact H].
  - left. injection H as <- <-. reflexivity.
Qed.

(** The lengths the length readers return are [u32] values. *)
Lemma length_readers_range (r r' : DataReader) (n : Z) :
  SafeDecoder.readStringLength r = Done (Ok n) r'
  \/ SafeDecoder.readBinLength r = Done (Ok n) r'
  \/ SafeDecoder.readArraySize r = Done (Ok n) r'
  \/ SafeDecoder.readMapSize r = Done (Ok n) r' ->
  0 <= n < 2 ^ 32.
Proof.
  assert (U : forall z, 0 <= as_u32 z < 2 ^ 32)
    by (intros z; apply Z.mod_pos_bound; lia).
  assert (G : forall r r' v, Reader.getUint32 r = Done v r' ->
                0 <= v < 2 ^ 32).
  { intros r0 r0' v H. unfold Reader.getUint32 in H.
    apply bind_inv in H as (bs & r1 & Ht & H).
    apply take_length in Ht. injection H as <- _.
    pose proof (be_uint_range bs) as Hr. unfold len in Hr.
    rewrite Ht in Hr. exact Hr. }
  assert (L : forall p, 0 <= Z.land (Z_of_byte p) 31 < 2 ^ 32).
  { intros p. rewrite land_0x1f_byte.
    pose proof (Z.mod_pos_bound (Z_of_byte p) 32 ltac:(lia)). lia. }
  intros [H|[H|[H|H]]].
  - unfold SafeDecoder.readStringLength in H.
    apply bind_inv in H as (p & r1 & Hp & H).
    assert (exists b, p = Z_of_byte b) as [b ->].
    { exists (byte_of_Z p). unfold Reader.getUint8 in Hp.
      apply bind_inv in Hp as (bs & r2 & Ht & Hp).
      pose proof (take_length _ _ _ _ _ Ht) as Hl.
      destruct bs as [|b0 [|]]; try discriminate Hl.
      injection Hp as <- _. rewrite be_uint_single, byte_of_Z_of_byte.
      reflexivity. }
    repeat match type of H with
    | context [if ?c then _ else _] => destruct c
    end;
    try (apply bind_inv in H as (x & r2 & Hx & H));
    try discriminate H; injection H as <- _;
    first [apply L | apply U | apply (G _ _ _ Hx)].
  - unfold SafeDecoder.readBinLength in H.
    apply bind_inv in H as ([|] & r0 & _ & H);
      [injection H as <- _; lia|].
    apply bind_inv in H as (p & r1 & Hp & H).
    repeat match type of H with
    | context [if ?c then _ else _] => destruct c
    end;
    try (apply bind_inv in H as (x & r2 & Hx & H));
    try discriminate H; injection H as <- _;
    first [apply U | apply (G _ _ _ Hx)].
  - unfold SafeDecoder.readArraySize in H.
    apply bind_inv in H as (p & r1 & Hp & H).
    repeat match type of H with
    | context [if ?c then _ else _] => destruct c
    end;
    try (apply bind_inv in H as (x & r2 & Hx & H));
    try discriminate H; injection H as <- _;
    first [lia | apply U | apply (G _ _ _ Hx)].
  - unfold SafeDecoder.readMapSize in H.
    apply bind_inv in H as (p & r1 & Hp & H).
    repeat match type of H with
    | context [if ?c then _ else _] => destruct c
    end;
    try (apply bind_inv in H as (x & r2 & Hx & H));
    try discriminate H; injection H as <- _;
    first [apply U | apply (G _ _ _ Hx)].
Qed.

(** X2. Truncated input aborts: when an integer tag is followed by fewer
    bytes than its width, [readInt64] and [readUInt64] throw the cursor's
    underrun with the cursor after the tag; when a string or binary
    length is resolved but fewer bytes remain than it announces,
    [readString] and [readByteArray] throw with the cursor after the
    length prefix.  None of them returns an error [Result]. *)
Theorem truncated_payload_throws (r : DataReader) :
  (forall b rest w getter,
     Reader.remaining r = b :: rest ->
     int_payload (Z_of_byte b) = Some (w, getter) ->
     (List.length rest < w)%nat ->
     let failure (A : Type) : outcome A :=
       Thrown (BufferUnderrun getter (Z.of_nat w)) (Reader.advance r 1) in
     SafeDecoder.readInt64 r = failure _
     /\ SafeDecoder.readUInt64 r = failure _)
  /\ (forall (S : StringOps) n r1,
        SafeDecoder.readStringLength r = Done (Ok n) r1 ->
        len (Reader.remaining r1) < n ->
        SafeDecoder.readString r = Thrown (BufferUnderrun "getBytes" n) r1)
  /\ (forall n r1,
        SafeDecoder.readBinLength r = Done (Ok n) r1 ->
        len (Reader.remaining r1) < n ->
        SafeDecoder.readByteArray r
        = Thrown (BufferUnderrun "getBytes" n) r1).
Proof.
  assert (B : forall n r1, 0 <= n -> len (Reader.remaining r1) < n ->
    Reader.getBytes n r1 = Thrown (BufferUnderrun "getBytes" n) r1).
  { intros n r1 Hn L. unfold Reader.getBytes.
    rewrite take_short by (unfold len in L; lia).
    rewrite Z2Nat.id by lia. reflexivity. }
  split; [|split].
  - intros b rest w getter H T L failure. subst failure.
    pose proof (remaining_advance_1 _ _ _ H) as R1.
    assert (S : forall m, Reader.take m w (Reader.advance r 1)
                = Thrown (BufferUnderrun m (Z.of_nat w)) (Reader.advance r 1))
      by (intros m; apply take_short; rewrite R1; exact L).
    unfold SafeDecoder.readInt64, SafeDecoder.readUInt64.
    rewrite !(bind_Done _ _ _ _ _ (getUint8_at _ _ _ H)).
    unfold int_payload in T.
    repeat match type of T with
    | (if ?x =? ?y then _ else _) = _ =>
        let E := fresh "E" in
        destruct (Z.eqb_spec x y) as [E|E];
        [rewrite E; injection T as <- <-; eval_tests;
         unfold Reader.getInt8, Reader.getInt16, Reader.getInt32,
           Reader.getInt64, Reader.getUint8, Reader.getUint16,
           Reader.getUint32, Reader.getUint64;
         split; apply bind_Thrown; apply bind_Thrown; apply S|]
    end.
    discriminate T.
  - intros S n r1 Hs L. unfold SafeDecoder.readString. run_read Hs.
    apply bind_Thrown. apply B; [|exact L].
    apply (length_readers_range r r1 n). left. exact Hs.
  - intros n r1 Hs L. unfold SafeDecoder.readByteArray. run_read Hs.
    apply bind_Thrown. apply B; [|exact L].
    apply (length_readers_range r r1 n). right. left. exact Hs.
Qed.

(** A bin8 value that announces five bytes and holds one. *)
Lemma truncated_payload_throws_witness :
  SafeDecoder.readBinLength (Reader.create (bytes [0xc4; 5; 104]))
  = Done (Ok 5) (mkReader (bytes [0xc4; 5; 104]) 2)
  /\ len (Reader.remaining (mkReader (bytes [0xc4; 5; 104]) 2)) < 5
  /\ SafeDecoder.readByteArray (Reader.create (bytes [0xc4; 5; 104]))
     = Thrown (BufferUnderrun "getBytes" 5)
         (mkReader (bytes [0xc4; 5; 104]) 2).
Proof.
  split; [reflexivity|]. split; [reflexivity|].
  apply (proj2 (proj2 (truncated_payload_throws
                         (Reader.create (bytes [0xc4; 5; 104]))))).
  - reflexivity.
  - reflexivity.
Defined.

(** ** Lead bytes that [getSize] does not know *)

Lemma take_Thrown_inv (method : string) (n : nat) (r r' : DataReader)
  (e : exn) :
  Reader.take method n r = Thrown e r' ->
  e = BufferUnderrun method (Z.of_nat n) /\ r' = r.
Proof.
  unfold Reader.take.
  destruct (n <=? List.length (Reader.remaining r))%nat; intros H;
    [discriminate H|].
  injection H as <- <-. split; reflexivity.
Qed.

Lemma discard_Thrown_inv (n : Z) (r r' : DataReader) (e : exn) :
  Reader.discard n r = Thrown e r' ->
  e = BufferUnderrun "discard" n /\ r' = r.
Proof.
  unfold Reader.discard.
  destruct (Z.of_nat (List.length (Reader.remaining r)) <? n); intros H;
    [|discriminate H].
  injection H as <- <-. split; reflexivity.
Qed.

(** A chain of cursor reads does not throw an invalid prefix. *)
Ltac not_invalid_prefix H :=
  unfold Reader.getUint8, Reader.getUint16, Reader.getUint32 in H;
  repeat first
    [ discriminate H
    | apply take_Thrown_inv in H as [H _]; discriminate H
    | apply discard_Thrown_inv in H as [H _]; discriminate H
    | let a := fresh "a" in let r1 := fresh "r1" in
      apply bind_Thrown_inv in H as [H|(a & r1 & _ & H)] ].

(** X3. [getSize] throws an invalid prefix exactly on the lead bytes
    0xc1, 0xc7, 0xc8 and 0xc9 (the unused byte and ext8, ext16, ext32),
    with the cursor after the byte, and [skip] throws it too, as do both
    through the facade; on every other lead byte, whatever follows,
    [getSize] either returns or throws the cursor's underrun. *)
Theorem getSize_unknown_prefix (r : DataReader) (b : byte)
  (rest : list byte) :
  Reader.remaining r = b :: rest ->
  let p := Z_of_byte b in
  (unknown_prefix p = true ->
   SafeDecoder.getSize r = Thrown (InvalidPrefix p) (Reader.advance r 1)
   /\ Decoder.getSize r = Thrown (InvalidPrefix p) (Reader.advance r 1)
   /\ forall fuel,
        SafeDecoder.skip (S fuel) r
        = Some (Thrown (InvalidPrefix p) (Reader.advance r 1))
        /\ Decoder.skip (S fuel) r
           = Some (Thrown (InvalidPrefix p) (Reader.advance r 1)))
  /\ (forall q r',
        SafeDecoder.getSize r = Thrown (InvalidPrefix q) r' ->
        unknown_prefix p = true /\ q = p).
Proof.
  intros H p. subst p. split.
  - intros U.
    assert (G : SafeDecoder.getSize r
                = Thrown (InvalidPrefix (Z_of_byte b)) (Reader.advance r 1)).
    { unfold SafeDecoder.getSize. run_read (getUint8_at _ _ _ H).
      unfold unknown_prefix in U.
      repeat match type of U with
      | (_ || _)%bool = true => apply orb_prop in U; destruct U as [U|U]
      end; apply Z.eqb_eq in U; rewrite U; eval_tests; reflexivity. }
    split; [exact G|]. split.
    + unfold Decoder.getSize. apply bind_Thrown. exact G.
    + intros fuel. unfold Decoder.skip. rewrite skip_S, G.
      split; reflexivity.
  - intros q r' G. unfold SafeDecoder.getSize in G.
    rewrite (bind_Done _ _ _ _ _ (getUint8_at _ _ _ H)) in G.
    repeat match type of G with
    | (if ?c then _ else _) _ = _ => destruct c eqn:?
    end;
    try (not_invalid_prefix G; fail).
    unfold throw in G. injection G as <- _. split; [|reflexivity].
    clear H.
    rewrite ?isFixedInt_byte, ?isNegativeFixedInt_byte, ?isFixedMap_byte,
      ?isFixedArray_byte, ?isFixedString_byte in *.
    pose proof (Z_of_byte_range b) as R.
    unfold unknown_prefix. unfold_format.
    repeat match goal with
    | E : (_ && _)%bool = false |- _ =>
        apply andb_false_iff in E; destruct E as [E|E]
    | E : (_ <? _) = false |- _ => apply Z.ltb_ge in E
    | E : (_ <=? _) = false |- _ => apply Z.leb_gt in E
    | E : (_ =? _) = false |- _ => apply Z.eqb_neq in E
    end; lia.
Qed.

Lemma getSize_unknown_prefix_witness :
  Reader.remaining (Reader.create (bytes [0xc7; 1; 2; 3]))
  = byte_of_Z 0xc7 :: bytes [1; 2; 3]
  /\ unknown_prefix (Z_of_byte (byte_of_Z 0xc7)) = true
  /\ SafeDecoder.getSize (Reader.create (bytes [0xc7; 1; 2; 3]))
     = Thrown (InvalidPrefix 0xc7) (mkReader (bytes [0xc7; 1; 2; 3]) 1).
Proof.
  split; [reflexivity|]. split; [reflexivity|].
  apply (proj1 (getSize_unknown_prefix (Reader.create (bytes [0xc7; 1; 2; 3]))
                  (byte_of_Z 0xc7) (bytes [1; 2; 3]) eq_refl) eq_refl).
Defined.

(** ** The lead bytes the length readers accept *)

(** Turn the outcome of the tests of an [if] chain, kept as boolean
    equations, into arithmetic on the lead byte. *)
Ltac tests_to_Z :=
  rewrite ?isFixedInt_byte, ?isNegativeFixedInt_byte, ?isFixedMap_byte,
    ?isFixedArray_byte, ?isFixedString_byte in *;
  unfold_format.

Ltac rejects_outside H :=
  let A := fresh "A" in
  intros A; rewrite (bind_Done _ _ _ _ _ (getUint8_at _ _ _ H));
  tests_to_Z;
  repeat match goal with
  | |- context [if ?c then _ else _] => destruct c eqn:?; try lia
  end;
  reflexivity.

Ltac accepts_inside H :=
  let A := fresh "A" in let e := fresh "e" in let r' := fresh "r'" in
  let G := fresh "G" in
  intros A e r' G;
  rewrite (bind_Done _ _ _ _ _ (getUint8_at _ _ _ H)) in G;
  repeat match type of G with
  | (if ?c then _ else _) _ = _ => destruct c eqn:?
  end;
  try (let x := fresh "x" in let r2 := fresh "r2" in
       apply bind_inv in G as (x & r2 & _ & G));
  try discriminate G;
  tests_to_Z; lia.

(** X4. The lead bytes on which the length readers fail: [readArraySize]
    returns an invalid-length error, carrying the byte and with the cursor
    after it, on every lead byte outside 0x90-0x9f, 0xdc, 0xdd and 0xc0,
    and on none of these; [readMapSize] outside 0x80-0x8f, 0xde and 0xdf;
    [readStringLength] outside 0x90-0xbf and 0xd9-0xdb; [readBinLength]
    outside 0x90-0x9f, 0xc4-0xc6 and 0xc0. *)
Theorem length_readers_reject (r : DataReader) (b : byte)
  (rest : list byte) :
  Reader.remaining r = b :: rest ->
  let p := Z_of_byte b in
  let rejected (reader : M (Result Z)) (accepted : bool) :=
    (accepted = false ->
     reader r = Done (Err (BadLengthPrefix p)) (Reader.advance r 1))
    /\ (accepted = true -> forall e r', reader r <> Done (Err e) r') in
  rejected SafeDecoder.readArraySize
    ((0x90 <=? p) && (p <=? 0x9f) || (p =? 0xdc) || (p =? 0xdd)
     || (p =? 0xc0))
  /\ rejected SafeDecoder.readMapSize
       ((0x80 <=? p) && (p <=? 0x8f) || (p =? 0xde) || (p =? 0xdf))
  /\ rejected SafeDecoder.readStringLength
       ((0x90 <=? p) && (p <=? 0xbf) || (0xd9 <=? p) && (p <=? 0xdb))
  /\ rejected SafeDecoder.readBinLength
       ((0x90 <=? p) && (p <=? 0x9f) || (0xc4 <=? p) && (p <=? 0xc6)
        || (p =? 0xc0)).
Proof.
  intros H p rejected. subst p rejected. cbv beta.
  pose proof (Z_of_byte_range b) as R.
  repeat match goal with |- _ /\ _ => split end.
  - unfold SafeDecoder.readArraySize. rejects_outside H.
  - unfold SafeDecoder.readArraySize. accepts_inside H.
  - unfold SafeDecoder.readMapSize. rejects_outside H.
  - unfold SafeDecoder.readMapSize. accepts_inside H.
  - unfold SafeDecoder.readStringLength. rejects_outside H.
  - unfold SafeDecoder.readStringLength. accepts_inside H.
  - intros A. unfold SafeDecoder.readBinLength.
    rewrite (bind_Done _ _ _ _ _
               (isNextNil_other r b rest H ltac:(unfold_format; lia))).
    revert A. rejects_outside H.
  - intros A e r' G. unfold SafeDecoder.readBinLength in G.
    destruct (Z.eq_dec (Z_of_byte b) Format.NIL) as [N|N].
    + rewrite (bind_Done _ _ _ _ _ (isNextNil_nil r b rest H N)) in G.
      discriminate G.
    + rewrite (bind_Done _ _ _ _ _ (isNextNil_other r b rest H N)) in G.
      revert A e r' G. accepts_inside H.
Qed.

Lemma length_readers_reject_witness :
  Reader.remaining (Reader.create (bytes [0x91; 0x01]))
  = byte_of_Z 0x91 :: bytes [0x01]
  /\ SafeDecoder.readMapSize (Reader.create (bytes [0x91; 0x01]))
     = Done (Err (BadLengthPrefix 0x91)) (mkReader (bytes [0x91; 0x01]) 1).
Proof.
  split; [reflexivity|].
  apply (proj1 (proj1 (proj2 (length_readers_reject
           (Reader.create (bytes [0x91; 0x01])) (byte_of_Z 0x91)
           (bytes [0x01]) eq_refl)))).
  reflexivity.
Defined.

(** ** Integers across widths *)

Lemma as_signed_range (bits z : Z) :
  0 < bits -> - 2 ^ (bits - 1) <= as_signed bits z < 2 ^ (bits - 1).
Proof.
  intros Hb. unfold as_signed.
  assert (Hp : 2 ^ bits = 2 * 2 ^ (bits - 1))
    by (rewrite <- Z.pow_succ_r by lia; f_equal; lia).
  pose proof (Z.mod_pos_bound z (2 ^ bits) ltac:(lia)) as Hm.
  destruct (Z.ltb_spec (z mod 2 ^ bits) (2 ^ (bits - 1))); lia.
Qed.

Lemma be_uint_bound (p : list byte) (w : Z) :
  len p = w -> 0 <= be_uint p < 256 ^ w.
Proof. intros <-. apply be_uint_range. Qed.

(** The value of a well-formed integer leaf fits 64 bits, signed or
    unsigned. *)
Lemma leaf_int_range (t : leaf) (p : list byte) (v : Z) :
  leaf_wf t p = true -> leaf_int t p = Some v ->
  - 2 ^ 63 <= v < 2 ^ 64.
Proof.
  intros W E.
  destruct t; try discriminate E; cbn [leaf_int leaf_wf] in *; wf_hyps;
    injection E as <-;
    try (match goal with L : len p = ?w |- _ =>
           pose proof (be_uint_bound p w L) end);
    unfold as_i8, as_i16, as_i32, as_i64;
    try lia.
  - pose proof (as_signed_range 8 (be_uint p)). lia.
  - pose proof (as_signed_range 16 (be_uint p)). lia.
  - pose proof (as_signed_range 32 (be_uint p)). lia.
  - pose proof (as_signed_range 64 (be_uint p)). lia.
Qed.

Lemma readInt64_leaf (t : leaf) (p suf : list byte) (v : Z)
  (r : DataReader) :
  leaf_wf t p = true -> leaf_int t p = Some v ->
  Reader.remaining r = encode (Leaf t p) ++ suf ->
  SafeDecoder.readInt64 r
  = Done (if v <=? i64_MAX_VALUE then Ok v else Err (IntOverflow v 64))
      (Reader.advance r (List.length (encode (Leaf t p)))).
Proof.
  intros W E H. cbn [encode] in *.
  rewrite <- app_assoc in H.
  unfold SafeDecoder.readInt64.
  destruct t; try discriminate E; cbn [leaf_int leaf_header leaf_wf] in *;
    wf_hyps; injection E as <-; cbn [app] in H;
    pose proof (remaining_advance_1 _ _ _ H) as R1;
    run_read (getUint8_at _ _ _ H);
    try (match goal with L : len p = ?w |- _ =>
           pose proof (be_uint_bound p w L) end);
    match goal with |- _ = Done ?x _ => set (res := x) end;
    try (eval_tests);
    subst res; unfold i64_MAX_VALUE.
  - pose proof (Z_of_byte_of_Z n ltac:(lia)) as E.
    split_tests. rewrite E. unfold as_i64.
    rewrite as_signed_nonneg by lia.
    destruct (Z.leb_spec n 9223372036854775807); [|lia]. same_cursor.
  - pose proof (Z_of_byte_of_Z (256 + n) ltac:(lia)) as E.
    split_tests. rewrite E. unfold as_i64, as_i8.
    rewrite (as_signed_wrap 8) by lia.
    rewrite as_signed_small by lia.
    replace (256 + n - 2 ^ 8) with n by lia.
    destruct (Z.leb_spec n 9223372036854775807); [|lia]. same_cursor.
  - run_read (getUint8_bytes_at _ p suf R1 ltac:(unfold len in *; lia)).
    unfold as_i64. rewrite as_signed_nonneg by lia.
    destruct (Z.leb_spec (be_uint p) 9223372036854775807); [|lia].
    same_cursor.
  - run_read (getUint16_at _ p suf R1 ltac:(unfold len in *; lia)).
    unfold as_i64. rewrite as_signed_nonneg by lia.
    destruct (Z.leb_spec (be_uint p) 9223372036854775807); [|lia].
    same_cursor.
  - run_read (getUint32_at _ p suf R1 ltac:(unfold len in *; lia)).
    unfold as_i64. rewrite as_signed_nonneg by lia.
    destruct (Z.leb_spec (be_uint p) 9223372036854775807); [|lia].
    same_cursor.
  - run_read (getUint64_at _ p suf R1 ltac:(unfold len in *; lia)).
    change (as_u64 9223372036854775807) with 9223372036854775807.
    destruct (Z.leb_spec (be_uint p) 9223372036854775807).
    + unfold as_i64. rewrite as_signed_nonneg by lia. same_cursor.
    + same_cursor.
  - run_read (getInt8_at _ p suf R1 ltac:(unfold len in *; lia)).
    pose proof (as_signed_range 8 (be_uint p) ltac:(lia)) as S.
    fold as_i8 in S. unfold as_i64. rewrite as_signed_small by lia.
    destruct (Z.leb_spec (as_i8 (be_uint p)) 9223372036854775807); [|lia].
    same_cursor.
  - run_read (getInt16_at _ p suf R1 ltac:(unfold len in *; lia)).
    pose proof (as_signed_range 16 (be_uint p) ltac:(lia)) as S.
    fold as_i16 in S. unfold as_i64. rewrite as_signed_small by lia.
    destruct (Z.leb_spec (as_i16 (be_uint p)) 9223372036854775807); [|lia].
    same_cursor.
  - run_read (getInt32_at _ p suf R1 ltac:(unfold len in *; lia)).
    pose proof (as_signed_range 32 (be_uint p) ltac:(lia)) as S.
    fold as_i32 in S. unfold as_i64. rewrite as_signed_small by lia.
    destruct (Z.leb_spec (as_i32 (be_uint p)) 9223372036854775807); [|lia].
    same_cursor.
  - run_read (getInt64_at _ p suf R1 ltac:(unfold len in *; lia)).
    pose proof (as_signed_range 64 (be_uint p) ltac:(lia)) as S.
    fold as_i64 in S.
    destruct (Z.leb_spec (as_i64 (be_uint p)) 9223372036854775807); [|lia].
    same_cursor.
Qed.

Lemma readUInt64_leaf (t : leaf) (p suf : list byte) (v : Z)
  (r : DataReader) :
  leaf_wf t p = true -> leaf_int t p = Some v ->
  Reader.remaining r = encode (Leaf t p) ++ suf ->
  SafeDecoder.readUInt64 r
  = Done (match t with
          | LNegFixInt _ => Err (BadUnsignedIntPrefix (256 + v))
          | _ => if v <? 0 then Err (IntUnderflow v) else Ok v
          end)
      (Reader.advance r (List.length (encode (Leaf t p)))).
Proof.
  intros W E H. cbn [encode] in *.
  rewrite <- app_assoc in H.
  unfold SafeDecoder.readUInt64.
  destruct t; try discriminate E; cbn [leaf_int leaf_header leaf_wf] in *;
    wf_hyps; injection E as <-; cbn [app] in H;
    pose proof (remaining_advance_1 _ _ _ H) as R1;
    run_read (getUint8_at _ _ _ H);
    try (match goal with L : len p = ?w |- _ =>
           pose proof (be_uint_bound p w L) end);
    match goal with |- _ = Done ?x _ => set (res := x) end;
    try (eval_tests);
    subst res.
  - pose proof (Z_of_byte_of_Z n ltac:(lia)) as E.
    split_tests. rewrite E. unfold as_u64.
    rewrite as_unsigned_small by lia. same_cursor.
  - pose proof (Z_of_byte_of_Z (256 + n) ltac:(lia)) as E.
    split_tests. rewrite E. same_cursor.
  - run_read (getUint8_bytes_at _ p suf R1 ltac:(unfold len in *; lia)).
    destruct (Z.ltb_spec (be_uint p) 0); [lia|].
    unfold as_u64. rewrite as_unsigned_small by lia. same_cursor.
  - run_read (getUint16_at _ p suf R1 ltac:(unfold len in *; lia)).
    destruct (Z.ltb_spec (be_uint p) 0); [lia|].
    unfold as_u64. rewrite as_unsigned_small by lia. same_cursor.
  - run_read (getUint32_at _ p suf R1 ltac:(unfold len in *; lia)).
    destruct (Z.ltb_spec (be_uint p) 0); [lia|].
    unfold as_u64. rewrite as_unsigned_small by lia. same_cursor.
  - run_read (getUint64_at _ p suf R1 ltac:(unfold len in *; lia)).
    destruct (Z.ltb_spec (be_uint p) 0); [lia|]. same_cursor.
  - run_read (getInt8_at _ p suf R1 ltac:(unfold len in *; lia)).
    pose proof (as_signed_range 8 (be_uint p) ltac:(lia)) as S.
    fold as_i8 in S. rewrite Z.geb_leb.
    destruct (Z.ltb_spec (as_i8 (be_uint p)) 0);
      destruct (Z.leb_spec 0 (as_i8 (be_uint p))); try lia;
      [same_cursor|].
    unfold as_u64. rewrite as_unsigned_small by lia. same_cursor.
  - run_read (getInt16_at _ p suf R1 ltac:(unfold len in *; lia)).
    pose proof (as_signed_range 16 (be_uint p) ltac:(lia)) as S.
    fold as_i16 in S. rewrite Z.geb_leb.
    destruct (Z.ltb_spec (as_i16 (be_uint p)) 0);
      destruct (Z.leb_spec 0 (as_i16 (be_uint p))); try lia;
      [same_cursor|].
    unfold as_u64. rewrite as_unsigned_small by lia. same_cursor.
  - run_read (getInt32_at _ p suf R1 ltac:(unfold len in *; lia)).
    pose proof (as_signed_range 32 (be_uint p) ltac:(lia)) as S.
    fold as_i32 in S. rewrite Z.geb_leb.
    destruct (Z.ltb_spec (as_i32 (be_uint p)) 0);
      destruct (Z.leb_spec 0 (as_i32 (be_uint p))); try lia;
      [same_cursor|].
    unfold as_u64. rewrite as_unsigned_small by lia. same_cursor.
  - run_read (getInt64_at _ p suf R1 ltac:(unfold len in *; lia)).
    pose proof (as_signed_range 64 (be_uint p) ltac:(lia)) as S.
    fold as_i64 in S. rewrite Z.geb_leb.
    destruct (Z.ltb_spec (as_i64 (be_uint p)) 0);
      destruct (Z.leb_spec 0 (as_i64 (be_uint p))); try lia;
      [same_cursor|].
    unfold as_u64. rewrite as_unsigned_small by lia. same_cursor.
Qed.

(** X5. An integer encoded under any integer tag, read at any width: if
    [v] is the value of a well-formed integer leaf at the cursor, each
    signed reader returns [v] exactly when [v] fits its width and an
    overflow error otherwise (a uint64 above the signed 64-bit maximum
    overflows at 64 bits for all of them); each unsigned reader returns
    [v] exactly when [0 <= v] and [v] fits its width, an underflow error
    when a signed tag holds a negative [v], a bad-tag error on a negative
    fixint, an overflow error otherwise.  The tag's own width plays no
    part, and the cursor ends after the encoding in every case. *)
Theorem integer_width_table (t : leaf) (p suf : list byte) (v : Z)
  (r : DataReader) :
  leaf_wf t p = true -> leaf_int t p = Some v ->
  Reader.remaining r = encode (Leaf t p) ++ suf ->
  let r' := Reader.advance r (List.length (encode (Leaf t p))) in
  let signed (bits lo hi : Z) : outcome (Result Z) :=
    Done (if i64_MAX_VALUE <? v then Err (IntOverflow v 64)
          else if (lo <=? v) && (v <=? hi) then Ok v
          else Err (IntOverflow v bits)) r' in
  let unsigned (bits hi : Z) : outcome (Result Z) :=
    Done (match t with
          | LNegFixInt _ => Err (BadUnsignedIntPrefix (256 + v))
          | _ => if v <? 0 then Err (IntUnderflow v)
                 else if v <=? hi then Ok v
                 else Err (UnsignedIntOverflow v bits)
          end) r' in
  SafeDecoder.readInt8 r = signed 8 i8_MIN_VALUE i8_MAX_VALUE
  /\ SafeDecoder.readInt16 r = signed 16 i16_MIN_VALUE i16_MAX_VALUE
  /\ SafeDecoder.readInt32 r = signed 32 i32_MIN_VALUE i32_MAX_VALUE
  /\ SafeDecoder.readInt64 r = signed 64 i64_MIN_VALUE i64_MAX_VALUE
  /\ SafeDecoder.readUInt8 r = unsigned 8 u8_MAX_VALUE
  /\ SafeDecoder.readUInt16 r = unsigned 16 u16_MAX_VALUE
  /\ SafeDecoder.readUInt32 r = unsigned 32 u32_MAX_VALUE
  /\ SafeDecoder.readUInt64 r = unsigned 64 u64_MAX_VALUE.
Proof.
  intros W E H r' signed unsigned.
  pose proof (leaf_int_range t p v W E) as Rv.
  pose proof (readInt64_leaf t p suf v r W E H) as I. fold r' in I.
  pose proof (readUInt64_leaf t p suf v r W E H) as U. fold r' in U.
  assert (S : forall bits lo hi,
    0 < bits <= 64 -> lo = - 2 ^ (bits - 1) -> hi = 2 ^ (bits - 1) - 1 ->
    bind SafeDecoder.readInt64 (fun result =>
      match result with
      | Err e => ret (Err e)
      | Ok value =>
          if (value <=? hi) && (value >=? lo)
          then ret (Ok (as_signed bits value))
          else ret (Err (IntOverflow value bits))
      end) r
    = signed bits lo hi).
  { intros bits lo hi Hb -> ->. unfold signed. run_read I.
    unfold i64_MAX_VALUE in *.
    assert (2 ^ (bits - 1) <= 2 ^ 63)
      by (apply Z.pow_le_mono_r; lia).
    destruct (Z.leb_spec v 9223372036854775807);
      destruct (Z.ltb_spec 9223372036854775807 v); try lia;
      [|reflexivity].
    rewrite Z.geb_leb, andb_comm.
    destruct (Z.leb_spec (- 2 ^ (bits - 1)) v);
      destruct (Z.leb_spec v (2 ^ (bits - 1) - 1)); try reflexivity.
    cbn [andb]. unfold ret. rewrite as_signed_small by lia. reflexivity. }
  assert (N : forall bits hi,
    0 < bits <= 64 -> hi = 2 ^ bits - 1 ->
    bind SafeDecoder.readUInt64 (fun result =>
      match result with
      | Err e => ret (Err e)
      | Ok value =>
          if value <=? hi then ret (Ok (as_unsigned bits value))
          else ret (Err (UnsignedIntOverflow value bits))
      end) r
    = unsigned bits hi).
  { intros bits hi Hb ->. unfold unsigned. run_read U.
    destruct t; try discriminate E;
      try (destruct (Z.ltb_spec v 0); [reflexivity|];
           destruct (Z.leb_spec v (2 ^ bits - 1)); [|reflexivity];
           unfold ret; rewrite as_unsigned_small by lia; reflexivity).
    reflexivity. }
  repeat match goal with |- _ /\ _ => split end.
  - exact (S 8 i8_MIN_VALUE i8_MAX_VALUE ltac:(lia) eq_refl eq_refl).
  - exact (S 16 i16_MIN_VALUE i16_MAX_VALUE ltac:(lia) eq_refl eq_refl).
  - exact (S 32 i32_MIN_VALUE i32_MAX_VALUE ltac:(lia) eq_refl eq_refl).
  - rewrite I. unfold signed, i64_MAX_VALUE, i64_MIN_VALUE.
    destruct (Z.leb_spec v 9223372036854775807);
      destruct (Z.ltb_spec 9223372036854775807 v); try lia;
      [|reflexivity].
    destruct (Z.leb_spec (-9223372036854775808) v); [|lia].
    reflexivity.
  - exact (N 8 u8_MAX_VALUE ltac:(lia) eq_refl).
  - exact (N 16 u16_MAX_VALUE ltac:(lia) eq_refl).
  - exact (N 32 u32_MAX_VALUE ltac:(lia) eq_refl).
  - rewrite U. unfold unsigned, u64_MAX_VALUE.
    destruct t; try discriminate E; try reflexivity;
      destruct (Z.ltb_spec v 0); try reflexivity;
      destruct (Z.leb_spec v 18446744073709551615); (reflexivity || lia).
Qed.

(** The uint16 value 300 overflows [readUInt8] and [readInt8] and is
    returned by [readInt16]. *)
Lemma integer_width_table_witness :
  leaf_wf LUint16 (bytes [1; 44]) = true
  /\ leaf_int LUint16 (bytes [1; 44]) = Some 300
  /\ Reader.remaining (Reader.create (bytes [0xcd; 1; 44]))
     = encode (Leaf LUint16 (bytes [1; 44])) ++ []
  /\ SafeDecoder.readInt8 (Reader.create (bytes [0xcd; 1; 44]))
     = Done (Err (IntOverflow 300 8)) (mkReader (bytes [0xcd; 1; 44]) 3)
  /\ SafeDecoder.readInt16 (Reader.create (bytes [0xcd; 1; 44]))
     = Done (Ok 300) (mkReader (bytes [0xcd; 1; 44]) 3).
Proof.
  split; [reflexivity|]. split; [reflexivity|]. split; [reflexivity|].
  pose proof (integer_width_table LUint16 (bytes [1; 44]) [] 300
                (Reader.create (bytes [0xcd; 1; 44]))
                eq_refl eq_refl eq_refl) as T.
  cbv zeta in T. destruct T as (T8 & T16 & _).
  split; [exact T8 | exact T16].
Defined.

(** ** Generic containers *)








Lemma readMap_loop_pairs {K V} (eqb : K -> K -> bool)
  (keyFn : SafeDecoder.ElementFn K) (valueFn : SafeDecoder.ElementFn V)
  (kvs : list (K * V)) (i : Z) (r r1 : DataReader) :
  pairs_from keyFn valueFn i r kvs r1 ->
  forall (todo : nat) (m : list (K * V)),
    SafeDecoder.readMap_loop eqb keyFn valueFn (List.length kvs + todo) i m r
    = SafeDecoder.readMap_loop eqb keyFn valueFn todo
        (i + Z.of_nat (List.length kvs)) (map_of_pairs eqb m kvs) r1.
Proof.
  induction 1 as [i r|i r r1 r2 r3 k x kvs Hk Hx Hkvs IH]; intros todo m.
  - cbn [List.length Nat.add]. rewrite Z.add_0_r. reflexivity.
  - cbn [List.length Nat.add SafeDecoder.readMap_loop].
    run_read Hk. run_read Hx. rewrite IH.
    unfold map_of_pairs. cbn [fold_left fst snd]. f_equal. lia.
Qed.

Lemma readMap_decoded {K V} (eqb : K -> K -> bool)
  (keyFn : SafeDecoder.ElementFn K) (valueFn : SafeDecoder.ElementFn V)
  (r r0 r1 : DataReader) (kvs : list (K * V)) :
  SafeDecoder.readMapSize r = Done (Ok (Z.of_nat (List.length kvs))) r0 ->
  pairs_from keyFn valueFn 0 r0 kvs r1 ->
  SafeDecoder.readMap eqb keyFn valueFn r
  = Done (Ok (map_of_pairs eqb [] kvs)) r1.
Proof.
  intros Hs Hp. unfold SafeDecoder.readMap. run_read Hs.
  rewrite Nat2Z.id, <- (Nat.add_0_r (List.length kvs)).
  rewrite (readMap_loop_pairs eqb keyFn valueFn kvs 0 r0 r1 Hp 0 []).
  reflexivity.
Qed.

(** X7. [SafeDecoder.readMap]: once the size is resolved, the pairs are
    decoded in order, key then value, by the decoders called with the
    pair's index; when all [size] pairs decode, the result is the map
    built by [set] on the pairs in that order; when a key fails, that
    failure is returned with the cursor where the key decoder left it,
    whatever the value decoder would do at that index; when a value
    fails, that failure is returned; the pairs decoded so far are not
    returned. *)
Theorem SafeDecoder_readMap_spec {K V} (eqb : K -> K -> bool)
  (keyFn : SafeDecoder.ElementFn K) (valueFn : SafeDecoder.ElementFn V)
  (r r0 r1 : DataReader) (size : Z) (kvs : list (K * V)) :
  SafeDecoder.readMapSize r = Done (Ok size) r0 ->
  pairs_from keyFn valueFn 0 r0 kvs r1 ->
  let i := Z.of_nat (List.length kvs) in
  (i = size ->
   SafeDecoder.readMap eqb keyFn valueFn r
   = Done (Ok (map_of_pairs eqb [] kvs)) r1)
  /\ (forall e r2,
        i < size ->
        keyFn (Some i) r1 = Done (Err e) r2 ->
        SafeDecoder.readMap eqb keyFn valueFn r = Done (Err e) r2)
  /\ (forall k e r2 r3,
        i < size ->
        keyFn (Some i) r1 = Done (Ok k) r2 ->
        valueFn (Some i) r2 = Done (Err e) r3 ->
        SafeDecoder.readMap eqb keyFn valueFn r = Done (Err e) r3).
Proof.
  intros Hs Hp i. unfold SafeDecoder.readMap. subst i.
  split; [|split].
  - intros <-. apply (readMap_decoded eqb keyFn valueFn r r0 r1 kvs Hs Hp).
  - intros e r2 L He. run_read Hs.
    replace (Z.to_nat size)
      with (List.length kvs + S (Z.to_nat size - S (List.length kvs)))%nat
      by lia.
    rewrite (readMap_loop_pairs eqb keyFn valueFn kvs 0 r0 r1 Hp).
    cbn [SafeDecoder.readMap_loop]. rewrite Z.add_0_l.
    run_read He. reflexivity.
  - intros k e r2 r3 L Hk He. run_read Hs.
    replace (Z.to_nat size)
      with (List.length kvs + S (Z.to_nat size - S (List.length kvs)))%nat
      by lia.
    rewrite (readMap_loop_pairs eqb keyFn valueFn kvs 0 r0 r1 Hp).
    cbn [SafeDecoder.readMap_loop]. rewrite Z.add_0_l.
    run_read Hk. run_read He. reflexivity.
Qed.

(** A fixmap that announces two pairs and holds one: the second key is
    the bool tag 0xc3, which the integer key decoder rejects. *)
Lemma SafeDecoder_readMap_spec_witness :
  SafeDecoder.readMapSize (Reader.create (bytes [0x82; 1; 2; 0xc3; 3]))
  = Done (Ok 2) (mkReader (bytes [0x82; 1; 2; 0xc3; 3]) 1)
  /\ pairs_from (fun _ => SafeDecoder.readInt64)
       (fun _ => SafeDecoder.readInt64) 0
       (mkReader (bytes [0x82; 1; 2; 0xc3; 3]) 1) [(1, 2)]
       (mkReader (bytes [0x82; 1; 2; 0xc3; 3]) 3)
  /\ SafeDecoder.readMap Z.eqb (fun _ => SafeDecoder.readInt64)
       (fun _ => SafeDecoder.readInt64)
       (Reader.create (bytes [0x82; 1; 2; 0xc3; 3]))
     = Done (Err (BadIntPrefix 0xc3))
         (mkReader (bytes [0x82; 1; 2; 0xc3; 3]) 4).
Proof.
  assert (P : pairs_from (fun _ => SafeDecoder.readInt64)
                (fun _ => SafeDecoder.readInt64) 0
                (mkReader (bytes [0x82; 1; 2; 0xc3; 3]) 1) [(1, 2)]
                (mkReader (bytes [0x82; 1; 2; 0xc3; 3]) 3)).
  { eapply pairs_cons; [reflexivity | reflexivity | apply pairs_nil]. }
  split; [reflexivity|]. split; [exact P|].
  apply (proj1 (proj2 (SafeDecoder_readMap_spec Z.eqb
           (fun _ => SafeDecoder.readInt64) (fun _ => SafeDecoder.readInt64)
           (Reader.create (bytes [0x82; 1; 2; 0xc3; 3])) _ _ 2 [(1, 2)]
           eq_refl P))).
  - reflexivity.
  - reflexivity.
Defined.

(** ** The map a decode builds *)

Section MapKeys.
Context {K V : Type} (eqb : K -> K -> bool).
Hypothesis eqb_spec : forall a b, eqb a b = true <-> a = b.

Lemma eqb_refl (a : K) : eqb a a = true.
Proof. apply eqb_spec. reflexivity. Qed.

Lemma eqb_false_sym (a b : K) : eqb a b = false -> eqb b a = false.
Proof.
  intros E. destruct (eqb b a) eqn:E'; [|reflexivity].
  apply eqb_spec in E'. subst b. rewrite eqb_refl in E. discriminate E.
Qed.

Lemma map_get_set (m : list (K * V)) (k k' : K) (v : V) :
  map_get eqb (SafeDecoder.map_set eqb m k v) k'
  = if eqb k k' then Some v else map_get eqb m k'.
Proof.
  induction m as [|[a x] m IH]; cbn [SafeDecoder.map_set map_get].
  - destruct (eqb k k'); reflexivity.
  - destruct (eqb a k) eqn:E; cbn [map_get].
    + apply eqb_spec in E. subst a.
      destruct (eqb k k'); reflexivity.
    + destruct (eqb a k') eqn:E'; [|exact IH].
      apply eqb_spec in E'. subst a.
      rewrite (eqb_false_sym _ _ E). reflexivity.
Qed.

Lemma map_set_keys (m : list (K * V)) (k : K) (v : V) :
  map fst (SafeDecoder.map_set eqb m k v)
  = if existsb (eqb k) (map fst m) then map fst m else map fst m ++ [k].
Proof.
  induction m as [|[a x] m IH]; cbn [SafeDecoder.map_set map existsb fst].
  - reflexivity.
  - destruct (eqb a k) eqn:E.
    + apply eqb_spec in E. subst a. rewrite eqb_refl. reflexivity.
    + rewrite (eqb_false_sym _ _ E). cbn [orb map fst]. rewrite IH.
      destruct (existsb (eqb k) (map fst m)); reflexivity.
Qed.

Lemma map_set_NoDup (m : list (K * V)) (k : K) (v : V) :
  NoDup (map fst m) -> NoDup (map fst (SafeDecoder.map_set eqb m k v)).
Proof.
  intros N. rewrite map_set_keys.
  destruct (existsb (eqb k) (map fst m)) eqn:E; [exact N|].
  apply NoDup_app; [exact N | repeat constructor; intros [] |].
  intros a Ha [->|[]].
  assert (existsb (eqb a) (map fst m) = true)
    by (apply existsb_exists; exists a; split; [exact Ha | apply eqb_refl]).
  congruence.
Qed.

Lemma map_of_pairs_NoDup (kvs m : list (K * V)) :
  NoDup (map fst m) -> NoDup (map fst (map_of_pairs eqb m kvs)).
Proof.
  revert m. induction kvs as [|[k v] kvs IH]; intros m N; [exact N|].
  apply IH, map_set_NoDup, N.
Qed.

Lemma map_of_pairs_get (kvs m : list (K * V)) (k : K) :
  map_get eqb (map_of_pairs eqb m kvs) k
  = match last_value eqb kvs k with
    | Some v => Some v
    | None => map_get eqb m k
    end.
Proof.
  revert m. induction kvs as [|[a x] kvs IH]; intros m; [reflexivity|].
  unfold map_of_pairs in *. cbn [fold_left fst snd last_value].
  rewrite IH, map_get_set.
  destruct (last_value eqb kvs k); [reflexivity|].
  destruct (eqb a k); reflexivity.
Qed.

Lemma map_of_pairs_distinct (kvs m : list (K * V)) :
  NoDup (map fst (m ++ kvs)) -> map_of_pairs eqb m kvs = m ++ kvs.
Proof.
  revert m. induction kvs as [|[k v] kvs IH]; intros m N.
  - rewrite app_nil_r. reflexivity.
  - unfold map_of_pairs in *. cbn [fold_left fst snd].
    assert (S : SafeDecoder.map_set eqb m k v = m ++ [(k, v)]).
    { rewrite map_app in N. cbn [map fst] in N.
      apply NoDup_remove_2 in N.
      assert (Hk : ~ In k (map fst m))
        by (intros Hin; apply N, in_or_app; left; exact Hin).
      clear N IH. induction m as [|[a x] m IHm]; [reflexivity|].
      cbn [SafeDecoder.map_set app].
      destruct (eqb a k) eqn:E.
      - apply eqb_spec in E. subst a. exfalso. apply Hk. left. reflexivity.
      - rewrite IHm; [reflexivity|]. intros Hin. apply Hk. right. exact Hin. }
    rewrite S, IH; rewrite <- app_assoc; [reflexivity | exact N].
Qed.

End MapKeys.

(** X8. The map [readMap] returns when all pairs decode: its keys are
    pairwise distinct, every key is mapped to the value of its last
    occurrence among the decoded pairs (a duplicate key overwrites, it is
    not an error), and when the decoded keys are already distinct the map
    is the list of decoded pairs, in their order. *)
Theorem readMap_last_write_wins {K V} (eqb : K -> K -> bool)
  (keyFn : SafeDecoder.ElementFn K) (valueFn : SafeDecoder.ElementFn V)
  (r r0 r1 : DataReader) (kvs : list (K * V)) :
  (forall a b, eqb a b = true <-> a = b) ->
  SafeDecoder.readMapSize r = Done (Ok (Z.of_nat (List.length kvs))) r0 ->
  pairs_from keyFn valueFn 0 r0 kvs r1 ->
  exists m,
    SafeDecoder.readMap eqb keyFn valueFn r = Done (Ok m) r1
    /\ NoDup (map fst m)
    /\ (forall k, map_get eqb m k = last_value eqb kvs k)
    /\ (NoDup (map fst kvs) -> m = kvs).
Proof.
  intros E Hs Hp. exists (map_of_pairs eqb [] kvs).
  split; [|split; [|split]].
  - apply (readMap_decoded eqb keyFn valueFn r r0 r1 kvs Hs Hp).
  - apply (map_of_pairs_NoDup eqb E). constructor.
  - intros k. rewrite (map_of_pairs_get eqb E).
    destruct (last_value eqb kvs k); reflexivity.
  - intros N. apply (map_of_pairs_distinct eqb E kvs []). exact N.
Qed.

(** The fixmap [{1: 2, 1: 3}] decodes to the map [{1: 3}]. *)
Lemma readMap_last_write_wins_witness :
  (forall a b, Z.eqb a b = true <-> a = b)
  /\ SafeDecoder.readMapSize (Reader.create (bytes [0x82; 1; 2; 1; 3]))
     = Done (Ok (Z.of_nat (List.length [(1, 2); (1, 3)])))
         (mkReader (bytes [0x82; 1; 2; 1; 3]) 1)
  /\ exists m,
       SafeDecoder.readMap Z.eqb (fun _ => SafeDecoder.readInt64)
         (fun _ => SafeDecoder.readInt64)
         (Reader.create (bytes [0x82; 1; 2; 1; 3]))
       = Done (Ok m) (mkReader (bytes [0x82; 1; 2; 1; 3]) 5)
       /\ map_get Z.eqb m 1 = Some 3.
Proof.
  split; [exact Z.eqb_eq|]. split; [reflexivity|].
  assert (P : pairs_from (fun _ => SafeDecoder.readInt64)
                (fun _ => SafeDecoder.readInt64) 0
                (mkReader (bytes [0x82; 1; 2; 1; 3]) 1) [(1, 2); (1, 3)]
                (mkReader (bytes [0x82; 1; 2; 1; 3]) 5)).
  { eapply pairs_cons; [reflexivity | reflexivity |].
    eapply pairs_cons; [reflexivity | reflexivity | apply pairs_nil]. }
  destruct (readMap_last_write_wins Z.eqb (fun _ => SafeDecoder.readInt64)
              (fun _ => SafeDecoder.readInt64)
              (Reader.create (bytes [0x82; 1; 2; 1; 3])) _ _
              [(1, 2); (1, 3)] Z.eqb_eq eq_refl P) as (m & Hm & _ & G & _).
  exists m. split; [exact Hm|]. rewrite G. reflexivity.
Defined.

(** ** Maps on the wire *)




(** ** Nullable containers *)

(** X10. On a nil lead byte the nullable readers return [null] and consume
    the byte; the plain [readArray] takes nil for an empty array, the plain
    [readMap] rejects it.  On any other lead byte a nullable reader is the
    plain reader on the same cursor, its value wrapped. *)
Theorem nullable_readers_spec {T K V} (fn : SafeDecoder.ElementFn T)
  (eqb : K -> K -> bool) (keyFn : SafeDecoder.ElementFn K)
  (valueFn : SafeDecoder.ElementFn V) (r : DataReader) (b : byte)
  (rest : list byte) :
  Reader.remaining r = b :: rest ->
  (Z_of_byte b = Format.NIL ->
   SafeDecoder.readNullableArray fn r = Done (Ok None) (Reader.advance r 1)
   /\ SafeDecoder.readArray fn r = Done (Ok []) (Reader.advance r 1)
   /\ SafeDecoder.readNullableMap eqb keyFn valueFn r
      = Done (Ok None) (Reader.advance r 1)
   /\ SafeDecoder.readMap eqb keyFn valueFn r
      = Done (Err (BadLengthPrefix Format.NIL)) (Reader.advance r 1))
  /\ (Z_of_byte b <> Format.NIL ->
      SafeDecoder.readNullableArray fn r
      = match SafeDecoder.readArray fn r with
        | Done (Ok a) r' => Done (Ok (Some a)) r'
        | Done (Err e) r' => Done (Err e) r'
        | Thrown x r' => Thrown x r'
        end
      /\ SafeDecoder.readNullableMap eqb keyFn valueFn r
         = match SafeDecoder.readMap eqb keyFn valueFn r with
           | Done (Ok m) r' => Done (Ok (Some m)) r'
           | Done (Err e) r' => Done (Err e) r'
           | Thrown x r' => Thrown x r'
           end).
Proof.
  intros H. split; intros E.
  - pose proof (isNextNil_nil r b rest H E) as N.
    pose proof (getUint8_at _ _ _ H) as G. rewrite E in G.
    repeat match goal with |- _ /\ _ => split end.
    + unfold SafeDecoder.readNullableArray. run_read N. reflexivity.
    + assert (SZ : SafeDecoder.readArraySize r
                   = Done (Ok 0) (Reader.advance r 1))
        by (unfold SafeDecoder.readArraySize; run_read G; reflexivity).
      unfold SafeDecoder.readArray. run_read SZ. reflexivity.
    + unfold SafeDecoder.readNullableMap. run_read N. reflexivity.
    + assert (SZ : SafeDecoder.readMapSize r
                   = Done (Err (BadLengthPrefix Format.NIL))
                       (Reader.advance r 1))
        by (unfold SafeDecoder.readMapSize; run_read G; reflexivity).
      unfold SafeDecoder.readMap. run_read SZ. reflexivity.
  - pose proof (isNextNil_other r b rest H E) as N. split.
    + unfold SafeDecoder.readNullableArray. run_read N.
      unfold bind. destruct (SafeDecoder.readArray fn r) as [[a|e] r'|x r'];
        reflexivity.
    + unfold SafeDecoder.readNullableMap. run_read N.
      unfold bind.
      destruct (SafeDecoder.readMap eqb keyFn valueFn r) as [[m|e] r'|x r'];
        reflexivity.
Qed.

(** The buffer [c0]. *)
Lemma nullable_readers_spec_witness :
  Reader.remaining (Reader.create (bytes [0xc0])) = bytes [0xc0]
  /\ SafeDecoder.readNullableArray (fun _ => SafeDecoder.readInt64)
       (Reader.create (bytes [0xc0]))
     = Done (Ok None) (mkReader (bytes [0xc0]) 1)
  /\ SafeDecoder.readArray (fun _ => SafeDecoder.readInt64)
       (Reader.create (bytes [0xc0]))
     = Done (Ok []) (mkReader (bytes [0xc0]) 1).
Proof.
  split; [reflexivity|].
  destruct (proj1 (nullable_readers_spec (fun _ => SafeDecoder.readInt64)
                     Z.eqb (fun _ => SafeDecoder.readInt64)
                     (fun _ => SafeDecoder.readInt64)
                     (Reader.create (bytes [0xc0])) _ [] eq_refl) eq_refl)
    as (A & B & _).
  split; [exact A | exact B].
Defined.

(** ** The facade over the generic readers *)

Lemma unwrapped_run {T} (fn : SafeDecoder.ElementFn T) (i : option Z)
  (r : DataReader) :
  unwrapped fn i r
  = match fn i r with
    | Done (Ok x) r' => Done x r'
    | Done (Err e) r' => Thrown (UnwrapFailed e) r'
    | Thrown x r' => Thrown x r'
    end.
Proof.
  unfold unwrapped, bind. destruct (fn i r) as [[x|e] r'|x r']; reflexivity.
Qed.

Lemma Decoder_readArray_loop_unwrapped {T} (fn : SafeDecoder.ElementFn T)
  (todo : nat) :
  forall (i : Z) (a : list T) (r : DataReader),
    Decoder.readArray_loop (unwrapped fn) todo i a r
    = (res <- SafeDecoder.readArray_loop (fun _ => fn None) todo i a ;;
       unwrap res) r.
Proof.
  induction todo as [|todo IH]; intros i a r;
    cbn [Decoder.readArray_loop SafeDecoder.readArray_loop].
  - reflexivity.
  - unfold bind. rewrite unwrapped_run.
    destruct (fn None r) as [[x|e] r'|x r']; [|reflexivity|reflexivity].
    rewrite IH. reflexivity.
Qed.

Lemma Decoder_readMap_loop_unwrapped {K V} (eqb : K -> K -> bool)
  (keyFn : SafeDecoder.ElementFn K) (valueFn : SafeDecoder.ElementFn V)
  (todo : nat) :
  forall (i : Z) (m : list (K * V)) (r : DataReader),
    Decoder.readMap_loop eqb (unwrapped keyFn) (unwrapped valueFn) todo i m r
    = (res <- SafeDecoder.readMap_loop eqb keyFn valueFn todo i m ;;
       unwrap res) r.
Proof.
  induction todo as [|todo IH]; intros i m r;
    cbn [Decoder.readMap_loop SafeDecoder.readMap_loop].
  - reflexivity.
  - unfold bind. rewrite unwrapped_run.
    destruct (keyFn (Some i) r) as [[k|e] r'|x r'];
      [|reflexivity|reflexivity].
    rewrite unwrapped_run.
    destruct (valueFn (Some i) r') as [[v|e] r''|x r''];
      [|reflexivity|reflexivity].
    rewrite IH. reflexivity.
Qed.

(** X11. The generic readers of the facade, run on element decoders that
    unwrap a fallible decoder, are the fallible generic readers followed by
    [unwrap]: same value, same cursor, and the failure of an element
    becomes an abort where the element failed.  For arrays the fallible
    decoder is the one that gets no index. *)
Theorem facade_generic_readers {T K V} (fn : SafeDecoder.ElementFn T)
  (eqb : K -> K -> bool) (keyFn : SafeDecoder.ElementFn K)
  (valueFn : SafeDecoder.ElementFn V) (r : DataReader) :
  Decoder.readArray (unwrapped fn) r
  = (res <- SafeDecoder.readArray (fun _ => fn None) ;; unwrap res) r
  /\ Decoder.readMap eqb (unwrapped keyFn) (unwrapped valueFn) r
     = (res <- SafeDecoder.readMap eqb keyFn valueFn ;; unwrap res) r
  /\ Decoder.readNullableArray (unwrapped fn) r
     = (res <- SafeDecoder.readNullableArray (fun _ => fn None) ;;
        match res with
        | Ok a => ret a
        | Err e => throw (UnwrapFailed e)
        end) r
  /\ Decoder.readNullableMap eqb (unwrapped keyFn) (unwrapped valueFn) r
     = (res <- SafeDecoder.readNullableMap eqb keyFn valueFn ;;
        match res with
        | Ok m => ret m
        | Err e => throw (UnwrapFailed e)
        end) r.
Proof.
  assert (A : forall r0, Decoder.readArray (unwrapped fn) r0
    = (res <- SafeDecoder.readArray (fun _ => fn None) ;; unwrap res) r0).
  { intros r0.
    unfold Decoder.readArray, SafeDecoder.readArray, Decoder.readArraySize,
      bind.
    destruct (SafeDecoder.readArraySize r0) as [[n|e] r'|x r'];
      [|reflexivity|reflexivity].
    cbn [unwrap ret]. rewrite Decoder_readArray_loop_unwrapped.
    reflexivity. }
  assert (B : forall r0,
    Decoder.readMap eqb (unwrapped keyFn) (unwrapped valueFn) r0
    = (res <- SafeDecoder.readMap eqb keyFn valueFn ;; unwrap res) r0).
  { intros r0.
    unfold Decoder.readMap, SafeDecoder.readMap, Decoder.readMapSize, bind.
    destruct (SafeDecoder.readMapSize r0) as [[n|e] r'|x r'];
      [|reflexivity|reflexivity].
    cbn [unwrap ret]. rewrite Decoder_readMap_loop_unwrapped.
    reflexivity. }
  split; [apply A|]. split; [apply B|]. split.
  - unfold Decoder.readNullableArray, SafeDecoder.readNullableArray,
      Decoder.isNextNil, bind.
    destruct (SafeDecoder.isNextNil r) as [[|] r'|x r'];
      [reflexivity| |reflexivity].
    rewrite A. unfold bind.
    destruct (SafeDecoder.readArray (fun _ => fn None) r') as [[a|e] r''|x r''];
      reflexivity.
  - unfold Decoder.readNullableMap, SafeDecoder.readNullableMap,
      Decoder.isNextNil, bind.
    destruct (SafeDecoder.isNextNil r) as [[|] r'|x r'];
      [reflexivity| |reflexivity].
    rewrite B. unfold bind.
    destruct (SafeDecoder.readMap eqb keyFn valueFn r') as [[m|e] r''|x r''];
      reflexivity.
Qed.

(** ** Floating point *)



(** ** The child count through the facade *)

Lemma as_u32_as_i32 (z : Z) : as_u32 (as_i32 z) = z mod 2 ^ 32.
Proof.
  unfold as_u32, as_i32, as_unsigned, as_signed. cbv zeta.
  destruct (Z.ltb_spec (z mod 2 ^ 32) (2 ^ (32 - 1))).
  - apply Z.mod_mod. lia.
  - rewrite <- (Z.mod_add _ 1) by lia.
    replace (z mod 2 ^ 32 - 2 ^ 32 + 1 * 2 ^ 32) with (z mod 2 ^ 32) by lia.
    apply Z.mod_mod. lia.
Qed.

(** X13. The facade returns the child count as a [u32]: for an array32 the
    count it returns is the count on the wire, whatever its size (the
    [i32] of the decoder is read back as unsigned), and for a map32 of [n]
    pairs it is [2 * n] modulo 2^32. *)
Theorem Decoder_getSize_unsigned (r : DataReader) (n : Z)
  (rest : list byte) :
  0 <= n < 2 ^ 32 ->
  (Reader.remaining r = byte_of_Z Format.ARRAY32 :: be_bytes 4 n ++ rest ->
   Decoder.getSize r = Done n (Reader.advance r 5))
  /\ (Reader.remaining r = byte_of_Z Format.MAP32 :: be_bytes 4 n ++ rest ->
      Decoder.getSize r = Done ((2 * n) mod 2 ^ 32) (Reader.advance r 5)).
Proof.
  intros Hn. split; intros H; unfold Decoder.getSize.
  - run_read (getSize_array32 r n rest Hn H).
    rewrite as_u32_as_i32, Z.mod_small by exact Hn. reflexivity.
  - run_read (getSize_map32 r n rest Hn H).
    unfold SafeDecoder.i32_mul. rewrite as_u32_as_i32.
    unfold ret. f_equal.
    pose proof (as_u32_as_i32 n) as E. unfold as_u32, as_unsigned in E.
    rewrite <- Z.mul_mod_idemp_r, E, Z.mul_mod_idemp_r by lia.
    reflexivity.
Qed.

(** An array32 that announces 2^31 elements. *)
Lemma Decoder_getSize_unsigned_witness :
  0 <= 2 ^ 31 < 2 ^ 32
  /\ SafeDecoder.getSize (Reader.create (bytes [0xdd; 0x80; 0; 0; 0]))
     = Done (- 2 ^ 31) (mkReader (bytes [0xdd; 0x80; 0; 0; 0]) 5)
  /\ Decoder.getSize (Reader.create (bytes [0xdd; 0x80; 0; 0; 0]))
     = Done (2 ^ 31) (mkReader (bytes [0xdd; 0x80; 0; 0; 0]) 5).
Proof.
  split; [lia|]. split; [reflexivity|].
  apply (proj1 (Decoder_getSize_unsigned
                  (Reader.create (bytes [0xdd; 0x80; 0; 0; 0])) (2 ^ 31) []
                  ltac:(lia))).
  reflexivity.
Defined.

(** ** The cursor stays on the bytes that remain *)

Lemma consumed_refl (r : DataReader) : consumed r r [].
Proof. split; [reflexivity | symmetry; apply advance_0]. Qed.

Lemma consumed_trans (r r1 r2 : DataReader) (h1 h2 : list byte) :
  consumed r r1 h1 -> consumed r1 r2 h2 -> consumed r r2 (h1 ++ h2).
Proof.
  intros [R1 A1] [R2 A2]. split.
  - rewrite R1, R2, app_assoc. reflexivity.
  - rewrite A2, A1, advance_advance, length_app. reflexivity.
Qed.

Lemma take_consumed (method : string) (n : nat) (r r' : DataReader)
  (bs : list byte) :
  Reader.take method n r = Done bs r' -> consumed r r' bs.
Proof.
  unfold Reader.take.
  destruct (Nat.leb_spec n (List.length (Reader.remaining r))) as [L|L];
    intros H; [|discriminate H].
  injection H as <- <-. split.
  - rewrite remaining_advance, firstn_skipn. reflexivity.
  - rewrite firstn_length_le by exact L. reflexivity.
Qed.

Lemma prefix_ret {A} (a : A) : prefix_reader (ret a).
Proof. intros r. exists []. apply consumed_refl. Qed.

Lemma prefix_throw {A} (e : exn) : prefix_reader (@throw A e).
Proof. intros r. exists []. apply consumed_refl. Qed.

Lemma prefix_bind {A B} (c : M A) (k : A -> M B) :
  prefix_reader c -> (forall a, prefix_reader (k a)) ->
  prefix_reader (bind c k).
Proof.
  intros Hc Hk r. destruct (Hc r) as [h1 H1]. unfold bind.
  destruct (c r) as [a r1|e r1].
  - destruct (Hk a r1) as [h2 H2]. exists (h1 ++ h2).
    destruct (k a r1) as [b r2|e r2];
      exact (consumed_trans _ _ _ _ _ H1 H2).
  - exists h1. exact H1.
Qed.

Lemma prefix_take (method : string) (n : nat) :
  prefix_reader (Reader.take method n).
Proof.
  intros r. destruct (Reader.take method n r) as [bs r'|e r'] eqn:E.
  - exists bs. exact (take_consumed _ _ _ _ _ E).
  - exists []. unfold Reader.take in E.
    destruct (n <=? List.length (Reader.remaining r))%nat;
      [discriminate E|].
    injection E as _ <-. apply consumed_refl.
Qed.

Lemma prefix_peekUint8 : prefix_reader Reader.peekUint8.
Proof.
  intros r. exists []. unfold Reader.peekUint8.
  destruct (Reader.remaining r); apply consumed_refl.
Qed.

Lemma prefix_discard (n : Z) : 0 <= n -> prefix_reader (Reader.discard n).
Proof.
  intros Hn r. unfold Reader.discard.
  destruct (Z.ltb_spec (Z.of_nat (List.length (Reader.remaining r))) n)
    as [L|L].
  - exists []. apply consumed_refl.
  - exists (firstn (Z.to_nat n) (Reader.remaining r)).
    replace (mkReader (buffer r) (Z.to_nat (Z.of_nat (byteOffset r) + n)))
      with (Reader.advance r (Z.to_nat n))
      by (unfold Reader.advance; f_equal; lia).
    split.
    + rewrite remaining_advance, firstn_skipn. reflexivity.
    + rewrite firstn_length_le by lia. reflexivity.
Qed.

(** One step on a read built from the cursor's methods. *)
Ltac prefix_step :=
  first
    [ apply prefix_ret
    | apply prefix_throw
    | apply prefix_take
    | apply prefix_peekUint8
    | apply prefix_discard; lia
    | assumption
    | apply prefix_bind; [|intros ?]
    | progress cbv zeta
    | match goal with
      | |- prefix_reader (if ?c then _ else _) => destruct c
      | |- prefix_reader (match ?x with _ => _ end) => destruct x
      end ].

Ltac prefix_reads :=
  unfold unwrap, Reader.getUint8, Reader.getUint16, Reader.getUint32,
    Reader.getUint64, Reader.getInt8, Reader.getInt16, Reader.getInt32,
    Reader.getInt64, Reader.getBytes, SafeDecoder.getFloat32,
    SafeDecoder.getFloat64;
  repeat prefix_step.

Lemma prefix_isNextNil : prefix_reader SafeDecoder.isNextNil.
Proof. unfold SafeDecoder.isNextNil. prefix_reads. Qed.

Lemma prefix_readInt64 : prefix_reader SafeDecoder.readInt64.
Proof. unfold SafeDecoder.readInt64. prefix_reads. Qed.

Lemma prefix_readUInt64 : prefix_reader SafeDecoder.readUInt64.
Proof. unfold SafeDecoder.readUInt64. prefix_reads. Qed.

Lemma prefix_readStringLength : prefix_reader SafeDecoder.readStringLength.
Proof. unfold SafeDecoder.readStringLength. prefix_reads. Qed.

Lemma prefix_readBinLength : prefix_reader SafeDecoder.readBinLength.
Proof.
  pose proof prefix_isNextNil.
  unfold SafeDecoder.readBinLength. prefix_reads.
Qed.

Lemma prefix_readArraySize : prefix_reader SafeDecoder.readArraySize.
Proof. unfold SafeDecoder.readArraySize. prefix_reads. Qed.

Lemma prefix_readMapSize : prefix_reader SafeDecoder.readMapSize.
Proof. unfold SafeDecoder.readMapSize. prefix_reads. Qed.

Lemma prefix_readArray_loop {T} (fn : SafeDecoder.ElementFn T) :
  (forall i, prefix_reader (fn i)) ->
  forall (todo : nat) (i : Z) (a : list T),
    prefix_reader (SafeDecoder.readArray_loop fn todo i a).
Proof.
  intros Hf. induction todo as [|todo IH]; intros i a;
    cbn [SafeDecoder.readArray_loop].
  - apply prefix_ret.
  - apply prefix_bind; [apply Hf|]. intros [x|e];
      [apply IH | apply prefix_ret].
Qed.

Lemma prefix_readMap_loop {K V} (eqb : K -> K -> bool)
  (keyFn : SafeDecoder.ElementFn K) (valueFn : SafeDecoder.ElementFn V) :
  (forall i, prefix_reader (keyFn i)) ->
  (forall i, prefix_reader (valueFn i)) ->
  forall (todo : nat) (i : Z) (m : list (K * V)),
    prefix_reader (SafeDecoder.readMap_loop eqb keyFn valueFn todo i m).
Proof.
  intros Hk Hv. induction todo as [|todo IH]; intros i m;
    cbn [SafeDecoder.readMap_loop].
  - apply prefix_ret.
  - apply prefix_bind; [apply Hk|]. intros [k|e]; [|apply prefix_ret].
    apply prefix_bind; [apply Hv|]. intros [x|e];
      [apply IH | apply prefix_ret].
Qed.

Lemma prefix_readArray {T} (fn : SafeDecoder.ElementFn T) :
  (forall i, prefix_reader (fn i)) ->
  prefix_reader (SafeDecoder.readArray fn).
Proof.
  intros Hf. unfold SafeDecoder.readArray.
  apply prefix_bind; [apply prefix_readArraySize|].
  intros [n|e]; [apply (prefix_readArray_loop fn Hf) | apply prefix_ret].
Qed.

Lemma prefix_readMap {K V} (eqb : K -> K -> bool)
  (keyFn : SafeDecoder.ElementFn K) (valueFn : SafeDecoder.ElementFn V) :
  (forall i, prefix_reader (keyFn i)) ->
  (forall i, prefix_reader (valueFn i)) ->
  prefix_reader (SafeDecoder.readMap eqb keyFn valueFn).
Proof.
  intros Hk Hv. unfold SafeDecoder.readMap.
  apply prefix_bind; [apply prefix_readMapSize|].
  intros [n|e];
    [apply (prefix_readMap_loop eqb keyFn valueFn Hk Hv) | apply prefix_ret].
Qed.

(** X14. No read of the fallible decoder other than [getSize] and [skip]
    leaves the bytes that remain: whether it returns a value, returns an
    error or throws, the cursor has moved over a prefix of the bytes that
    remained, never back and never past the end of the buffer.  The generic
    readers keep to this whenever their element decoders do. *)
Theorem readers_consume_a_prefix {T K V} (fn : SafeDecoder.ElementFn T)
  (eqb : K -> K -> bool) (keyFn : SafeDecoder.ElementFn K)
  (valueFn : SafeDecoder.ElementFn V) :
  (forall i, prefix_reader (fn i)) ->
  (forall i, prefix_reader (keyFn i)) ->
  (forall i, prefix_reader (valueFn i)) ->
  prefix_reader SafeDecoder.isNextNil
  /\ prefix_reader SafeDecoder.readBool
  /\ prefix_reader SafeDecoder.readInt8
  /\ prefix_reader SafeDecoder.readInt16
  /\ prefix_reader SafeDecoder.readInt32
  /\ prefix_reader SafeDecoder.readInt64
  /\ prefix_reader SafeDecoder.readUInt8
  /\ prefix_reader SafeDecoder.readUInt16
  /\ prefix_reader SafeDecoder.readUInt32
  /\ prefix_reader SafeDecoder.readUInt64
  /\ (forall F : FloatOps, prefix_reader (@SafeDecoder.readFloat32 F))
  /\ (forall F : FloatOps, prefix_reader (@SafeDecoder.readFloat64 F))
  /\ prefix_reader SafeDecoder.readStringLength
  /\ (forall S : StringOps, prefix_reader SafeDecoder.readString)
  /\ prefix_reader SafeDecoder.readBinLength
  /\ prefix_reader SafeDecoder.readByteArray
  /\ prefix_reader SafeDecoder.readArraySize
  /\ prefix_reader SafeDecoder.readMapSize
  /\ prefix_reader (SafeDecoder.readArray fn)
  /\ prefix_reader (SafeDecoder.readNullableArray fn)
  /\ prefix_reader (SafeDecoder.readMap eqb keyFn valueFn)
  /\ prefix_reader (SafeDecoder.readNullableMap eqb keyFn valueFn).
Proof.
  intros Hf Hk Hv.
  pose proof prefix_isNextNil as P0.
  pose proof prefix_readInt64 as P1.
  pose proof prefix_readUInt64 as P2.
  pose proof prefix_readStringLength as P3.
  pose proof prefix_readBinLength as P4.
  pose proof prefix_readArraySize as P5.
  pose proof prefix_readMapSize as P6.
  pose proof (prefix_readArray fn Hf) as P7.
  pose proof (prefix_readMap eqb keyFn valueFn Hk Hv) as P8.
  repeat match goal with |- _ /\ _ => split end; try assumption.
  - unfold SafeDecoder.readBool. prefix_reads.
  - unfold SafeDecoder.readInt8. prefix_reads.
  - unfold SafeDecoder.readInt16. prefix_reads.
  - unfold SafeDecoder.readInt32. prefix_reads.
  - unfold SafeDecoder.readUInt8. prefix_reads.
  - unfold SafeDecoder.readUInt16. prefix_reads.
  - unfold SafeDecoder.readUInt32. prefix_reads.
  - intros F. unfold SafeDecoder.readFloat32. prefix_reads.
  - intros F. unfold SafeDecoder.readFloat64. prefix_reads.
  - intros S. unfold SafeDecoder.readString. prefix_reads.
  - unfold SafeDecoder.readByteArray. prefix_reads.
  - unfold SafeDecoder.readNullableArray. prefix_reads.
  - unfold SafeDecoder.readNullableMap. prefix_reads.
Qed.

(** An array of binary values read off the buffer [92 c4 01 61]: the
    second element is missing, the read throws, and the cursor is left at
    the end of the buffer, four bytes on. *)
Lemma readers_consume_a_prefix_witness :
  prefix_reader SafeDecoder.readByteArray
  /\ exists h,
       match SafeDecoder.readArray (fun _ => SafeDecoder.readByteArray)
               (Reader.create (bytes [0x92; 0xc4; 1; 0x61])) with
       | Done _ r' =>
           consumed (Reader.create (bytes [0x92; 0xc4; 1; 0x61])) r' h
       | Thrown _ r' =>
           consumed (Reader.create (bytes [0x92; 0xc4; 1; 0x61])) r' h
           /\ r' = mkReader (bytes [0x92; 0xc4; 1; 0x61]) 4
       end.
Proof.
  assert (B : prefix_reader SafeDecoder.readByteArray).
  { pose proof prefix_readBinLength.
    unfold SafeDecoder.readByteArray. prefix_reads. }
  split; [exact B|].
  destruct (readers_consume_a_prefix (fun _ => SafeDecoder.readByteArray)
              (fun _ _ => false) (fun _ => SafeDecoder.readByteArray)
              (fun _ => SafeDecoder.readByteArray)
              (fun _ => B) (fun _ => B) (fun _ => B))
    as (_ & _ & _ & _ & _ & _ & _ & _ & _ & _ & _ & _ & _ & _ & _ & _ & _
        & _ & A & _).
  destruct (A (Reader.create (bytes [0x92; 0xc4; 1; 0x61]))) as [h Hh].
  exists h. revert Hh.
  change (SafeDecoder.readArray (fun _ => SafeDecoder.readByteArray)
            (Reader.create (bytes [0x92; 0xc4; 1; 0x61])))
    with (@Thrown (Result (list (list byte))) (BufferUnderrun "peekUint8" 1)
            (mkReader (bytes [0x92; 0xc4; 1; 0x61]) 4)).
  intros Hh. split; [exact Hh | reflexivity].
Defined.

Lemma prefix_Decoder_readArray_loop {T} (fn : Decoder.ElementFn T) :
  (forall i, prefix_reader (fn i)) ->
  forall (todo : nat) (i : Z) (a : list T),
    prefix_reader (Decoder.readArray_loop fn todo i a).
Proof.
  intros Hf. induction todo as [|todo IH]; intros i a;
    cbn [Decoder.readArray_loop].
  - apply prefix_ret.
  - apply prefix_bind; [apply Hf|]. intros x. apply IH.
Qed.

Lemma prefix_Decoder_readMap_loop {K V} (eqb : K -> K -> bool)
  (keyFn : Decoder.ElementFn K) (valueFn : Decoder.ElementFn V) :
  (forall i, prefix_reader (keyFn i)) ->
  (forall i, prefix_reader (valueFn i)) ->
  forall (todo : nat) (i : Z) (m : list (K * V)),
    prefix_reader (Decoder.readMap_loop eqb keyFn valueFn todo i m).
Proof.
  intros Hk Hv. induction todo as [|todo IH]; intros i m;
    cbn [Decoder.readMap_loop].
  - apply prefix_ret.
  - apply prefix_bind; [apply Hk|]. intros k.
    apply prefix_bind; [apply Hv|]. intros x. apply IH.
Qed.

Lemma prefix_unwrapping {T} (c : M (Result T)) :
  prefix_reader c -> prefix_reader (result <- c ;; unwrap result).
Proof.
  intros Hc. apply prefix_bind; [exact Hc|].
  intros [v|e]; [apply prefix_ret | apply prefix_throw].
Qed.

(** X15. The facade keeps to the bytes that remain as the fallible decoder
    does: each of its reads, [getSize] and [skip] apart, moves the cursor
    over a prefix of the bytes that remained, also when it aborts on a
    failed read; its generic readers do whenever their element decoders
    do. *)
Theorem facade_consumes_a_prefix {T K V} (fn : Decoder.ElementFn T)
  (eqb : K -> K -> bool) (keyFn : Decoder.ElementFn K)
  (valueFn : Decoder.ElementFn V) :
  (forall i, prefix_reader (fn i)) ->
  (forall i, prefix_reader (keyFn i)) ->
  (forall i, prefix_reader (valueFn i)) ->
  prefix_reader Decoder.isNextNil
  /\ prefix_reader Decoder.readBool
  /\ prefix_reader Decoder.readInt8
  /\ prefix_reader Decoder.readInt16
  /\ prefix_reader Decoder.readInt32
  /\ prefix_reader Decoder.readInt64
  /\ prefix_reader Decoder.readUInt8
  /\ prefix_reader Decoder.readUInt16
  /\ prefix_reader Decoder.readUInt32
  /\ prefix_reader Decoder.readUInt64
  /\ (forall F : FloatOps, prefix_reader (@Decoder.readFloat32 F))
  /\ (forall F : FloatOps, prefix_reader (@Decoder.readFloat64 F))
  /\ prefix_reader Decoder.readStringLength
  /\ (forall S : StringOps, prefix_reader Decoder.readString)
  /\ prefix_reader Decoder.readBinLength
  /\ prefix_reader Decoder.readByteArray
  /\ prefix_reader Decoder.readArraySize
  /\ prefix_reader Decoder.readMapSize
  /\ prefix_reader (Decoder.readArray fn)
  /\ prefix_reader (Decoder.readNullableArray fn)
  /\ prefix_reader (Decoder.readMap eqb keyFn valueFn)
  /\ prefix_reader (Decoder.readNullableMap eqb keyFn valueFn).
Proof.
  intros Hf Hk Hv.
  pose proof prefix_isNextNil as P0.
  pose proof prefix_readInt64 as P1.
  pose proof prefix_readUInt64 as P2.
  pose proof prefix_readStringLength as P3.
  pose proof prefix_readBinLength as P4.
  pose proof prefix_readArraySize as P5.
  pose proof prefix_readMapSize as P6.
  assert (A : prefix_reader (Decoder.readArray fn)).
  { unfold Decoder.readArray. apply prefix_bind.
    - apply prefix_unwrapping, P5.
    - intros n. apply (prefix_Decoder_readArray_loop fn Hf). }
  assert (B : prefix_reader (Decoder.readMap eqb keyFn valueFn)).
  { unfold Decoder.readMap. apply prefix_bind.
    - apply prefix_unwrapping, P6.
    - intros n. apply (prefix_Decoder_readMap_loop eqb keyFn valueFn Hk Hv). }
  repeat match goal with |- _ /\ _ => split end;
    try assumption; try intros F;
    try (apply prefix_unwrapping; try assumption).
  - unfold SafeDecoder.readBool. prefix_reads.
  - unfold SafeDecoder.readInt8. prefix_reads.
  - unfold SafeDecoder.readInt16. prefix_reads.
  - unfold SafeDecoder.readInt32. prefix_reads.
  - unfold SafeDecoder.readUInt8. prefix_reads.
  - unfold SafeDecoder.readUInt16. prefix_reads.
  - unfold SafeDecoder.readUInt32. prefix_reads.
  - unfold SafeDecoder.readFloat32. prefix_reads.
  - unfold SafeDecoder.readFloat64. prefix_reads.
  - unfold SafeDecoder.readString. prefix_reads.
  - unfold SafeDecoder.readByteArray. prefix_reads.
  - unfold Decoder.readNullableArray, Decoder.isNextNil. prefix_reads.
  - unfold Decoder.readNullableMap, Decoder.isNextNil. prefix_reads.
Qed.

(** A map of integers to booleans read off the buffer [81 01 c0]: the
    value is nil, the boolean read fails, the facade aborts, and the cursor
    is left after the rejected byte. *)
Lemma facade_consumes_a_prefix_witness :
  prefix_reader Decoder.readInt64
  /\ prefix_reader Decoder.readBool
  /\ exists h,
       match Decoder.readMap Z.eqb (fun _ => Decoder.readInt64)
               (fun _ => Decoder.readBool)
               (Reader.create (bytes [0x81; 1; 0xc0])) with
       | Done _ r' => consumed (Reader.create (bytes [0x81; 1; 0xc0])) r' h
       | Thrown _ r' =>
           consumed (Reader.create (bytes [0x81; 1; 0xc0])) r' h
           /\ r' = mkReader (bytes [0x81; 1; 0xc0]) 3
       end.
Proof.
  assert (I : prefix_reader Decoder.readInt64)
    by (apply prefix_unwrapping, prefix_readInt64).
  assert (B : prefix_reader Decoder.readBool).
  { apply prefix_unwrapping. unfold SafeDecoder.readBool. prefix_reads. }
  split; [exact I|]. split; [exact B|].
  destruct (facade_consumes_a_prefix (fun _ => Decoder.readInt64)
              Z.eqb (fun _ => Decoder.readInt64)
              (fun _ => Decoder.readBool)
              (fun _ => I) (fun _ => I) (fun _ => B))
    as (_ & _ & _ & _ & _ & _ & _ & _ & _ & _ & _ & _ & _ & _ & _ & _ & _
        & _ & _ & _ & A & _).
  destruct (A (Reader.create (bytes [0x81; 1; 0xc0]))) as [h Hh].
  exists h. revert Hh.
  change (Decoder.readMap Z.eqb (fun _ => Decoder.readInt64)
            (fun _ => Decoder.readBool)
            (Reader.create (bytes [0x81; 1; 0xc0])))
    with (@Thrown (list (Z * bool))
            (UnwrapFailed (BadBoolValue 0xc0))
            (mkReader (bytes [0x81; 1; 0xc0]) 3)).
  intros Hh. split; [exact Hh | reflexivity].
Defined.

(** ** Strings and binary data *)

(** X16. A binary read returns the bytes of the buffer that follow the
    header, as many as the header announces; a string read returns what
    [String.UTF8.decode] makes of those bytes; in both cases the cursor is
    left right after them. *)
Theorem payload_is_the_announced_slice (r r' : DataReader) :
  (forall (S : StringOps) (s : text),
     SafeDecoder.readString r = Done (Ok s) r' ->
     exists n r1 bs,
       SafeDecoder.readStringLength r = Done (Ok n) r1
       /\ len bs = n /\ consumed r1 r' bs
       /\ s = String_UTF8_decode bs)
  /\ (forall s : list byte,
        SafeDecoder.readByteArray r = Done (Ok s) r' ->
        exists n r1,
          SafeDecoder.readBinLength r = Done (Ok n) r1
          /\ len s = n /\ consumed r1 r' s).
Proof.
  split.
  - intros S s H. unfold SafeDecoder.readString in H.
    apply bind_inv in H as ([n|e] & r1 & Hl & H); [|discriminate H].
    unfold Reader.getBytes in H.
    apply bind_inv in H as (bs & r2 & Ht & H). injection H as <- ->.
    exists n, r1, bs. split; [exact Hl|].
    pose proof (length_readers_range r r1 n (or_introl Hl)) as Hn.
    split; [|split; [exact (take_consumed _ _ _ _ _ Ht) | reflexivity]].
    apply take_length in Ht. unfold len. lia.
  - intros s H. unfold SafeDecoder.readByteArray in H.
    apply bind_inv in H as ([n|e] & r1 & Hl & H); [|discriminate H].
    unfold Reader.getBytes in H.
    apply bind_inv in H as (bs & r2 & Ht & H). injection H as -> ->.
    exists n, r1. split; [exact Hl|].
    pose proof (length_readers_range r r1 n (or_intror (or_introl Hl)))
      as Hn.
    split; [|exact (take_consumed _ _ _ _ _ Ht)].
    apply take_length in Ht. unfold len. lia.
Qed.

(** The bin8 value [61 62] followed by one more byte. *)
Lemma payload_is_the_announced_slice_witness :
  SafeDecoder.readByteArray
    (Reader.create (bytes [0xc4; 2; 0x61; 0x62; 0xc0]))
  = Done (Ok (bytes [0x61; 0x62]))
      (mkReader (bytes [0xc4; 2; 0x61; 0x62; 0xc0]) 4)
  /\ exists n r1,
       SafeDecoder.readBinLength
         (Reader.create (bytes [0xc4; 2; 0x61; 0x62; 0xc0]))
       = Done (Ok n) r1
       /\ len (bytes [0x61; 0x62]) = n
       /\ consumed r1 (mkReader (bytes [0xc4; 2; 0x61; 0x62; 0xc0]) 4)
            (bytes [0x61; 0x62]).
Proof.
  split; [reflexivity|].
  apply (proj2 (payload_is_the_announced_slice
                  (Reader.create (bytes [0xc4; 2; 0x61; 0x62; 0xc0]))
                  (mkReader (bytes [0xc4; 2; 0x61; 0x62; 0xc0]) 4))
           (bytes [0x61; 0x62])).
  reflexivity.
Defined.

(** ** Booleans *)

(** X17. [readBool] decodes the two boolean encodings and nothing else: on
    any other well-formed encoded value (nil, an integer such as 0 or 1, a
    string, a container, ...) it returns a bad-value error that carries
    the lead byte, and the facade aborts on it; in every case exactly the
    lead byte is consumed. *)
Theorem readBool_accepts_only_bools (v : msg) (r : DataReader)
  (suf : list byte) :
  wf v = true ->
  Reader.remaining r = encode v ++ suf ->
  let lead := Z_of_byte (hd "000"%byte (encode v)) in
  SafeDecoder.readBool r
  = Done (match v with
          | Leaf LTrue _ => Ok true
          | Leaf LFalse _ => Ok false
          | _ => Err (BadBoolValue lead)
          end) (Reader.advance r 1)
  /\ Decoder.readBool r
     = match v with
       | Leaf LTrue _ => Done true (Reader.advance r 1)
       | Leaf LFalse _ => Done false (Reader.advance r 1)
       | _ => Thrown (UnwrapFailed (BadBoolValue lead)) (Reader.advance r 1)
       end.
Proof.
  intros W H lead.
  assert (S : SafeDecoder.readBool r
              = Done (match v with
                      | Leaf LTrue _ => Ok true
                      | Leaf LFalse _ => Ok false
                      | _ => Err (BadBoolValue lead)
                      end) (Reader.advance r 1)).
  { subst lead. unfold SafeDecoder.readBool.
    destruct v as [t p|f elems|f pairs]; cbn [wf] in W;
      [ destruct t; cbn [leaf_wf] in W
      | destruct f; apply andb_prop in W; destruct W as [W _];
        cbn [arr_wf] in W
      | destruct f; apply andb_prop in W; destruct W as [W _];
        cbn [map_wf] in W ];
      wf_hyps;
      cbn [encode leaf_header arr_header map_header app hd] in H |- *;
      run_read (getUint8_at _ _ _ H);
      match goal with
      | |- context [Z_of_byte (byte_of_Z ?x)] =>
          rewrite (Z_of_byte_of_Z x)
            by (unfold_format; unfold len in *; lia)
      end;
      unfold_format;
      repeat match goal with
      | |- context [if ?x =? ?y then _ else _] =>
          destruct (Z.eqb_spec x y); try (unfold len in *; lia)
      end;
      reflexivity. }
  split; [exact S|].
  unfold Decoder.readBool. run_read S.
  destruct v as [t p|f elems|f pairs]; [destruct t| |]; reflexivity.
Qed.

(** The fixint 1 is not a boolean. *)
Lemma readBool_accepts_only_bools_witness :
  wf (Leaf (LFixInt 1) []) = true
  /\ Reader.remaining (Reader.create (bytes [1]))
     = encode (Leaf (LFixInt 1) []) ++ []
  /\ SafeDecoder.readBool (Reader.create (bytes [1]))
     = Done (Err (BadBoolValue 1)) (mkReader (bytes [1]) 1).
Proof.
  split; [reflexivity|]. split; [reflexivity|].
  apply (proj1 (readBool_accepts_only_bools (Leaf (LFixInt 1) [])
                  (Reader.create (bytes [1])) [] eq_refl eq_refl)).
Defined.

(** ** No read gives the lead byte back *)

Lemma consumed_lead (r : DataReader) (b : byte) (rest : list byte) :
  Reader.remaining r = b :: rest -> consumed r (Reader.advance r 1) [b].
Proof.
  intros H. split; [|reflexivity].
  rewrite (remaining_advance_1 _ _ _ H). exact H.
Qed.

Lemma lead_getUint8 {A} (k : Z -> M A) :
  (forall p, prefix_reader (k p)) ->
  consumes_lead_byte (p <- Reader.getUint8 ;; k p).
Proof.
  intros Hk r b rest H.
  rewrite (bind_Done _ _ _ _ _ (getUint8_at _ _ _ H)).
  destruct (Hk (Z_of_byte b) (Reader.advance r 1)) as [h Hh].
  exists h. pose proof (consumed_lead r b rest H) as C.
  destruct (k (Z_of_byte b) (Reader.advance r 1));
    exact (consumed_trans _ _ _ _ _ C Hh).
Qed.

Lemma lead_bind {A B} (c : M A) (k : A -> M B) :
  consumes_lead_byte c -> (forall a, prefix_reader (k a)) ->
  consumes_lead_byte (bind c k).
Proof.
  intros Hc Hk r b rest H. destruct (Hc r b rest H) as [h1 H1].
  unfold bind. destruct (c r) as [a r1|e r1].
  - destruct (Hk a r1) as [h2 H2]. exists (h1 ++ h2).
    destruct (k a r1); exact (consumed_trans _ _ _ _ _ H1 H2).
  - exists h1. exact H1.
Qed.

Lemma lead_isNextNil {A} (k : bool -> M A) :
  prefix_reader (k true) -> consumes_lead_byte (k false) ->
  consumes_lead_byte (nil <- SafeDecoder.isNextNil ;; k nil).
Proof.
  intros Ht Hf r b rest H.
  destruct (Z.eq_dec (Z_of_byte b) Format.NIL) as [N|N].
  - rewrite (bind_Done _ _ _ _ _ (isNextNil_nil r b rest H N)).
    destruct (Ht (Reader.advance r 1)) as [h Hh].
    exists h. pose proof (consumed_lead r b rest H) as C.
    destruct (k true (Reader.advance r 1));
      exact (consumed_trans _ _ _ _ _ C Hh).
  - rewrite (bind_Done _ _ _ _ _ (isNextNil_other r b rest H N)).
    apply (Hf r b rest H).
Qed.

(** A read that starts with [getUint8] and goes on with cursor reads. *)
Ltac lead_reads := apply lead_getUint8; intros ?; prefix_reads.

Lemma lead_readInt64 : consumes_lead_byte SafeDecoder.readInt64.
Proof. unfold SafeDecoder.readInt64. lead_reads. Qed.

Lemma lead_readUInt64 : consumes_lead_byte SafeDecoder.readUInt64.
Proof. unfold SafeDecoder.readUInt64. lead_reads. Qed.

Lemma lead_readStringLength : consumes_lead_byte SafeDecoder.readStringLength.
Proof. unfold SafeDecoder.readStringLength. lead_reads. Qed.

Lemma lead_readBinLength : consumes_lead_byte SafeDecoder.readBinLength.
Proof.
  unfold SafeDecoder.readBinLength. apply lead_isNextNil;
    [apply prefix_ret | lead_reads].
Qed.

Lemma lead_readArraySize : consumes_lead_byte SafeDecoder.readArraySize.
Proof. unfold SafeDecoder.readArraySize. lead_reads. Qed.

Lemma lead_readMapSize : consumes_lead_byte SafeDecoder.readMapSize.
Proof. unfold SafeDecoder.readMapSize. lead_reads. Qed.

Lemma lead_readArray {T} (fn : SafeDecoder.ElementFn T) :
  (forall i, prefix_reader (fn i)) ->
  consumes_lead_byte (SafeDecoder.readArray fn).
Proof.
  intros Hf. unfold SafeDecoder.readArray.
  apply lead_bind; [apply lead_readArraySize|].
  intros [n|e]; [apply (prefix_readArray_loop fn Hf) | apply prefix_ret].
Qed.

Lemma lead_readMap {K V} (eqb : K -> K -> bool)
  (keyFn : SafeDecoder.ElementFn K) (valueFn : SafeDecoder.ElementFn V) :
  (forall i, prefix_reader (keyFn i)) ->
  (forall i, prefix_reader (valueFn i)) ->
  consumes_lead_byte (SafeDecoder.readMap eqb keyFn valueFn).
Proof.
  intros Hk Hv. unfold SafeDecoder.readMap.
  apply lead_bind; [apply lead_readMapSize|].
  intros [n|e];
    [apply (prefix_readMap_loop eqb keyFn valueFn Hk Hv) | apply prefix_ret].
Qed.

(** A read that starts with [getUint8]: its tag test on a byte outside
    the accepted ones. *)
Ltac rejects_tag :=
  let r := fresh "r" in let b := fresh "b" in let rest := fresh "rest" in
  let H := fresh "H" in let R := fresh "R" in
  intros r b rest H; pose proof (Z_of_byte_range b) as R;
  unfold SafeDecoder.isFloat32, SafeDecoder.isFloat64;
  rejects_outside H.

Lemma readBool_rejects :
  rejects_lead_byte SafeDecoder.readBool bool_tags BadBoolValue.
Proof.
  unfold rejects_lead_byte, bool_tags, SafeDecoder.readBool. rejects_tag.
Qed.

Lemma readInt64_rejects :
  rejects_lead_byte SafeDecoder.readInt64 int_tags BadIntPrefix.
Proof.
  unfold rejects_lead_byte, int_tags, SafeDecoder.readInt64. rejects_tag.
Qed.

Lemma readUInt64_rejects :
  rejects_lead_byte SafeDecoder.readUInt64 uint_tags BadUnsignedIntPrefix.
Proof.
  unfold rejects_lead_byte, uint_tags, SafeDecoder.readUInt64. rejects_tag.
Qed.

Lemma readFloat32_rejects (F : FloatOps) :
  rejects_lead_byte SafeDecoder.readFloat32 float_tags BadFloatPrefix.
Proof.
  unfold rejects_lead_byte, float_tags, SafeDecoder.readFloat32.
  rejects_tag.
Qed.

Lemma readFloat64_rejects (F : FloatOps) :
  rejects_lead_byte SafeDecoder.readFloat64 float_tags BadFloatPrefix.
Proof.
  unfold rejects_lead_byte, float_tags, SafeDecoder.readFloat64.
  rejects_tag.
Qed.

Lemma readStringLength_rejects :
  rejects_lead_byte SafeDecoder.readStringLength string_tags BadLengthPrefix.
Proof.
  unfold rejects_lead_byte, string_tags, SafeDecoder.readStringLength.
  rejects_tag.
Qed.

Lemma readBinLength_rejects :
  rejects_lead_byte SafeDecoder.readBinLength bin_tags BadLengthPrefix.
Proof.
  unfold rejects_lead_byte, bin_tags, SafeDecoder.readBinLength.
  intros r b rest H A. pose proof (Z_of_byte_range b) as R.
  rewrite (bind_Done _ _ _ _ _
             (isNextNil_other r b rest H ltac:(unfold_format; lia))).
  revert A. rejects_outside H.
Qed.

Lemma readArraySize_rejects :
  rejects_lead_byte SafeDecoder.readArraySize array_tags BadLengthPrefix.
Proof.
  unfold rejects_lead_byte, array_tags, SafeDecoder.readArraySize.
  rejects_tag.
Qed.

Lemma readMapSize_rejects :
  rejects_lead_byte SafeDecoder.readMapSize map_tags BadLengthPrefix.
Proof.
  unfold rejects_lead_byte, map_tags, SafeDecoder.readMapSize. rejects_tag.
Qed.

(** A read that starts with another read passes its rejection on. *)
Lemma rejects_bind {T U} (c : M (Result T)) (k : Result T -> M (Result U))
  (accepted : Z -> bool) (err : Z -> Error) :
  rejects_lead_byte c accepted err ->
  (forall e, k (Err e) = ret (Err e)) ->
  rejects_lead_byte (bind c k) accepted err.
Proof.
  intros Hc Hk r b rest H A.
  rewrite (bind_Done _ _ _ _ _ (Hc r b rest H A)), Hk. reflexivity.
Qed.

(** C10. No fallible read of [SafeDecoder] is atomic on failure.  Every
    one of them consumes the byte at the cursor whatever it does next: on
    a buffer that is not exhausted, whether the read returns a value,
    returns an error or throws, the cursor is left after the lead byte (the
    generic container readers included, when their element decoders keep
    to the bytes that remain).  Every one of them rejects the lead bytes
    outside the tags it accepts with a bad-tag or invalid-length error and
    the cursor exactly one byte further: [readBool] on any byte but 0xc2
    and 0xc3, the integer readers on any byte that is no integer tag, and
    so on.  Whenever a read returns a bad-tag or invalid-length error the
    cursor is exactly one byte further than before the call, and after any
    error at all (an overflow or an underflow too) it is further than
    before the call, on the same buffer.  For instance [readBool] on the
    byte 0x05 and [readInt64] on the nil tag fail with the cursor at
    offset 1. *)
Theorem rejected_tag_stays_consumed :
  ((consumes_lead_byte SafeDecoder.readBool
    /\ consumes_lead_byte SafeDecoder.readInt8
    /\ consumes_lead_byte SafeDecoder.readInt16
    /\ consumes_lead_byte SafeDecoder.readInt32
    /\ consumes_lead_byte SafeDecoder.readInt64
    /\ consumes_lead_byte SafeDecoder.readUInt8
    /\ consumes_lead_byte SafeDecoder.readUInt16
    /\ consumes_lead_byte SafeDecoder.readUInt32
    /\ consumes_lead_byte SafeDecoder.readUInt64
    /\ consumes_lead_byte SafeDecoder.readStringLength
    /\ consumes_lead_byte SafeDecoder.readBinLength
    /\ consumes_lead_byte SafeDecoder.readByteArray
    /\ consumes_lead_byte SafeDecoder.readArraySize
    /\ consumes_lead_byte SafeDecoder.readMapSize)
   /\ (forall F : FloatOps,
         consumes_lead_byte SafeDecoder.readFloat32
         /\ consumes_lead_byte SafeDecoder.readFloat64)
   /\ (forall S : StringOps, consumes_lead_byte SafeDecoder.readString)
   /\ (forall (T : Type) (fn : SafeDecoder.ElementFn T),
         (forall i, prefix_reader (fn i)) ->
         consumes_lead_byte (SafeDecoder.readArray fn)
         /\ consumes_lead_byte (SafeDecoder.readNullableArray fn))
   /\ (forall (K V : Type) (eqb : K -> K -> bool)
         (keyFn : SafeDecoder.ElementFn K) (valueFn : SafeDecoder.ElementFn V),
         (forall i, prefix_reader (keyFn i)) ->
         (forall i, prefix_reader (valueFn i)) ->
         consumes_lead_byte (SafeDecoder.readMap eqb keyFn valueFn)
         /\ consumes_lead_byte
              (SafeDecoder.readNullableMap eqb keyFn valueFn)))
  /\ ((rejects_lead_byte SafeDecoder.readBool bool_tags BadBoolValue
       /\ rejects_lead_byte SafeDecoder.readInt8 int_tags BadIntPrefix
       /\ rejects_lead_byte SafeDecoder.readInt16 int_tags BadIntPrefix
       /\ rejects_lead_byte SafeDecoder.readInt32 int_tags BadIntPrefix
       /\ rejects_lead_byte SafeDecoder.readInt64 int_tags BadIntPrefix
       /\ rejects_lead_byte SafeDecoder.readUInt8 uint_tags
            BadUnsignedIntPrefix
       /\ rejects_lead_byte SafeDecoder.readUInt16 uint_tags
            BadUnsignedIntPrefix
       /\ rejects_lead_byte SafeDecoder.readUInt32 uint_tags
            BadUnsignedIntPrefix
       /\ rejects_lead_byte SafeDecoder.readUInt64 uint_tags
            BadUnsignedIntPrefix
       /\ rejects_lead_byte SafeDecoder.readStringLength string_tags
            BadLengthPrefix
       /\ rejects_lead_byte SafeDecoder.readBinLength bin_tags
            BadLengthPrefix
       /\ rejects_lead_byte SafeDecoder.readByteArray bin_tags
            BadLengthPrefix
       /\ rejects_lead_byte SafeDecoder.readArraySize array_tags
            BadLengthPrefix
       /\ rejects_lead_byte SafeDecoder.readMapSize map_tags
            BadLengthPrefix)
      /\ (forall F : FloatOps,
            rejects_lead_byte SafeDecoder.readFloat32 float_tags
              BadFloatPrefix
            /\ rejects_lead_byte SafeDecoder.readFloat64 float_tags
                 BadFloatPrefix)
      /\ (forall S : StringOps,
            rejects_lead_byte SafeDecoder.readString string_tags
              BadLengthPrefix)
      /\ (forall (T : Type) (fn : SafeDecoder.ElementFn T),
            rejects_lead_byte (SafeDecoder.readArray fn) array_tags
              BadLengthPrefix
            /\ rejects_lead_byte (SafeDecoder.readNullableArray fn)
                 array_tags BadLengthPrefix)
      /\ (forall (K V : Type) (eqb : K -> K -> bool)
            (keyFn : SafeDecoder.ElementFn K)
            (valueFn : SafeDecoder.ElementFn V),
            rejects_lead_byte (SafeDecoder.readMap eqb keyFn valueFn)
              map_tags BadLengthPrefix
            /\ rejects_lead_byte
                 (SafeDecoder.readNullableMap eqb keyFn valueFn)
                 (fun p => map_tags p || (p =? 0xc0)) BadLengthPrefix))
  /\ ((consumes_rejected_tag SafeDecoder.readBool
   /\ consumes_rejected_tag SafeDecoder.readInt8
   /\ consumes_rejected_tag SafeDecoder.readInt16
   /\ consumes_rejected_tag SafeDecoder.readInt32
   /\ consumes_rejected_tag SafeDecoder.readInt64
   /\ consumes_rejected_tag SafeDecoder.readUInt8
   /\ consumes_rejected_tag SafeDecoder.readUInt16
   /\ consumes_rejected_tag SafeDecoder.readUInt32
   /\ consumes_rejected_tag SafeDecoder.readUInt64
   /\ consumes_rejected_tag SafeDecoder.readStringLength
   /\ (forall S : StringOps, consumes_rejected_tag SafeDecoder.readString)
   /\ consumes_rejected_tag SafeDecoder.readBinLength
   /\ consumes_rejected_tag SafeDecoder.readByteArray
   /\ consumes_rejected_tag SafeDecoder.readArraySize
   /\ consumes_rejected_tag SafeDecoder.readMapSize)
  /\ (forall F : FloatOps,
        consumes_rejected_tag SafeDecoder.readFloat32
        /\ consumes_rejected_tag SafeDecoder.readFloat64)
  /\ (forall (T : Type) (fn : SafeDecoder.ElementFn T),
        fails_with_size SafeDecoder.readArraySize (SafeDecoder.readArray fn)
        /\ fails_with_size SafeDecoder.readArraySize
             (SafeDecoder.readNullableArray fn))
  /\ (forall (K V : Type) (eqb : K -> K -> bool)
        (keyFn : SafeDecoder.ElementFn K) (valueFn : SafeDecoder.ElementFn V),
        fails_with_size SafeDecoder.readMapSize
          (SafeDecoder.readMap eqb keyFn valueFn))
  /\ (forall (K V : Type) (eqb : K -> K -> bool)
        (keyFn : SafeDecoder.ElementFn K) (valueFn : SafeDecoder.ElementFn V)
        (r r' : DataReader) (e : Error),
        SafeDecoder.isNextNil r = Done false r ->
        SafeDecoder.readMapSize r = Done (Err e) r' ->
        SafeDecoder.readNullableMap eqb keyFn valueFn r = Done (Err e) r'
        /\ r' = Reader.advance r 1)
  /\ (cursor_not_restored SafeDecoder.readBool
      /\ cursor_not_restored SafeDecoder.readInt8
      /\ cursor_not_restored SafeDecoder.readInt16
      /\ cursor_not_restored SafeDecoder.readInt32
      /\ cursor_not_restored SafeDecoder.readInt64
      /\ cursor_not_restored SafeDecoder.readUInt8
      /\ cursor_not_restored SafeDecoder.readUInt16
      /\ cursor_not_restored SafeDecoder.readUInt32
      /\ cursor_not_restored SafeDecoder.readUInt64
      /\ cursor_not_restored SafeDecoder.readStringLength
      /\ (forall S : StringOps, cursor_not_restored SafeDecoder.readString)
      /\ cursor_not_restored SafeDecoder.readBinLength
      /\ cursor_not_restored SafeDecoder.readByteArray
      /\ cursor_not_restored SafeDecoder.readArraySize
      /\ cursor_not_restored SafeDecoder.readMapSize)
  /\ (forall F : FloatOps,
        cursor_not_restored SafeDecoder.readFloat32
        /\ cursor_not_restored SafeDecoder.readFloat64)
  /\ SafeDecoder.readBool (Reader.create (bytes [0x05; 0xc3]))
     = Done (Err (BadBoolValue 5)) (mkReader (bytes [0x05; 0xc3]) 1)
  /\ SafeDecoder.readInt64 (Reader.create (bytes [0xc0; 0x01]))
     = Done (Err (BadIntPrefix 0xc0)) (mkReader (bytes [0xc0; 0x01]) 1)
  /\ SafeDecoder.readMapSize (Reader.create (bytes [0xc0; 0x01]))
     = Done (Err (BadLengthPrefix 0xc0)) (mkReader (bytes [0xc0; 0x01]) 1)).
Proof.
  split; [|split].
  { pose proof prefix_isNextNil as P0.
    pose proof lead_readInt64 as L1.
    pose proof lead_readUInt64 as L2.
    pose proof lead_readStringLength as L3.
    pose proof lead_readBinLength as L4.
    pose proof lead_readArraySize as L5.
    pose proof lead_readMapSize as L6.
    repeat match goal with |- _ /\ _ => split end; try assumption.
    - unfold SafeDecoder.readBool. lead_reads.
    - unfold SafeDecoder.readInt8.
      apply lead_bind; [exact L1 | intros ?; prefix_reads].
    - unfold SafeDecoder.readInt16.
      apply lead_bind; [exact L1 | intros ?; prefix_reads].
    - unfold SafeDecoder.readInt32.
      apply lead_bind; [exact L1 | intros ?; prefix_reads].
    - unfold SafeDecoder.readUInt8.
      apply lead_bind; [exact L2 | intros ?; prefix_reads].
    - unfold SafeDecoder.readUInt16.
      apply lead_bind; [exact L2 | intros ?; prefix_reads].
    - unfold SafeDecoder.readUInt32.
      apply lead_bind; [exact L2 | intros ?; prefix_reads].
    - unfold SafeDecoder.readByteArray.
      apply lead_bind; [exact L4 | intros ?; prefix_reads].
    - intros F. split.
      + unfold SafeDecoder.readFloat32. lead_reads.
      + unfold SafeDecoder.readFloat64. lead_reads.
    - intros S. unfold SafeDecoder.readString.
      apply lead_bind; [exact L3 | intros ?; prefix_reads].
    - intros T fn Hf. split; [apply (lead_readArray fn Hf)|].
      unfold SafeDecoder.readNullableArray. apply lead_isNextNil.
      + apply prefix_ret.
      + apply lead_bind; [apply (lead_readArray fn Hf)|].
        intros ?; prefix_reads.
    - intros K V eqb keyFn valueFn Hk Hv.
      split; [apply (lead_readMap eqb keyFn valueFn Hk Hv)|].
      unfold SafeDecoder.readNullableMap. apply lead_isNextNil.
      + apply prefix_ret.
      + apply lead_bind; [apply (lead_readMap eqb keyFn valueFn Hk Hv)|].
        intros ?; prefix_reads. }
  { pose proof readBool_rejects as R0.
    pose proof readInt64_rejects as R1.
    pose proof readUInt64_rejects as R2.
    pose proof readStringLength_rejects as R3.
    pose proof readBinLength_rejects as R4.
    pose proof readArraySize_rejects as R5.
    pose proof readMapSize_rejects as R6.
    assert (A : forall (T : Type) (fn : SafeDecoder.ElementFn T),
              rejects_lead_byte (SafeDecoder.readArray fn) array_tags
                BadLengthPrefix).
    { intros T fn. unfold SafeDecoder.readArray.
      apply rejects_bind; [exact R5 | reflexivity]. }
    assert (B : forall (K V : Type) (eqb : K -> K -> bool)
                  (keyFn : SafeDecoder.ElementFn K)
                  (valueFn : SafeDecoder.ElementFn V),
              rejects_lead_byte (SafeDecoder.readMap eqb keyFn valueFn)
                map_tags BadLengthPrefix).
    { intros K V eqb keyFn valueFn. unfold SafeDecoder.readMap.
      apply rejects_bind; [exact R6 | reflexivity]. }
    repeat match goal with |- _ /\ _ => split end; try assumption.
    - unfold SafeDecoder.readInt8. apply rejects_bind; [exact R1|].
      reflexivity.
    - unfold SafeDecoder.readInt16. apply rejects_bind; [exact R1|].
      reflexivity.
    - unfold SafeDecoder.readInt32. apply rejects_bind; [exact R1|].
      reflexivity.
    - unfold SafeDecoder.readUInt8. apply rejects_bind; [exact R2|].
      reflexivity.
    - unfold SafeDecoder.readUInt16. apply rejects_bind; [exact R2|].
      reflexivity.
    - unfold SafeDecoder.readUInt32. apply rejects_bind; [exact R2|].
      reflexivity.
    - unfold SafeDecoder.readByteArray. apply rejects_bind; [exact R4|].
      reflexivity.
    - intros F. split;
        [apply readFloat32_rejects | apply readFloat64_rejects].
    - intros S. unfold SafeDecoder.readString.
      apply rejects_bind; [exact R3 | reflexivity].
    - intros T fn. split; [apply A|].
      intros r b rest H Acc. unfold SafeDecoder.readNullableArray.
      pose proof (Z_of_byte_range b) as R.
      rewrite (bind_Done _ _ _ _ _
                 (isNextNil_other r b rest H
                    ltac:(unfold array_tags in Acc; unfold_format; lia))).
      rewrite (bind_Done _ _ _ _ _ (A T fn r b rest H Acc)). reflexivity.
    - intros K V eqb keyFn valueFn. split; [apply B|].
      intros r b rest H Acc. unfold SafeDecoder.readNullableMap.
      pose proof (Z_of_byte_range b) as R.
      apply orb_false_elim in Acc. destruct Acc as [Acc N].
      rewrite (bind_Done _ _ _ _ _
                 (isNextNil_other r b rest H
                    ltac:(unfold_format; lia))).
      rewrite (bind_Done _ _ _ _ _ (B K V eqb keyFn valueFn r b rest H Acc)).
      reflexivity. }
  split.
  { repeat match goal with |- _ /\ _ => split end.
    - apply readBool_rejected.
    - apply readInt8_rejected.
    - apply readInt16_rejected.
    - apply readInt32_rejected.
    - apply readInt64_rejected.
    - apply readUInt8_rejected.
    - apply readUInt16_rejected.
    - apply readUInt32_rejected.
    - apply readUInt64_rejected.
    - apply readStringLength_rejected.
    - apply readString_rejected.
    - apply readBinLength_rejected.
    - apply readByteArray_rejected.
    - apply readArraySize_rejected.
    - apply readMapSize_rejected. }
  split.
  { intros F. split;
      [apply readFloat32_rejected | apply readFloat64_rejected]. }
  split.
  { intros T fn. split;
      [apply readArray_size_fails | apply readNullableArray_size_fails]. }
  split.
  { intros K V eqb keyFn valueFn. apply readMap_size_fails. }
  split.
  { intros K V eqb keyFn valueFn r r' e Hn Hs.
    destruct (readMap_size_fails eqb keyFn valueFn r r' e Hs) as [Hm O].
    split; [|exact O].
    unfold SafeDecoder.readNullableMap. run_read Hn. run_read Hm.
    reflexivity. }
  split.
  { repeat match goal with |- _ /\ _ => split end.
    - apply readBool_not_restored.
    - apply readInt8_not_restored.
    - apply readInt16_not_restored.
    - apply readInt32_not_restored.
    - apply readInt64_not_restored.
    - apply readUInt8_not_restored.
    - apply readUInt16_not_restored.
    - apply readUInt32_not_restored.
    - apply readUInt64_not_restored.
    - apply readStringLength_not_restored.
    - apply readString_not_restored.
    - apply readBinLength_not_restored.
    - apply readByteArray_not_restored.
    - apply readArraySize_not_restored.
    - apply readMapSize_not_restored. }
  split.
  { intros F. split;
      [apply readFloat32_not_restored | apply readFloat64_not_restored]. }
  repeat split.
Qed.

(** [readBool] on the fixint 0x05: the byte is no boolean tag, the read
    returns a bad-tag error, and the cursor has moved from offset 0 to
    offset 1. *)
Lemma rejected_tag_stays_consumed_witness :
  Reader.remaining (Reader.create (bytes [0x05; 0xc3]))
  = byte_of_Z 0x05 :: bytes [0xc3]
  /\ bool_tags (Z_of_byte (byte_of_Z 0x05)) = false
  /\ SafeDecoder.readBool (Reader.create (bytes [0x05; 0xc3]))
     = Done (Err (BadBoolValue 5)) (mkReader (bytes [0x05; 0xc3]) 1).
Proof.
  split; [reflexivity|]. split; [reflexivity|].
  apply (proj1 (proj1 (proj1 (proj2 rejected_tag_stays_consumed)))
           (Reader.create (bytes [0x05; 0xc3])) (byte_of_Z 0x05)
           (bytes [0xc3]) eq_refl eq_refl).
Defined.
